(** * LuminaTour: narrative parsing, fact extraction, journal store,
      audio timing engine, discovery flow, AR scene and detail view

    A shallow embedding of the pure and state-passing parts of
    [src/components/NarratedExperience.tsx] and [src/App.tsx], and of the
    source list built in [src/services/gemini.ts].

    Conventions.
    - A JavaScript string is a [string]: a sequence of code units, here the
      code units 0..255 (the Latin-1 range).  Character classes are the
      ECMAScript ones restricted to that range.
    - A JavaScript number that measures time is a rational [Q]; rounding of
      IEEE doubles is not modelled.  Array indices and lengths are [nat].
    - A thrown exception is [None] in the [option] monad, or a [Rejected]
      [outcome] where the thrown value matters.
    - React state and refs of one component are the fields of one record; a
      handler reads the fields of the state it is applied to and returns the
      state after all of its setters have been applied.  The one function
      that runs long after the render it belongs to, the [playFromOffset]
      called by [fetchNarration] when the clip arrives, reads the state
      values of that render and the refs as they are when it runs. *)

From Stdlib Require Import Ascii String DecimalString DecimalNat DecimalFacts.
From Stdlib Require Import ZArith QArith Qminmax Lqa Lia Sorted Permutation.
From stdpp Require Import base option list strings gmap.

Set Default Proof Using "Type".
Local Open Scope string_scope.
Local Open Scope nat_scope.

(** ** JavaScript string primitives *)

Module Js.

Definition code (c : ascii) : nat := nat_of_ascii c.

(** [\s] and the characters removed by [trim]: TAB, LF, VT, FF, CR,
    SPACE and NBSP. *)
Definition is_space (c : ascii) : bool :=
  let n := code c in
  ((9 <=? n) && (n <=? 13)) || (n =? 32) || (n =? 160).

(** [\d] *)
Definition is_digit (c : ascii) : bool :=
  let n := code c in (48 <=? n) && (n <=? 57).

(** [\w] *)
Definition is_word (c : ascii) : bool :=
  let n := code c in
  is_digit c || ((65 <=? n) && (n <=? 90)) || ((97 <=? n) && (n <=? 122))
  || (n =? 95).

(** [String.prototype.toLowerCase], one code unit at a time. *)
Definition lower_char (c : ascii) : ascii :=
  let n := code c in
  if ((65 <=? n) && (n <=? 90))
     || ((192 <=? n) && (n <=? 222) && negb (n =? 215))
  then ascii_of_nat (n + 32) else c.

Fixpoint toLowerCase (s : string) : string :=
  match s with
  | "" => ""
  | String c s' => String (lower_char c) (toLowerCase s')
  end.

Fixpoint drop (n : nat) (s : string) : string :=
  match n, s with
  | O, _ => s
  | S _, "" => ""
  | S k, String _ s' => drop k s'
  end.

Fixpoint take (n : nat) (s : string) : string :=
  match n, s with
  | O, _ => ""
  | S _, "" => ""
  | S k, String c s' => String c (take k s')
  end.

(** [s.substring(0, n)] *)
Definition substring0 (n : nat) (s : string) : string := take n s.

Fixpoint starts_with (p s : string) : bool :=
  match p, s with
  | "", _ => true
  | String _ _, "" => false
  | String a p', String b s' => Ascii.eqb a b && starts_with p' s'
  end.

(** [s.includes(p)] *)
Fixpoint includes (s p : string) : bool :=
  starts_with p s ||
  match s with
  | "" => false
  | String _ s' => includes s' p
  end.

Fixpoint trimStart (s : string) : string :=
  match s with
  | "" => ""
  | String c s' => if is_space c then trimStart s' else s
  end.

Fixpoint trimEnd (s : string) : string :=
  match s with
  | "" => ""
  | String c s' =>
      match trimEnd s' with
      | "" => if is_space c then "" else String c ""
      | r => String c r
      end
  end.

(** [s.trim()] *)
Definition trim (s : string) : string := trimEnd (trimStart s).

(** Truthiness of a string: the empty string is falsy. *)
Definition truthy (s : string) : bool :=
  match s with "" => false | _ => true end.

(** Number of leading whitespace code units: the greedy [\s+]. *)
Fixpoint spaces (s : string) : nat :=
  match s with
  | String c s' => if is_space c then S (spaces s') else 0
  | "" => 0
  end.

(** Prepend one code unit to the piece under construction. *)
Definition extend (c : ascii) (pieces : list string) : list string :=
  match pieces with
  | [] => [String c ""]
  | p :: ps => String c p :: ps
  end.

Section Split.
(** [sep s] is the length of the separator match anchored at the first
    code unit of [s], [0] when the separator does not match there.  The
    separators used below never match the empty string and never look
    behind the anchor. *)
Variable sep : string -> nat.

(** [s.split(re)], ECMAScript's SplitMatcher loop: try the separator at
    each position from the left; on a match close the current piece and
    resume after the match.  [skip] counts the code units of the current
    match that are still to be consumed. *)
Fixpoint split_from (skip : nat) (s : string) : list string :=
  match s with
  | "" => [""]
  | String c s' =>
      match skip with
      | S k => split_from k s'
      | O =>
          match sep s with
          | O => extend c (split_from 0 s')
          | S k => "" :: split_from k s'
          end
      end
  end.

(** The separators consumed by [split_from], in order. *)
Fixpoint seps_from (skip : nat) (s : string) : list string :=
  match s with
  | "" => []
  | String c s' =>
      match skip with
      | S k => seps_from k s'
      | O =>
          match sep s with
          | O => seps_from 0 s'
          | S k => take (S k) s :: seps_from k s'
          end
      end
  end.

Definition split (s : string) : list string := split_from 0 s.
Definition separators (s : string) : list string := seps_from 0 s.
End Split.

(** [##\s+] anchored at the start of [s]. *)
Definition header_sep (s : string) : nat :=
  if starts_with "##" s then
    match spaces (drop 2 s) with
    | O => 0
    | S k => 2 + S k
    end
  else 0.

(** [[.!?]\s+] anchored at the start of [s]. *)
Definition sentence_sep (s : string) : nat :=
  match s with
  | String c s' =>
      if (Ascii.eqb c "." || Ascii.eqb c "!" || Ascii.eqb c "?")%bool then
        match spaces s' with
        | O => 0
        | S k => 1 + S k
        end
      else 0
  | "" => 0
  end.

(** [s.split('\n')] *)
Definition newline_sep (s : string) : nat :=
  match s with
  | String c _ => if Ascii.eqb c "010" then 1 else 0
  | "" => 0
  end.

Definition split_lines (s : string) : list string := split newline_sep s.

(** [arr.join(d)] *)
Fixpoint join (d : string) (arr : list string) : string :=
  match arr with
  | [] => ""
  | [p] => p
  | p :: ps => (p ++ d ++ join d ps)%string
  end.

(** [arr.slice(1)] *)
Definition slice1 {A} (arr : list A) : list A := List.tl arr.

(** [String(n)] for an array index. *)
Definition of_index (n : nat) : string :=
  NilZero.string_of_uint (Nat.to_uint n).

(** [\b(1\d{3}|20\d{2})\b] anchored at the start of [s], the code unit
    before [s] not being a word character. *)
Definition year_here (s : string) : bool :=
  match s with
  | String c1 (String c2 (String c3 (String c4 rest))) =>
      ((Ascii.eqb c1 "1" && is_digit c2 && is_digit c3 && is_digit c4)
       || (Ascii.eqb c1 "2" && Ascii.eqb c2 "0" && is_digit c3 && is_digit c4))
      && match rest with
         | "" => true
         | String c _ => negb (is_word c)
         end
  | _ => false
  end.

(** [s.match(/\b(1\d{3}|20\d{2})\b/g)]: [None] for [null], otherwise the
    element [0] of the array of matches, the leftmost match.
    [prev_word] tells whether the code unit before [s] is a word
    character. *)
Fixpoint year_from (prev_word : bool) (s : string) : option string :=
  match s with
  | "" => None
  | String c s' =>
      if negb prev_word && year_here s then Some (take 4 s)
      else year_from (is_word c) s'
  end.

Definition match_year (s : string) : option string := year_from false s.

(** [parseInt] on a string of decimal digits. *)
Fixpoint digits_value (acc : nat) (s : string) : nat :=
  match s with
  | "" => acc
  | String c s' =>
      if is_digit c then digits_value (10 * acc + (code c - 48)) s' else acc
  end.

Definition parseInt (s : string) : nat := digits_value 0 s.

End Js.

(** ** Section Parser and Fact Extractor
    ([sections] and [arFactNodes] of [NarratedExperience.tsx]) *)

Module Narrative.
Import Js.

Record HistorySection := { title : string; content : string }.

Record ARFactNode := {
  id : string;
  year : string;
  text : string;
  theme : string;
  sectionIdx : nat;
  x : Q;
  y : Q;
  z : Q
}.

(** [arr[0]] followed by a property access: reading a property of
    [undefined] throws. *)
Definition elem0 {A} (arr : list A) : option A := head arr.

(** [arr.forEach((a, i) => ...)] threading the state the callback
    mutates. *)
Fixpoint forEach_from {A St} (f : A -> nat -> St -> St)
    (i : nat) (arr : list A) (st : St) : St :=
  match arr with
  | [] => st
  | a :: arr' => forEach_from f (S i) arr' (f a i st)
  end.

Definition forEach {A St} (f : A -> nat -> St -> St) : list A -> St -> St :=
  forEach_from f 0.

(** The [if (raw[0].trim())] block. *)
Definition intro_sections (raw0 : string) : option (list HistorySection) :=
  if truthy (trim raw0) then
    let lines := split_lines (trim raw0) in
    line0 ← elem0 lines;
    let introTitle :=
      if String.length line0 <? 30 then line0 else "Introduction" in
    Some [ {| title := introTitle; content := trim raw0 |} ]
  else Some [].

(** The body of the [for] loop, for one [raw[i]]. *)
Definition header_section (chunk : string) : option HistorySection :=
  let lines := split_lines chunk in
  line0 ← elem0 lines;
  let title := trim line0 in
  let content := trim (join (String "010" "") (slice1 lines)) in
  Some {| title := title; content := content |}.

Definition sections (history : string) : option (list HistorySection) :=
  let raw := split header_sep history in
  raw0 ← elem0 raw;
  parsed ← intro_sections raw0;
  rest ← mapM header_section (slice1 raw);
  Some (parsed ++ rest)%list.

(** The four [if] statements that assign [theme], in source order: a later
    assignment overwrites an earlier one. *)
Definition classify (s : string) : string :=
  let l := toLowerCase s in
  let theme := "General History" in
  let theme :=
    if includes l "architect" || includes l "design"
    then "Architecture" else theme in
  let theme :=
    if includes l "war" || includes l "battle" || includes l "conflict"
    then "Conflict" else theme in
  let theme :=
    if includes l "rebuild" || includes l "modern" || includes l "today"
    then "Modernization" else theme in
  let theme :=
    if includes l "king" || includes l "queen" || includes l "emperor"
    then "Royal Era" else theme in
  theme.

Definition excerpt (s : string) : string :=
  let ellipsis := if 120 <? String.length s then "..." else "" in
  (substring0 120 (trim s) ++ ellipsis)%string.

Section Extract.
(** [random k] is the value returned by the [k]-th call of
    [Math.random()], counted from 0. *)
Variable random : nat -> Q.

(** The nodes pushed so far and the number of [Math.random()] calls
    made so far. *)
Definition acc : Type := list ARFactNode * nat.

Definition visit_sentence (sIdx : nat) (s : string) (idx : nat)
    (st : acc) : acc :=
  let '(nodes, k) := st in
  match match_year s with
  | Some m0 =>
      if length nodes <? 8 then
        ((nodes ++ [ {|
           id := ("fact-" ++ of_index sIdx ++ "-" ++ of_index idx)%string;
           year := m0;
           text := excerpt s;
           theme := classify s;
           sectionIdx := sIdx;
           x := ((random k - (1 # 2)) * 50)%Q;
           y := ((random (k + 1) - (1 # 2)) * 35)%Q;
           z := (random (k + 2) * (-120) - 80)%Q
         |} ])%list, k + 3)
      else st
  | None => st
  end.

Definition visit_section (section : HistorySection) (sIdx : nat)
    (st : acc) : acc :=
  let sentences := split sentence_sep (content section) in
  forEach (visit_sentence sIdx) sentences st.

Definition arFactNodes (sections : list HistorySection) : list ARFactNode :=
  fst (forEach visit_section sections ([], 0)).
End Extract.

(** The part of a node that does not come from [Math.random()]. *)
Definition facts (n : ARFactNode) : string * string * string * string * nat :=
  (id n, year n, text n, theme n, sectionIdx n).

(** The history text of the end-to-end scenario. *)
Definition scenario_text : string :=
  ("Intro text. ## Origins" ++ String "010" "Built in 1191 by King X. ## Modern Day"
     ++ String "010" "Renovated in 2005.")%string.

End Narrative.

(** ** Journal store and discovery flow ([App.tsx], [types.ts]) *)

Module App.

Record RelatedLandmark := { related_name : string; reason : string }.

Record LandmarkInfo := {
  name : string;
  description : string;
  location : option string;
  latitude : option Q;
  longitude : option Q
}.

Record GroundingSource := { source_title : string; uri : string }.

(** [relatedLandmarks], [audioBase64], [isBookmarked] and [isDownloaded]
    may be missing from an object: [None] is [undefined]. *)
Record LandmarkResult := {
  id : string;
  info : LandmarkInfo;
  history_text : string;
  sources : list GroundingSource;
  imageUrl : string;
  timestamp : Z;
  relatedLandmarks : option (list RelatedLandmark);
  audioBase64 : option string;
  isBookmarked : option bool;
  isDownloaded : option bool
}.

Inductive AppState :=
  IDLE | UPLOADING | IDENTIFYING | SEARCHING | RESULT | ERROR | HISTORY | MAP.

(** The component state of [App] and the value stored in [localStorage]
    under [STORAGE_KEY] ([None]: no such key). *)
Record Model := {
  state : AppState;
  result : option LandmarkResult;
  error : option string;
  capturedImage : option string;
  history : list LandmarkResult;
  isOffline : bool;
  stored : option (list LandmarkResult)
}.

Definition setState (v : AppState) (m : Model) : Model :=
  {| state := v; result := result m; error := error m;
     capturedImage := capturedImage m; history := history m;
     isOffline := isOffline m; stored := stored m |}.

Definition setResult (v : option LandmarkResult) (m : Model) : Model :=
  {| state := state m; result := v; error := error m;
     capturedImage := capturedImage m; history := history m;
     isOffline := isOffline m; stored := stored m |}.

Definition setError (v : option string) (m : Model) : Model :=
  {| state := state m; result := result m; error := v;
     capturedImage := capturedImage m; history := history m;
     isOffline := isOffline m; stored := stored m |}.

Definition setCapturedImage (v : option string) (m : Model) : Model :=
  {| state := state m; result := result m; error := error m;
     capturedImage := v; history := history m;
     isOffline := isOffline m; stored := stored m |}.

(** [setHistory(prev => { ...; localStorage.setItem(STORAGE_KEY, ...);
    return updated })] *)
Definition setHistory (f : list LandmarkResult -> list LandmarkResult)
    (m : Model) : Model :=
  let updated := f (history m) in
  {| state := state m; result := result m; error := error m;
     capturedImage := capturedImage m; history := updated;
     isOffline := isOffline m; stored := Some updated |}.

(** [!v] for a possibly missing boolean. *)
Definition js_not (v : option bool) : bool :=
  match v with
  | Some true => false
  | _ => true
  end.

(** [{ ...item, isBookmarked: v }] *)
Definition with_isBookmarked (v : bool) (item : LandmarkResult) : LandmarkResult :=
  {| id := id item; info := info item; history_text := history_text item;
     sources := sources item; imageUrl := imageUrl item;
     timestamp := timestamp item; relatedLandmarks := relatedLandmarks item;
     audioBase64 := audioBase64 item; isBookmarked := Some v;
     isDownloaded := isDownloaded item |}.

(** [{ ...item, isDownloaded: v }] *)
Definition with_isDownloaded (v : bool) (item : LandmarkResult) : LandmarkResult :=
  {| id := id item; info := info item; history_text := history_text item;
     sources := sources item; imageUrl := imageUrl item;
     timestamp := timestamp item; relatedLandmarks := relatedLandmarks item;
     audioBase64 := audioBase64 item; isBookmarked := isBookmarked item;
     isDownloaded := Some v |}.

(** The updater passed to [setHistory] by [saveToHistory]. *)
Definition upsert (newResult : LandmarkResult)
    (prev : list LandmarkResult) : list LandmarkResult :=
  let filtered :=
    List.filter (fun item => negb (String.eqb (id item) (id newResult))) prev in
  let updated := take 50 (newResult :: filtered) in
  updated.

Definition saveToHistory (newResult : LandmarkResult) : Model -> Model :=
  setHistory (upsert newResult).

Definition toggleBookmark (i : string) (m : Model) : Model :=
  let m1 :=
    setHistory
      (List.map (fun item =>
         if String.eqb (id item) i
         then with_isBookmarked (js_not (isBookmarked item)) item
         else item)) m in
  match result m with
  | Some r =>
      if String.eqb (id r) i
      then setResult (Some (with_isBookmarked (js_not (isBookmarked r)) r)) m1
      else m1
  | None => m1
  end.

Definition toggleDownload (i : string) (m : Model) : Model :=
  let m1 :=
    setHistory
      (List.map (fun item =>
         if String.eqb (id item) i
         then with_isDownloaded (js_not (isDownloaded item)) item
         else item)) m in
  match result m with
  | Some r =>
      if String.eqb (id r) i
      then setResult (Some (with_isDownloaded (js_not (isDownloaded r)) r)) m1
      else m1
  | None => m1
  end.

(** A sequence of [saveToHistory] calls, oldest first. *)
Definition saveAll (rs : list LandmarkResult) (m : Model) : Model :=
  foldl (fun m r => saveToHistory r m) m rs.

(** *** Asynchronous calls *)

(** A settled promise; a rejection carries [err.message] (the empty
    string when the thrown value has none). *)
Inductive outcome (A : Type) :=
| Resolved (a : A)
| Rejected (message : string).
Arguments Resolved {A} a.
Arguments Rejected {A} message.

(** An [async] handler: it updates the component state and either
    returns or throws; the updates made before a throw stay. *)
Definition Async (A : Type) : Type := Model -> outcome A * Model.

Definition ret {A} (a : A) : Async A := fun m => (Resolved a, m).

Definition bind {A B} (c : Async A) (k : A -> Async B) : Async B :=
  fun m =>
    match c m with
    | (Resolved a, m') => k a m'
    | (Rejected e, m') => (Rejected e, m')
    end.

Definition await {A} (p : outcome A) : Async A := fun m => (p, m).

Definition update (f : Model -> Model) : Async unit :=
  fun m => (Resolved tt, f m).

Definition try_catch (c : Async unit) (handler : string -> Async unit)
    : Async unit :=
  fun m =>
    match c m with
    | (Resolved a, m') => (Resolved a, m')
    | (Rejected e, m') => handler e m'
    end.

Declare Scope async_scope.
Delimit Scope async_scope with async.
Notation "x <- c ;; k" := (bind c (fun x => k))
  (at level 100, c at next level, right associativity) : async_scope.
Notation "c ;; k" := (bind c (fun _ => k))
  (at level 100, right associativity) : async_scope.

(** [Promise.all([p, q])]: fulfilled with both values when both are
    fulfilled, otherwise rejected with the reason of the promise that
    rejects first; [q_first] tells that [q] settles before [p]. *)
Definition promise_all {A B} (q_first : bool) (p : outcome A) (q : outcome B)
    : outcome (A * B) :=
  match p, q with
  | Resolved a, Resolved b => Resolved (a, b)
  | Rejected e, Resolved _ => Rejected e
  | Resolved _, Rejected e => Rejected e
  | Rejected e1, Rejected e2 => Rejected (if q_first then e2 else e1)
  end.

Record HistoryData := { text : string; data_sources : list GroundingSource }.

(** What the outside world answers during one discovery: the Gemini
    service ([services/gemini.ts]), [crypto.randomUUID()] and
    [Date.now()]. *)
Record World := {
  identifyLandmark : string -> outcome LandmarkInfo;
  getLandmarkHistory : string -> outcome HistoryData;
  getRelatedLandmarks : string -> string -> outcome (list RelatedLandmark);
  related_settles_first : bool;
  randomUUID : string;
  now : Z
}.

(** [v || ""] *)
Definition or_empty (v : option string) : string :=
  match v with
  | Some s => s
  | None => ""
  end.

(** The object literal built by [processLandmark]. *)
Definition newResult (w : World) (info : LandmarkInfo) (image : string)
    (historyData : HistoryData) (relatedData : list RelatedLandmark)
    : LandmarkResult :=
  {| id := randomUUID w;
     info := info;
     history_text := text historyData;
     sources := data_sources historyData;
     relatedLandmarks := Some relatedData;
     imageUrl := image;
     timestamp := now w;
     audioBase64 := None;
     isBookmarked := Some false;
     isDownloaded := Some false |}.

Definition processLandmark (w : World) (info : LandmarkInfo) (image : string)
    : Async unit :=
  (update (setState SEARCHING) ;;
   both <- await (promise_all (related_settles_first w)
                    (getLandmarkHistory w (name info))
                    (getRelatedLandmarks w (name info) (or_empty (location info)))) ;;
   let r := newResult w info image (fst both) (snd both) in
   update (setResult (Some r)) ;;
   update (saveToHistory r) ;;
   update (setState RESULT))%async.

Definition handleCapture (w : World) (base64Image : string) : Async unit :=
  fun m =>
    if isOffline m then
      (update (setError (Some "Internet connection required for new discoveries.")) ;;
       update (setState ERROR))%async m
    else
      (update (setCapturedImage (Some base64Image)) ;;
       update (setState IDENTIFYING) ;;
       update (setError None) ;;
       try_catch
         (info <- await (identifyLandmark w base64Image) ;;
          processLandmark w info base64Image)
         (fun message =>
            update (setError (Some (if Js.truthy message then message
                                    else "Failed to analyze image. Please try again."))) ;;
            update (setState ERROR)))%async m.

End App.

(** ** Audio timing engine (the playback handlers of
    [NarratedExperience.tsx]) *)

Module Engine.
Local Open Scope Q_scope.

(** [type PlaybackSpeed = 0.5 | 0.75 | 1 | 1.25 | 1.5 | 2] *)
Inductive PlaybackSpeed := X0_5 | X0_75 | X1 | X1_25 | X1_5 | X2.

Definition rate (speed : PlaybackSpeed) : Q :=
  match speed with
  | X0_5 => 1 # 2
  | X0_75 => 3 # 4
  | X1 => 1
  | X1_25 => 5 # 4
  | X1_5 => 3 # 2
  | X2 => 2
  end.

Definition speed_eqb (a b : PlaybackSpeed) : bool :=
  match a, b with
  | X0_5, X0_5 | X0_75, X0_75 | X1, X1
  | X1_25, X1_25 | X1_5, X1_5 | X2, X2 => true
  | _, _ => false
  end.

(** An [AudioBufferSourceNode] that has been started: its
    [playbackRate.value] and the buffer offset given to [start]. *)
Record SourceNode := { playbackRate : Q; startedAt : Q }.

(** The playback state and refs of one [NarratedExperience].
    [audioContextRef]: the ref holds a context.  [audioBufferRef]: the
    decoded clip, given by its duration.  [created] counts the calls of
    [createBufferSource]. *)
Record Player := {
  isPlaying : bool;
  currentTime : Q;
  duration : Q;
  playbackSpeed : PlaybackSpeed;
  audioContextRef : bool;
  audioBufferRef : option Q;
  sourceNodeRef : option SourceNode;
  startTimeRef : Q;
  offsetRef : Q;
  created : nat
}.

(** The state of a freshly mounted component. *)
Definition mounted : Player :=
  {| isPlaying := false; currentTime := 0; duration := 0;
     playbackSpeed := X1; audioContextRef := false; audioBufferRef := None;
     sourceNodeRef := None; startTimeRef := 0; offsetRef := 0;
     created := 0 |}.

Definition setIsPlaying (v : bool) (p : Player) : Player :=
  {| isPlaying := v; currentTime := currentTime p; duration := duration p;
     playbackSpeed := playbackSpeed p; audioContextRef := audioContextRef p;
     audioBufferRef := audioBufferRef p; sourceNodeRef := sourceNodeRef p;
     startTimeRef := startTimeRef p; offsetRef := offsetRef p;
     created := created p |}.

Definition setCurrentTime (v : Q) (p : Player) : Player :=
  {| isPlaying := isPlaying p; currentTime := v; duration := duration p;
     playbackSpeed := playbackSpeed p; audioContextRef := audioContextRef p;
     audioBufferRef := audioBufferRef p; sourceNodeRef := sourceNodeRef p;
     startTimeRef := startTimeRef p; offsetRef := offsetRef p;
     created := created p |}.

Definition setDuration (v : Q) (p : Player) : Player :=
  {| isPlaying := isPlaying p; currentTime := currentTime p; duration := v;
     playbackSpeed := playbackSpeed p; audioContextRef := audioContextRef p;
     audioBufferRef := audioBufferRef p; sourceNodeRef := sourceNodeRef p;
     startTimeRef := startTimeRef p; offsetRef := offsetRef p;
     created := created p |}.

Definition setPlaybackSpeed (v : PlaybackSpeed) (p : Player) : Player :=
  {| isPlaying := isPlaying p; currentTime := currentTime p;
     duration := duration p; playbackSpeed := v;
     audioContextRef := audioContextRef p;
     audioBufferRef := audioBufferRef p; sourceNodeRef := sourceNodeRef p;
     startTimeRef := startTimeRef p; offsetRef := offsetRef p;
     created := created p |}.

Definition set_audioContextRef (v : bool) (p : Player) : Player :=
  {| isPlaying := isPlaying p; currentTime := currentTime p;
     duration := duration p; playbackSpeed := playbackSpeed p;
     audioContextRef := v;
     audioBufferRef := audioBufferRef p; sourceNodeRef := sourceNodeRef p;
     startTimeRef := startTimeRef p; offsetRef := offsetRef p;
     created := created p |}.

Definition set_audioBufferRef (v : option Q) (p : Player) : Player :=
  {| isPlaying := isPlaying p; currentTime := currentTime p;
     duration := duration p; playbackSpeed := playbackSpeed p;
     audioContextRef := audioContextRef p;
     audioBufferRef := v; sourceNodeRef := sourceNodeRef p;
     startTimeRef := startTimeRef p; offsetRef := offsetRef p;
     created := created p |}.

Definition set_sourceNodeRef (v : option SourceNode) (p : Player) : Player :=
  {| isPlaying := isPlaying p; currentTime := currentTime p;
     duration := duration p; playbackSpeed := playbackSpeed p;
     audioContextRef := audioContextRef p;
     audioBufferRef := audioBufferRef p; sourceNodeRef := v;
     startTimeRef := startTimeRef p; offsetRef := offsetRef p;
     created := created p |}.

Definition set_startTimeRef (v : Q) (p : Player) : Player :=
  {| isPlaying := isPlaying p; currentTime := currentTime p;
     duration := duration p; playbackSpeed := playbackSpeed p;
     audioContextRef := audioContextRef p;
     audioBufferRef := audioBufferRef p; sourceNodeRef := sourceNodeRef p;
     startTimeRef := v; offsetRef := offsetRef p;
     created := created p |}.

Definition set_offsetRef (v : Q) (p : Player) : Player :=
  {| isPlaying := isPlaying p; currentTime := currentTime p;
     duration := duration p; playbackSpeed := playbackSpeed p;
     audioContextRef := audioContextRef p;
     audioBufferRef := audioBufferRef p; sourceNodeRef := sourceNodeRef p;
     startTimeRef := startTimeRef p; offsetRef := v;
     created := created p |}.

(** [audioContextRef.current.createBufferSource()] *)
Definition createBufferSource (p : Player) : Player :=
  {| isPlaying := isPlaying p; currentTime := currentTime p;
     duration := duration p; playbackSpeed := playbackSpeed p;
     audioContextRef := audioContextRef p;
     audioBufferRef := audioBufferRef p; sourceNodeRef := sourceNodeRef p;
     startTimeRef := startTimeRef p; offsetRef := offsetRef p;
     created := S (created p) |}.

(** [Math.max(0, Math.min(t, d))] *)
Definition clamp (t d : Q) : Q := Qmax 0 (Qmin t d).

Definition is_some {A} (v : option A) : bool :=
  match v with Some _ => true | None => false end.

Definition stopPlayback (p : Player) : Player :=
  let p :=
    match sourceNodeRef p with
    | Some _ => set_sourceNodeRef None p
    | None => p
    end in
  setIsPlaying false p.

(** In every handler below [now] is the reading of
    [audioContextRef.current.currentTime] when the handler runs, and
    the values of [isPlaying], [currentTime], [duration] and
    [playbackSpeed] that the handler reads are those of its argument. *)

Definition playFromOffset (offset : Q) (now : Q) (p : Player) : Player :=
  if negb (is_some (audioBufferRef p)) || negb (audioContextRef p) then p
  else
    let speed := playbackSpeed p in
    let d := duration p in
    let p := stopPlayback p in
    let p := createBufferSource p in
    let p := set_offsetRef (clamp offset d) p in
    let p := set_startTimeRef now p in
    let source := {| playbackRate := rate speed; startedAt := offsetRef p |} in
    let p := set_sourceNodeRef (Some source) p in
    let p := setIsPlaying true p in
    setCurrentTime (offsetRef p) p.

(** One animation frame.  The rescheduling of the next frame is not part
    of the state. *)
Definition updateProgress (now : Q) (p : Player) : Player :=
  if isPlaying p && audioContextRef p then
    let elapsed := (now - startTimeRef p) * rate (playbackSpeed p) in
    let current := elapsed + offsetRef p in
    let p' := setCurrentTime current p in
    if Qle_bool (duration p) current then
      setCurrentTime (duration p) (setIsPlaying false p')
    else p'
  else p.

Definition togglePlayback (now : Q) (p : Player) : Player :=
  if isPlaying p then
    stopPlayback (set_offsetRef (currentTime p) p)
  else
    if Qle_bool (duration p) (currentTime p) then playFromOffset 0 now p
    else playFromOffset (currentTime p) now p.

Definition skip (seconds : Q) (now : Q) (p : Player) : Player :=
  let newTime := clamp (currentTime p + seconds) (duration p) in
  if isPlaying p then playFromOffset newTime now p
  else setCurrentTime newTime (set_offsetRef newTime p).

(** [newTime] is [parseFloat(e.target.value)]. *)
Definition handleSeek (newTime : Q) (now : Q) (p : Player) : Player :=
  let playing := isPlaying p in
  let p := setCurrentTime newTime p in
  if playing then playFromOffset newTime now p
  else set_offsetRef newTime p.

Definition changePlaybackSpeed (speed : PlaybackSpeed) (now : Q)
    (p : Player) : Player :=
  if speed_eqb (playbackSpeed p) speed then p
  else
    let now := if audioContextRef p then now else 0 in
    let playing := isPlaying p in
    let p := set_offsetRef (currentTime p) p in
    let p := set_startTimeRef now p in
    let p := setPlaybackSpeed speed p in
    match sourceNodeRef p with
    | Some source =>
        if playing then
          set_sourceNodeRef
            (Some {| playbackRate := rate speed; startedAt := startedAt source |}) p
        else p
    | None => p
    end.

(** The values of [playbackSpeed] and [duration] in one render of the
    component.  The narration effect runs after a render, at mount and
    again when [result.history] or [result.id] changes, and the
    [playFromOffset] that its [fetchNarration] calls is the one of that
    render: it reads these values, whatever the state is when the clip
    arrives. *)
Record Render := { seenSpeed : PlaybackSpeed; seenDuration : Q }.

Definition render_of (p : Player) : Render :=
  {| seenSpeed := playbackSpeed p; seenDuration := duration p |}.

(** [playFromOffset] as a narration effect holds it: the refs are read
    when it runs, [playbackSpeed] and [duration] are those of the render
    [r]. *)
Definition playFromOffset_of (r : Render) (offset : Q) (now : Q)
    (p : Player) : Player :=
  if negb (is_some (audioBufferRef p)) || negb (audioContextRef p) then p
  else
    let speed := seenSpeed r in
    let d := seenDuration r in
    let p := stopPlayback p in
    let p := createBufferSource p in
    let p := set_offsetRef (clamp offset d) p in
    let p := set_startTimeRef now p in
    let source := {| playbackRate := rate speed; startedAt := offsetRef p |} in
    let p := set_sourceNodeRef (Some source) p in
    let p := setIsPlaying true p in
    setCurrentTime (offsetRef p) p.

(** [if (!audioContextRef.current) audioContextRef.current = new
    AudioContext()], the step of [fetchNarration] before it awaits
    [decodeAudioData]. *)
Definition contextCreated (p : Player) : Player :=
  if audioContextRef p then p else set_audioContextRef true p.

(** [decodeAudioData] has resolved with a clip of duration [d] for the
    fetch started by the effect of render [r]: the buffer is stored,
    [setDuration(d)] is called and that render's [playFromOffset(0)]
    runs. *)
Definition narrationDecoded (r : Render) (d : Q) (now : Q)
    (p : Player) : Player :=
  let p := set_audioBufferRef (Some d) p in
  let p := setDuration d p in
  playFromOffset_of r 0 now p.

(** What the user and the animation timer do, each with the clock
    reading at which it is handled. *)
Inductive event :=
| Frame
| Toggle
| Skip (seconds : Q)
| Seek (newTime : Q)
| Speed (speed : PlaybackSpeed).

Definition handle (e : event) (now : Q) (p : Player) : Player :=
  match e with
  | Frame => updateProgress now p
  | Toggle => togglePlayback now p
  | Skip seconds => skip seconds now p
  | Seek newTime => handleSeek newTime now p
  | Speed speed => changePlaybackSpeed speed now p
  end.

(** [running fetches p]: the component can be in state [p] with the
    fetches of [fetches] under way, each given by the render whose
    effect started it.
    - At mount the effect of the first render starts a fetch.
    - When [result.history] or [result.id] changes, the cleanup of the
      effect calls [stopPlayback] (and closes the context, which stays in
      its ref) and the effect of the new render starts a fetch; the
      fetches under way go on.
    - A fetch creates the context when the ref holds none, then awaits
      [decodeAudioData]; until that resolves, and for good when it
      rejects, the context is there and the buffer is not.
    - When [decodeAudioData] resolves the fetch ends in
      [narrationDecoded]; the browser gives a duration that is not
      negative.  The fetch awaits only after the context step and the
      ref is never emptied, so the ref holds a context then.
    - A fetch also ends without a clip and without touching the state:
      offline with nothing cached, [generateNarration] rejected, or the
      decoding rejected. *)
Inductive running : list Render -> Player -> Prop :=
| run_mounted : running [render_of mounted] mounted
| run_rerun fetches p :
    running fetches p ->
    running (render_of p :: fetches) (stopPlayback p)
| run_context fetches p :
    fetches <> [] -> running fetches p ->
    running fetches (contextCreated p)
| run_decoded before r after d now p :
    0 <= d -> audioContextRef p = true ->
    running (before ++ r :: after) p ->
    running (before ++ after) (narrationDecoded r d now p)
| run_failed before r after p :
    running (before ++ r :: after) p ->
    running (before ++ after) p
| run_handle fetches e now p :
    running fetches p -> running fetches (handle e now p).

(** The states the component can be in. *)
Definition reachable (p : Player) : Prop := exists fetches, running fetches p.

(** What every step keeps: playing implies loaded, a buffer implies a
    context, and the duration is not negative. *)
Definition sound (p : Player) : Prop :=
  (isPlaying p = true -> is_some (audioBufferRef p) = true)
  /\ (is_some (audioBufferRef p) = true -> audioContextRef p = true)
  /\ 0 <= duration p.

(** Playing implies a source, and a source implies a clip. *)
Definition attached (p : Player) : Prop :=
  (isPlaying p = true -> is_some (sourceNodeRef p) = true)
  /\ (is_some (sourceNodeRef p) = true -> is_some (audioBufferRef p) = true).

(** A clip of duration [d] loaded right after mount at clock reading
    [now], which starts playing from 0. *)
Definition loaded (d now : Q) : Player :=
  narrationDecoded (render_of mounted) d now (contextCreated mounted).


(** The positions shown by successive animation frames at the clock
    readings [clock]. *)
Fixpoint positions (clock : list Q) (p : Player) : list Q :=
  match clock with
  | [] => []
  | now :: clock' =>
      let p' := updateProgress now p in
      currentTime p' :: positions clock' p'
  end.

(** Consecutive elements are in non-decreasing order. *)
Fixpoint ascending (l : list Q) : Prop :=
  match l with
  | a :: (b :: _) as l' => a <= b /\ ascending l'
  | _ => True
  end.

End Engine.

(** ** Vocabulary of the specification

    Notions the prose specification uses to describe the parser and the
    extractor, defined independently of the functions above. *)

Module Prose.
Import Js.

(** A header marker starts at the first code unit of [s]: two hashes
    followed by whitespace. *)
Definition marker_at (s : string) : bool :=
  starts_with "##" s &&
  match drop 2 s with
  | String c _ => is_space c
  | "" => false
  end.

(** The number of positions of [s] at which a header marker starts. *)
Fixpoint count_markers (s : string) : nat :=
  match s with
  | "" => 0
  | String _ s' => (if marker_at s then 1 else 0) + count_markers s'
  end.

(** The text before the first header marker. *)
Fixpoint leading_text (s : string) : string :=
  match s with
  | "" => ""
  | String c s' => if marker_at s then "" else String c (leading_text s')
  end.

(** A whole header marker: two hashes and then one or more whitespace
    code units, nothing else. *)
Definition is_marker (m : string) : Prop :=
  starts_with "##" m = true /\ 0 < spaces (drop 2 m) /\
  String.length m = 2 + spaces (drop 2 m).

(** The source text rebuilt from its pieces and the markers between
    them. *)
Fixpoint interleave (pieces markers : list string) : string :=
  match pieces, markers with
  | p :: ps, m :: ms => (p ++ m ++ interleave ps ms)%string
  | p :: _, [] => p
  | [], _ => ""
  end.

(** A theme rule: the keywords that trigger it and its label. *)
Definition rule : Type := list string * string.

Definition architecture : rule := (["architect"; "design"], "Architecture").
Definition conflict : rule := (["war"; "battle"; "conflict"], "Conflict").
Definition modernization : rule :=
  (["rebuild"; "modern"; "today"], "Modernization").
Definition royal_era : rule := (["king"; "queen"; "emperor"], "Royal Era").
Definition general : string := "General History".

Definition fires (lowered : string) (r : rule) : bool :=
  existsb (includes lowered) (fst r).

(** First-matching-rule-wins over an ordered list of rules, with a
    fallback label. *)
Definition first_match (rules : list rule) (fallback : string)
    (s : string) : string :=
  match List.find (fires (toLowerCase s)) rules with
  | Some r => snd r
  | None => fallback
  end.

(** The classification as the specification words it: precedence
    architecture, conflict, modernization, royal era. *)
Definition classify_as_specified : string -> string :=
  first_match [architecture; conflict; modernization; royal_era] general.

(** The same rules with the opposite precedence. *)
Definition classify_last_wins : string -> string :=
  first_match [royal_era; modernization; conflict; architecture] general.

(** A whole string matches [\b(1\d{3}|20\d{2})\b]. *)
Definition is_year (s : string) : Prop :=
  String.length s = 4 /\ match_year s = Some s.

(** A node is made from a year-bearing sentence of one of the sections:
    its year is the first year token of the sentence, a token in
    1000..2099, and its theme and excerpt are computed from the sentence
    alone. *)
Definition extracted_from (sections : list Narrative.HistorySection)
    (n : Narrative.ARFactNode) : Prop :=
  is_year (Narrative.year n)
  /\ 1000 <= parseInt (Narrative.year n) <= 2099
  /\ exists section sentence,
       sections !! Narrative.sectionIdx n = Some section
       /\ In sentence (split sentence_sep (Narrative.content section))
       /\ match_year sentence = Some (Narrative.year n)
       /\ Narrative.theme n = Narrative.classify sentence
       /\ Narrative.text n = Narrative.excerpt sentence.

(** What the extractor maintains while it runs: at most 8 nodes, each
    extracted from the sections. *)
Definition kept (sections : list Narrative.HistorySection)
    (st : Narrative.acc) : Prop :=
  length (fst st) <= 8 /\ Forall (extracted_from sections) (fst st).

(** A sentence that names a king and an architect. *)
Definition two_rules : Narrative.HistorySection :=
  {| Narrative.title := "Court";
     Narrative.content := "The king's architect came in 1500" |}.

End Prose.

(** ** Vocabulary for the journal store *)

Module Ledger.
Import App.

Definition ids (l : list LandmarkResult) : list string := List.map id l.

(** The predicate of the [filter] call in [saveToHistory]. *)
Definition other_than (r : LandmarkResult) (item : LandmarkResult) : bool :=
  negb (String.eqb (id item) (id r)).

(** [item'] is [item] with the bookmark flag flipped and nothing else
    changed: a flag that was true is false, a flag that was false or
    absent is true. *)
Definition bookmark_flipped (item item' : LandmarkResult) : Prop :=
  (isBookmarked item = Some true -> isBookmarked item' = Some false) /\
  (isBookmarked item <> Some true -> isBookmarked item' = Some true) /\
  id item' = id item /\ info item' = info item /\
  history_text item' = history_text item /\ sources item' = sources item /\
  imageUrl item' = imageUrl item /\ timestamp item' = timestamp item /\
  relatedLandmarks item' = relatedLandmarks item /\
  audioBase64 item' = audioBase64 item /\
  isDownloaded item' = isDownloaded item.

(** [item'] is [item] with the download flag flipped and nothing else
    changed: a flag that was true is false, a flag that was false or
    absent is true. *)
Definition download_flipped (item item' : LandmarkResult) : Prop :=
  (isDownloaded item = Some true -> isDownloaded item' = Some false) /\
  (isDownloaded item <> Some true -> isDownloaded item' = Some true) /\
  id item' = id item /\ info item' = info item /\
  history_text item' = history_text item /\ sources item' = sources item /\
  imageUrl item' = imageUrl item /\ timestamp item' = timestamp item /\
  relatedLandmarks item' = relatedLandmarks item /\
  audioBase64 item' = audioBase64 item /\
  isBookmarked item' = isBookmarked item.

(** Sample data. *)
Definition sample_info : LandmarkInfo :=
  {| name := "Tower"; description := "A tower"; location := None;
     latitude := None; longitude := None |}.

Definition sample (i : string) : LandmarkResult :=
  {| id := i; info := sample_info; history_text := ""; sources := [];
     imageUrl := ""; timestamp := 0%Z; relatedLandmarks := None;
     audioBase64 := None; isBookmarked := None; isDownloaded := None |}.

Definition samples (n : nat) : list LandmarkResult :=
  List.map (fun k => sample (Js.of_index k)) (seq 0 n).

Definition empty : Model :=
  {| state := IDLE; result := None; error := None; capturedImage := None;
     history := []; isOffline := false; stored := None |}.

(** The message [handleCapture] shows for a rejection with message [e]:
    [err.message || "Failed to analyze image. Please try again."]. *)
Definition surfaced (e : string) : string :=
  if Js.truthy e then e else "Failed to analyze image. Please try again.".

(** A world in which the history call fails and the related-landmarks
    call succeeds. *)
Definition history_down : World :=
  {| identifyLandmark := fun _ => Resolved sample_info;
     getLandmarkHistory := fun _ => Rejected "503";
     getRelatedLandmarks := fun _ _ => Resolved [];
     related_settles_first := true;
     randomUUID := "u-1";
     now := 1700000000000%Z |}.

(** A world in which every call succeeds. *)
Definition all_up : World :=
  {| identifyLandmark := fun _ => Resolved sample_info;
     getLandmarkHistory :=
       fun _ => Resolved {| text := "## Origins"; data_sources := [] |};
     getRelatedLandmarks := fun _ _ => Resolved [];
     related_settles_first := false;
     randomUUID := "u-2";
     now := 1700000000000%Z |}.

End Ledger.

(** ** The other handlers of [App.tsx] *)

Module Desk.
Import App.

(** [{ ...item, audioBase64 }] *)
Definition with_audioBase64 (v : string) (item : LandmarkResult) : LandmarkResult :=
  {| id := id item; info := info item; history_text := history_text item;
     sources := sources item; imageUrl := imageUrl item;
     timestamp := timestamp item; relatedLandmarks := relatedLandmarks item;
     audioBase64 := Some v; isBookmarked := isBookmarked item;
     isDownloaded := isDownloaded item |}.

(** [updateAudioCache] reaches the detail view as its [onUpdateCache],
    and the view calls the one it had when its narration effect ran, at
    the moment the narration arrives: [result] is the state of the render
    of [App] that made that function, not the state at the call. *)
Definition updateAudioCache (result : option LandmarkResult)
    (audioBase64 : string) (m : Model) : Model :=
  match result with
  | Some r =>
      let updatedResult := with_audioBase64 audioBase64 r in
      saveToHistory updatedResult (setResult (Some updatedResult) m)
  | None => m
  end.

Definition viewHistoryItem (item : LandmarkResult) (m : Model) : Model :=
  setState RESULT (setResult (Some item) m).

Definition reset (m : Model) : Model :=
  setCapturedImage None (setError None (setResult None (setState IDLE m))).

(** Truthiness of a possibly missing boolean. *)
Definition is_true (v : option bool) : bool :=
  match v with
  | Some true => true
  | _ => false
  end.

(** [history.filter(item => item.isBookmarked)] *)
Definition bookmarks (m : Model) : list LandmarkResult :=
  List.filter (fun item => is_true (isBookmarked item)) (history m).

(** The callbacks that [toggleBookmark] and [toggleDownload] map over
    the journal. *)
Definition bookmark_if (i : string) (item : LandmarkResult) : LandmarkResult :=
  if String.eqb (id item) i
  then with_isBookmarked (js_not (isBookmarked item)) item else item.

Definition download_if (j : string) (item : LandmarkResult) : LandmarkResult :=
  if String.eqb (id item) j
  then with_isDownloaded (js_not (isDownloaded item)) item else item.

(** The state setter [setHistory(list)] of the mount effect: it does not
    write to the store. *)
Definition with_history (l : list LandmarkResult) (m : Model) : Model :=
  {| state := state m; result := result m; error := error m;
     capturedImage := capturedImage m; history := l;
     isOffline := isOffline m; stored := stored m |}.

(** [localStorage.setItem(STORAGE_KEY, ...)] alone, as a component other
    than [App] does it. *)
Definition with_stored (v : option (list LandmarkResult)) (m : Model) : Model :=
  {| state := state m; result := result m; error := error m;
     capturedImage := capturedImage m; history := history m;
     isOffline := isOffline m; stored := v |}.

(** The mount effect: the journal is read from the store when the key
    exists. *)
Definition loadHistory (m : Model) : Model :=
  match stored m with
  | Some saved => with_history saved m
  | None => m
  end.

(** [handleBookmark] of [NarratedExperience.tsx], for the result with id
    [rid] and the value [isBookmarked] of the view's own flag: the new
    flag of the view and the new content of the store.  The component
    state of [App] is out of its reach. *)
Definition detail_handleBookmark (rid : string) (isBookmarked : bool)
    (saved : option (list LandmarkResult))
    : bool * option (list LandmarkResult) :=
  (negb isBookmarked,
   match saved with
   | Some history =>
       Some (List.map (fun item =>
               if String.eqb (id item) rid
               then with_isBookmarked (negb isBookmarked) item
               else item) history)
   | None => None
   end).

(** [handleDownload] of [NarratedExperience.tsx]. *)
Definition detail_handleDownload (rid : string)
    (saved : option (list LandmarkResult))
    : bool * option (list LandmarkResult) :=
  (true,
   match saved with
   | Some history =>
       Some (List.map (fun item =>
               if String.eqb (id item) rid
               then with_isDownloaded true item
               else item) history)
   | None => None
   end).

(** The bookmark button of the detail view pressed while [App] holds
    [m]. *)
Definition pressBookmark (rid : string) (isBookmarked : bool) (m : Model) : Model :=
  with_stored (snd (detail_handleBookmark rid isBookmarked (stored m))) m.

(** *** Search and exploration *)

(** [App] with its search box. *)
Record Page := { model : Model; searchQuery : string }.

(** The two further calls of [services/gemini.ts] that a search makes. *)
Record Network := {
  world : World;
  searchLandmarkByName : string -> outcome LandmarkInfo;
  generateLandmarkImage : string -> outcome string
}.

Definition Task (A : Type) : Type := Page -> outcome A * Page.

Definition task_bind {A B} (c : Task A) (k : A -> Task B) : Task B :=
  fun pg =>
    match c pg with
    | (Resolved a, pg') => k a pg'
    | (Rejected e, pg') => (Rejected e, pg')
    end.

Definition task_await {A} (p : outcome A) : Task A := fun pg => (p, pg).

(** An [Async] computation of [App] run on the page. *)
Definition lift {A} (c : Async A) : Task A :=
  fun pg =>
    match c (model pg) with
    | (o, m') => (o, {| model := m'; searchQuery := searchQuery pg |})
    end.

Definition setSearchQuery (v : string) : Task unit :=
  fun pg => (Resolved tt, {| model := model pg; searchQuery := v |}).

Definition task_try (c : Task unit) (handler : string -> Task unit) : Task unit :=
  fun pg =>
    match c pg with
    | (Resolved a, pg') => (Resolved a, pg')
    | (Rejected e, pg') => handler e pg'
    end.

Declare Scope task_scope.
Delimit Scope task_scope with task.
Notation "x <- c ;; k" := (task_bind c (fun x => k))
  (at level 100, c at next level, right associativity) : task_scope.
Notation "c ;; k" := (task_bind c (fun _ => k))
  (at level 100, right associativity) : task_scope.

Definition handleSearch (n : Network) : Task unit :=
  fun pg =>
    if negb (Js.truthy (Js.trim (searchQuery pg))) || isOffline (model pg)
    then (Resolved tt, pg)
    else
      (lift (update (setState IDENTIFYING)) ;;
       lift (update (setError None)) ;;
       task_try
         (info <- task_await (searchLandmarkByName n (searchQuery pg)) ;;
          imageUrl <- task_await (generateLandmarkImage n (name info)) ;;
          lift (update (setCapturedImage (Some imageUrl))) ;;
          lift (processLandmark (world n) info imageUrl) ;;
          setSearchQuery "")
         (fun _ =>
            lift (update (setError (Some "Landmark not found or search failed."))) ;;
            lift (update (setState ERROR))))%task pg.

Definition exploreRelated (n : Network) (name' : string) : Task unit :=
  fun pg =>
    if isOffline (model pg) then (Resolved tt, pg)
    else
      (setSearchQuery name' ;;
       lift (update (setState IDENTIFYING)) ;;
       task_try
         (info <- task_await (searchLandmarkByName n name') ;;
          imageUrl <- task_await (generateLandmarkImage n (name info)) ;;
          lift (update (setCapturedImage (Some imageUrl))) ;;
          lift (processLandmark (world n) info imageUrl) ;;
          setSearchQuery "")
         (fun _ =>
            lift (update (setError (Some "Could not explore related site."))) ;;
            lift (update (setState ERROR))))%task pg.

(** The [try]/[catch] block that [handleSearch] and [exploreRelated] have
    in common, with the name looked up and the message of the [catch]. *)
Definition discovery_block (n : Network) (q message : string) : Task unit :=
  (task_try
     (info <- task_await (searchLandmarkByName n q) ;;
      imageUrl <- task_await (generateLandmarkImage n (name info)) ;;
      lift (update (setCapturedImage (Some imageUrl))) ;;
      lift (processLandmark (world n) info imageUrl) ;;
      setSearchQuery "")
     (fun _ =>
        lift (update (setError (Some message))) ;;
        lift (update (setState ERROR))))%task.

(** What the user and the network can make [App] do.  [CacheAudio seen
    a]: the narration [a] fetched by a detail view arrives, [seen] being
    the result that [App] held when that view got its callback. *)
Inductive action :=
| Capture (w : World) (base64Image : string)
| Search (n : Network)
| Explore (n : Network) (name' : string)
| TypeQuery (v : string)
| ToggleBookmark (i : string)
| ToggleDownload (i : string)
| CacheAudio (seen : option LandmarkResult) (audioBase64 : string)
| View (item : LandmarkResult)
| Reset.

Definition on_model (f : Model -> Model) (pg : Page) : Page :=
  {| model := f (model pg); searchQuery := searchQuery pg |}.

Definition act (a : action) (pg : Page) : Page :=
  match a with
  | Capture w base64Image => snd (lift (handleCapture w base64Image) pg)
  | Search n => snd (handleSearch n pg)
  | Explore n name' => snd (exploreRelated n name' pg)
  | TypeQuery v => {| model := model pg; searchQuery := v |}
  | ToggleBookmark i => on_model (toggleBookmark i) pg
  | ToggleDownload i => on_model (toggleDownload i) pg
  | CacheAudio seen audioBase64 =>
      on_model (updateAudioCache seen audioBase64) pg
  | View item => on_model (viewHistoryItem item) pg
  | Reset => on_model reset pg
  end.

Definition acts (l : list action) (pg : Page) : Page :=
  foldl (fun pg a => act a pg) pg l.

(** What one handler may do to the journal, its stored copy and the shown
    result: nothing, or one [saveToHistory] of the result it shows. *)
Definition untouched_or_saved (m m' : Model) : Prop :=
  (history m' = history m /\ stored m' = stored m /\ result m' = result m)
  \/ exists r, history m' = upsert r (history m) /\ stored m' = Some (history m')
       /\ result m' = Some r.

(** The shown result is the journal's entry of its id, when the journal
    has one. *)
Definition result_in_step (m : Model) : Prop :=
  forall r item,
    result m = Some r -> In item (history m) -> id item = id r -> item = r.

(** A run in which every [View] opens an entry of the journal as it is
    then, as the journal and map screens do. *)
Fixpoint fitting (l : list action) (pg : Page) : Prop :=
  match l with
  | [] => True
  | a :: l' =>
      match a with
      | View item => In item (history (model pg))
      | _ => True
      end /\ fitting l' (act a pg)
  end.

(** [App] freshly mounted on an empty store. *)
Definition fresh : Page := {| model := Ledger.empty; searchQuery := "" |}.

(** The journal is bounded, has no two entries with one id, and the
    store holds what [App] holds (or both are empty). *)
Definition journal_ok (m : Model) : Prop :=
  length (history m) <= 50
  /\ NoDup (Ledger.ids (history m))
  /\ (stored m = Some (history m) \/ (stored m = None /\ history m = [])).


(** An unreachable network, and one that answers. *)
Definition net_down : Network :=
  {| world := Ledger.history_down;
     searchLandmarkByName := fun _ => Rejected "offline";
     generateLandmarkImage := fun _ => Rejected "offline" |}.

Definition net_up : Network :=
  {| world := Ledger.all_up;
     searchLandmarkByName := fun _ => Resolved Ledger.sample_info;
     generateLandmarkImage := fun _ => Resolved "data:image/png;base64,AAAA" |}.

End Desk.

(** ** The AR scene: themes, filter, chronological navigation, tracking
    confidence ([NarratedExperience.tsx]) *)

Module Scene.
Import Js Narrative.

(** [set.add(v)] on a [Set] kept in insertion order. *)
Definition set_add (seen : list string) (v : string) : list string :=
  if existsb (String.eqb v) seen then seen else (seen ++ [v])%list.

(** [Array.from(new Set(arr))] *)
Definition array_from_set (arr : list string) : list string :=
  foldl set_add [] arr.

Definition uniqueThemes (arFactNodes : list ARFactNode) : list string :=
  "All" :: array_from_set (List.map theme arFactNodes).

Definition filteredNodes (selectedTheme : string)
    (arFactNodes : list ARFactNode) : list ARFactNode :=
  if String.eqb selectedTheme "All" then arFactNodes
  else List.filter (fun n => String.eqb (theme n) selectedTheme) arFactNodes.

(** The comparator [(a, b) => parseInt(a.year) - parseInt(b.year)]; the
    years of nodes are strings of four digits. *)
Definition by_year (a b : ARFactNode) : Z :=
  (Z.of_nat (parseInt (year a)) - Z.of_nat (parseInt (year b)))%Z.

(** [Array.prototype.sort] is stable, and for a comparator that is a
    difference of keys its result is determined: insertion from the right
    computes it. *)
Section Sort.
Context {A : Type} (cmp : A -> A -> Z).

Fixpoint insert_sorted (a : A) (l : list A) : list A :=
  match l with
  | [] => [a]
  | b :: l' => if (cmp a b <=? 0)%Z then a :: l else b :: insert_sorted a l'
  end.

Fixpoint sort (l : list A) : list A :=
  match l with
  | [] => []
  | a :: l' => insert_sorted a (sort l')
  end.
End Sort.

(** [[...arFactNodes].sort(...)] *)
Definition sortedNodesByYear (arFactNodes : list ARFactNode) : list ARFactNode :=
  sort by_year arFactNodes.

(** [arr.findIndex(pred)]: [-1] when no element satisfies [pred]. *)
Fixpoint findIndex_from {A} (pred : A -> bool) (i : Z) (arr : list A) : Z :=
  match arr with
  | [] => (-1)%Z
  | a :: arr' => if pred a then i else findIndex_from pred (i + 1)%Z arr'
  end.

Definition findIndex {A} (pred : A -> bool) (arr : list A) : Z :=
  findIndex_from pred 0%Z arr.

(** [arr[i]] for an integer [i]: [None] is [undefined]. *)
Definition at_index {A} (arr : list A) (i : Z) : option A :=
  if (i <? 0)%Z then None else arr !! Z.to_nat i.

Inductive direction := next | prev.

(** The new value of [selectedARFact]; [None] is [null] or
    [undefined]. *)
Definition navigateFact (d : direction) (sortedNodesByYear : list ARFactNode)
    (selectedARFact : option ARFactNode) : option ARFactNode :=
  match selectedARFact with
  | None => None
  | Some selected =>
      let currentIndex :=
        findIndex (fun n => String.eqb (id n) (id selected)) sortedNodesByYear in
      let nextIndex :=
        match d with
        | next => (currentIndex + 1)%Z
        | prev => (currentIndex - 1)%Z
        end in
      let len := Z.of_nat (length sortedNodesByYear) in
      let nextIndex := if (nextIndex <? 0)%Z then (len - 1)%Z else nextIndex in
      let nextIndex := if (len <=? nextIndex)%Z then 0%Z else nextIndex in
      at_index sortedNodesByYear nextIndex
  end.

(** The updater of the tracking confidence, [r] being the value of
    [Math.random()]. *)
Definition fluctuate (r : Q) (prev' : Q) : Q :=
  let delta := ((r - (1 # 2)) * 4)%Q in
  let next' := Qmax 50 (Qmin 100 (prev' + delta)) in
  next'.

(** The tracking confidence after the timer has fired once for each
    element of [rs], the values [Math.random()] returned, the first
    first; it starts at 98. *)
Definition trackingConfidence (rs : list Q) : Q :=
  foldl (fun prev' r => fluctuate r prev') 98%Q rs.

(** The year-bearing sentences of the sections, each with the index of
    its section and its index in the section, in reading order. *)
Definition indexed {A} (l : list A) : list (nat * A) :=
  zip (seq 0 (length l)) l.

(** The year-bearing sentences among [sentences], numbered from [i]. *)
Definition year_sentences_from (sIdx i : nat) (sentences : list string)
    : list (nat * nat * string) :=
  List.flat_map
    (fun p => match match_year (snd p) with
              | Some _ => [(sIdx, fst p, snd p)]
              | None => []
              end)
    (zip (seq i (length sentences)) sentences).

Definition year_sentences_of (sIdx : nat) (section : HistorySection)
    : list (nat * nat * string) :=
  year_sentences_from sIdx 0 (split sentence_sep (content section)).

(** The same over the sections numbered from [i]. *)
Definition year_sentences_at (i : nat) (sections : list HistorySection)
    : list (nat * nat * string) :=
  List.flat_map (fun p => year_sentences_of (fst p) (snd p))
    (zip (seq i (length sections)) sections).

Definition year_sentences (sections : list HistorySection)
    : list (nat * nat * string) :=
  year_sentences_at 0 sections.

(** The facts of the node made from one year-bearing sentence. *)
Definition fact_of (c : nat * nat * string)
    : string * string * string * string * nat :=
  let '(sIdx, idx, s) := c in
  (("fact-" ++ of_index sIdx ++ "-" ++ of_index idx)%string,
   match match_year s with Some m0 => m0 | None => "" end,
   excerpt s, classify s, sIdx).

(** No code unit of the string is a hyphen. *)
Fixpoint dash_free (s : string) : Prop :=
  match s with
  | EmptyString => True
  | String c s' => c <> "-"%char /\ dash_free s'
  end.


(** The five theme labels. *)
Definition labels : list string :=
  ["General History"; "Architecture"; "Conflict"; "Modernization"; "Royal Era"].

End Scene.

(** ** Feedback, AR mode and expanded sections of the detail view
    ([NarratedExperience.tsx]) *)

Module Panel.

(** [localStorage] is a [gmap string string]: string keys, string
    values. *)

Definition getItem (key : string) (store : gmap string string) : option string :=
  store !! key.

Definition setItem (key value : string) (store : gmap string string) : gmap string string :=
  <[key := value]> store.

Definition removeItem (key : string) (store : gmap string string) : gmap string string :=
  delete key store.

(** The key of the journal, [STORAGE_KEY] of [App.tsx]. *)
Definition STORAGE_KEY : string := "lumina_tour_history".

(** [`feedback_${result.id}`] and [`ar_active_${result.id}`] *)
Definition feedback_key (rid : string) : string := "feedback_" ++ rid.
Definition ar_key (rid : string) : string := "ar_active_" ++ rid.

(** ['up' | 'down'] *)
Inductive Vote := up | down.

Definition vote_text (v : Vote) : string :=
  match v with up => "up" | down => "down" end.

Definition vote_eqb (a b : Vote) : bool :=
  match a, b with
  | up, up | down, down => true
  | _, _ => false
  end.

(** [feedback === type] for a possibly null [feedback]. *)
Definition is_vote (feedback : option Vote) (type : Vote) : bool :=
  match feedback with
  | Some v => vote_eqb v type
  | None => false
  end.

(** The effect on [result.id]: the state is set only when the stored
    value is one of the two votes. *)
Definition loadFeedback (rid : string) (store : gmap string string)
    (feedback : option Vote) : option Vote :=
  match getItem (feedback_key rid) store with
  | Some saved =>
      if String.eqb saved "up" then Some up
      else if String.eqb saved "down" then Some down
      else feedback
  | None => feedback
  end.

(** [handleFeedback(type)]: the new [feedback] and the store. *)
Definition handleFeedback (rid : string) (type : Vote)
    (feedback : option Vote) (store : gmap string string) : option Vote * gmap string string :=
  let newFeedback := if is_vote feedback type then None else Some type in
  (newFeedback,
   match newFeedback with
   | Some v => setItem (feedback_key rid) (vote_text v) store
   | None => removeItem (feedback_key rid) store
   end).

(** The AR part of the view: [isARMode], whether [stream] holds a
    camera stream, and the store. *)
Record Lens := { isARMode : bool; stream : bool; store : gmap string string }.

(** The initial state: [isARMode] is read from the store, [stream] is
    [null]. *)
Definition opened (rid : string) (store : gmap string string) : Lens :=
  {| isARMode :=
       match getItem (ar_key rid) store with
       | Some saved => String.eqb saved "true"
       | None => false
       end;
     stream := false;
     store := store |}.

(** [String(b)] *)
Definition of_bool (b : bool) : string := if b then "true" else "false".

(** [toggleAR], [granted] telling whether [getUserMedia] resolves. *)
Definition toggleAR (rid : string) (granted : bool) (l : Lens) : Lens :=
  let newState := negb (isARMode l) in
  let store1 := setItem (ar_key rid) (of_bool newState) (store l) in
  if newState then
    if granted then {| isARMode := true; stream := true; store := store1 |}
    else {| isARMode := false; stream := stream l;
            store := removeItem (ar_key rid) store1 |}
  else
    {| isARMode := false; stream := false; store := store1 |}.

(** The effect that runs once after the first render. *)
Definition afterMount (rid : string) (granted : bool) (l : Lens) : Lens :=
  if isARMode l && negb (stream l) then toggleAR rid granted l else l.

Definition mount (rid : string) (granted : bool) (store : gmap string string) : Lens :=
  afterMount rid granted (opened rid store).

(** [expandedSections], a [Record<number, boolean>], is a
    [gmap nat bool]; it starts as [{ 0: true }]. *)

Definition initially : gmap nat bool := {[ 0 := true ]}.

(** [expandedSections[idx]] where it is tested. *)
Definition shown (idx : nat) (e : gmap nat bool) : bool :=
  match e !! idx with
  | Some b => b
  | None => false
  end.

(** The updater of [toggleSection(idx)]. *)
Definition toggleSection (idx : nat) (prev' : gmap nat bool) : gmap nat bool :=
  <[idx := negb (shown idx prev')]> prev'.

(** The updater of [jumpToChronicleSection(idx)]. *)
Definition jumpToChronicleSection (idx : nat) (prev' : gmap nat bool) : gmap nat bool :=
  <[idx := true]> prev'.

End Panel.

(** ** The grounding sources of a history answer ([services/gemini.ts]) *)

Module Gemini.
Import App.








End Gemini.

(** * Proofs *)

Local Close Scope string_scope.

(** ** The string primitives on small inputs *)

Module JsExamples.
Import Js.

Example split_header_three :
  split header_sep "a ## B ##  C"%string = ["a "; "B "; "C"]%string.
Proof. reflexivity. Qed.

Example split_header_at_start :
  split header_sep "## B"%string = [""; "B"]%string.
Proof. reflexivity. Qed.

Example split_header_triple_hash :
  split header_sep "### B"%string = ["#"; "B"]%string.
Proof. reflexivity. Qed.

Example split_header_none :
  split header_sep "a ##b #"%string = ["a ##b #"]%string.
Proof. reflexivity. Qed.

Example split_empty : split header_sep ""%string = [""%string].
Proof. reflexivity. Qed.

Example split_sentences :
  split sentence_sep "One. Two!  Three?Four."%string
  = ["One"; "Two"; "Three?Four."]%string.
Proof. reflexivity. Qed.

Example trim_both : trim "  a b  "%string = "a b"%string.
Proof. reflexivity. Qed.

Example trim_blank : trim "   "%string = ""%string.
Proof. reflexivity. Qed.

Example year_leftmost :
  match_year "from 1066 to 2012"%string = Some "1066"%string.
Proof. reflexivity. Qed.

Example year_needs_boundaries :
  match_year "x1999 19990 _2001 2100 999"%string = None.
Proof. reflexivity. Qed.

Example lower_mixed : toLowerCase "King X"%string = "king x"%string.
Proof. reflexivity. Qed.

Example index_text : of_index 12 = "12"%string.
Proof. reflexivity. Qed.
End JsExamples.

(** ** Journal store *)

Module JournalFacts.
Import App Ledger.

Lemma upsert_unfold r l :
  upsert r l = take 50 (r :: List.filter (other_than r) l).
Proof. reflexivity. Qed.

Lemma filter_length_le_all {A} (f : A -> bool) l :
  length (List.filter f l) <= length l.
Proof. induction l as [|a l IH]; simpl; [lia|]. destruct (f a); simpl; lia. Qed.

Lemma filter_length_lt {A} (f : A -> bool) l a :
  In a l -> f a = false -> length (List.filter f l) < length l.
Proof.
  induction l as [|b l IH]; simpl; [tauto|].
  intros [->|Hin] Hf.
  - rewrite Hf. pose proof (filter_length_le_all f l). lia.
  - specialize (IH Hin Hf). destruct (f b); simpl; lia.
Qed.

Lemma filter_all {A} (f : A -> bool) l :
  Forall (fun a => f a = true) l -> List.filter f l = l.
Proof.
  induction 1 as [|a l Ha _ IH]; simpl; [done|]. by rewrite Ha, IH.
Qed.

Lemma ids_filter_sub f l i : In i (ids (List.filter f l)) -> In i (ids l).
Proof.
  unfold ids. rewrite !in_map_iff. intros (a & <- & Ha).
  apply filter_In in Ha. exists a. tauto.
Qed.

Lemma NoDup_ids_filter f l : NoDup (ids l) -> NoDup (ids (List.filter f l)).
Proof.
  induction l as [|a l IH]; simpl; [done|].
  intros Hnd. apply NoDup_cons in Hnd as [Hnotin Hnd].
  destruct (f a); simpl; [|by apply IH].
  apply NoDup_cons. split; [|by apply IH].
  rewrite list_elem_of_In in *. intros Hin. apply Hnotin.
  by apply ids_filter_sub in Hin.
Qed.

Lemma NoDup_ids_take n l : NoDup (ids l) -> NoDup (ids (take n l)).
Proof.
  unfold ids. revert n. induction l as [|a l IH]; intros [|n]; simpl;
    try done; try (intros; apply NoDup_nil_2).
  intros Hnd. apply NoDup_cons in Hnd as [Hnotin Hnd].
  apply NoDup_cons. split; [|by apply IH].
  rewrite list_elem_of_In in *. intros Hin. apply Hnotin.
  apply in_map_iff in Hin as (b & <- & Hb). apply in_map.
  apply list_elem_of_In. eapply (subseteq_take n l). by apply list_elem_of_In.
Qed.

Lemma id_not_in_filter r l : ~ In (id r) (ids (List.filter (other_than r) l)).
Proof.
  unfold ids. rewrite in_map_iff. intros (a & Heq & Ha).
  apply filter_In in Ha as [_ Ha]. unfold other_than in Ha.
  rewrite Heq, String.eqb_refl in Ha. done.
Qed.

Lemma upsert_NoDup r l : NoDup (ids l) -> NoDup (ids (upsert r l)).
Proof.
  intros Hnd. rewrite upsert_unfold. apply NoDup_ids_take. simpl.
  apply NoDup_cons. split.
  - rewrite list_elem_of_In. apply id_not_in_filter.
  - by apply NoDup_ids_filter.
Qed.

Lemma upsert_existing r l a :
  In a l -> id a = id r -> length (upsert r l) <= length l.
Proof.
  intros Hin Heq. rewrite upsert_unfold, length_take, length_cons.
  assert (length (List.filter (other_than r) l) < length l); [|lia].
  apply filter_length_lt with a; [done|].
  unfold other_than. by rewrite Heq, String.eqb_refl.
Qed.

Lemma saveAll_snoc rs r m : saveAll (rs ++ [r]) m = saveToHistory r (saveAll rs m).
Proof. unfold saveAll. by rewrite foldl_app. Qed.

Lemma take_take_app {A} n k (l older : list A) :
  n <= k -> take n (take k l ++ older) = take n (l ++ older).
Proof.
  intros Hnk. destruct (decide (length l <= k)) as [Hle|Hgt].
  - by rewrite (take_ge l k).
  - rewrite !take_app_le; rewrite ?length_take; try lia.
    rewrite take_take. f_equal. lia.
Qed.

Lemma filter_app_std {A} (f : A -> bool) l k :
  List.filter f (l ++ k) = List.filter f l ++ List.filter f k.
Proof. induction l as [|a l IH]; simpl; [done|]. destruct (f a); simpl; by rewrite IH. Qed.

(** After a run of insertions with pairwise distinct ids the store begins
    with the inserted results, newest first. *)
Lemma saveAll_newest_first rs r m :
  NoDup (ids (r :: rs)) ->
  exists older, history (saveAll (r :: rs) m) = take 50 (reverse (r :: rs) ++ older).
Proof.
  induction rs as [|r' rs IH] using rev_ind; intros Hnd.
  - eexists. reflexivity.
  - rewrite app_comm_cons, saveAll_snoc.
    destruct IH as [older IH].
    { unfold ids in *. rewrite app_comm_cons, map_app in Hnd.
      by apply NoDup_app in Hnd as (? & _). }
    exists (List.filter (other_than r') (take (50 - length (r :: rs)) older)).
    change (history (saveToHistory r' (saveAll (r :: rs) m)))
      with (upsert r' (history (saveAll (r :: rs) m))).
    rewrite IH, upsert_unfold, reverse_app. simpl reverse at 2. simpl app at 2.
    rewrite take_app, filter_app_std, length_reverse.
    rewrite (filter_all _ (take 50 _)).
    + rewrite !(firstn_cons 49). f_equal. apply take_take_app. lia.
    + apply Forall_take, Forall_reverse, Forall_forall. intros a Ha.
      unfold other_than. apply negb_true_iff, String.eqb_neq. intros Heq.
      unfold ids in Hnd. rewrite app_comm_cons, map_app in Hnd.
      apply NoDup_app in Hnd as (_ & Hdisj & _).
      apply (Hdisj (id a)).
      * apply list_elem_of_In, in_map. by apply list_elem_of_In.
      * simpl. rewrite Heq. apply list_elem_of_here.
Qed.

Lemma saveAll_51 rs m :
  length rs = 51 -> NoDup (ids rs) ->
  history (saveAll rs m) = take 50 (reverse rs).
Proof.
  intros Hlen Hnd. destruct rs as [|r rs]; [done|].
  destruct (saveAll_newest_first rs r m Hnd) as [older ->].
  apply take_app_le. rewrite length_reverse. lia.
Qed.

(** C3. [saveToHistory] removes the entries with the id of the new
    result, prepends the new result and keeps the first 50 entries.
    Re-inserting an id that is already stored does not make the store
    longer; 51 insertions with distinct ids leave the 50 newest, newest
    first, without the oldest; inserting A, B and A again into an empty
    store leaves A then B; and ids that were unique stay unique. *)
Theorem saveToHistory_replaces_prepends_truncates (m : Model) (r : LandmarkResult) :
  history (saveToHistory r m)
    = take 50 (r :: List.filter (fun item => negb (String.eqb (id item) (id r))) (history m))
  /\ stored (saveToHistory r m) = Some (history (saveToHistory r m))
  /\ ((exists a, In a (history m) /\ id a = id r) ->
      length (history (saveToHistory r m)) <= length (history m))
  /\ (forall rs, length rs = 51 -> NoDup (ids rs) ->
      history (saveAll rs m) = take 50 (reverse rs)
      /\ length (history (saveAll rs m)) = 50
      /\ head (history (saveAll rs m)) = last rs
      /\ forall oldest, head rs = Some oldest ->
           ~ In (id oldest) (ids (history (saveAll rs m))))
  /\ (forall b r', history m = [] -> id r' = id r -> id b <> id r ->
      history (saveToHistory r' (saveToHistory b (saveToHistory r m))) = [r'; b])
  /\ (NoDup (ids (history m)) -> NoDup (ids (history (saveToHistory r m)))).
Proof.
  split; [reflexivity|]. split; [reflexivity|]. split; [|split; [|split]].
  - intros (a & Hin & Heq). by apply upsert_existing with a.
  - intros rs Hlen Hnd. rewrite (saveAll_51 rs m Hlen Hnd).
    assert (Hrev : length (reverse rs) = 51) by by rewrite length_reverse.
    split; [done|]. split; [rewrite length_take; lia|]. split.
    + destruct rs as [|r0 rs _] using rev_ind; [done|].
      rewrite reverse_app, last_snoc. reflexivity.
    + intros oldest Hhd. destruct rs as [|r0 rs]; [done|].
      injection Hhd as ->. rewrite reverse_cons.
      rewrite take_app_le by (rewrite length_reverse; simpl in Hlen; lia).
      rewrite take_ge by (rewrite length_reverse; simpl in Hlen; lia).
      unfold ids in *. simpl in Hnd. apply NoDup_cons in Hnd as [Hnotin _].
      intros Hin. apply Hnotin. apply list_elem_of_In.
      apply in_map_iff in Hin as (a & Ha & Hin). apply in_map_iff.
      exists a. split; [done|]. apply list_elem_of_In.
      apply list_elem_of_In in Hin. by rewrite elem_of_reverse in Hin.
  - intros b r' Hempty Hid Hne.
    change (upsert r' (upsert b (upsert r (history m))) = [r'; b]).
    rewrite Hempty. unfold upsert. simpl.
    assert (String.eqb (id r) (id b) = false) as ->.
    { apply String.eqb_neq. congruence. }
    simpl. rewrite Hid.
    assert (String.eqb (id b) (id r) = false) as ->.
    { by apply String.eqb_neq. }
    simpl. by rewrite String.eqb_refl.
  - apply upsert_NoDup.
Qed.

Lemma saveToHistory_replaces_prepends_truncates_witness :
  let a := sample "a" in
  let b := sample "b" in
  let m1 := saveToHistory a empty in
  length (history (saveToHistory a m1)) <= length (history m1)
  /\ length (history (saveAll (samples 51) m1)) = 50
  /\ history (saveToHistory a (saveToHistory b (saveToHistory a empty))) = [a; b]
  /\ NoDup (ids (history (saveToHistory a m1))).
Proof.
  intros a b m1.
  destruct (saveToHistory_replaces_prepends_truncates m1 a)
    as (_ & _ & Hexisting & Hmany & _ & Hunique).
  destruct (saveToHistory_replaces_prepends_truncates empty a)
    as (_ & _ & _ & _ & Haba & _).
  split; [|split; [|split]].
  - apply Hexisting. exists a. split; [left|]; reflexivity.
  - apply Hmany; [reflexivity|].
    apply (bool_decide_unpack _). vm_compute. exact I.
  - apply Haba; [reflexivity|reflexivity|]. vm_compute. discriminate.
  - apply Hunique. apply (bool_decide_unpack _). vm_compute. exact I.
Defined.

Lemma map_lookup_std {A B} (f : A -> B) (l : list A) k :
  List.map f l !! k = f <$> l !! k.
Proof. revert k. induction l as [|a l IH]; intros [|k]; simpl; auto. Qed.

(** The journal after a toggle is the old journal mapped; the update of
    the open result does not touch it. *)
Lemma history_toggleBookmark i m :
  history (toggleBookmark i m)
  = List.map (fun item =>
      if String.eqb (id item) i
      then with_isBookmarked (js_not (isBookmarked item)) item
      else item) (history m).
Proof.
  unfold toggleBookmark.
  destruct (result m) as [r|]; [destruct (String.eqb (id r) i)|]; reflexivity.
Qed.

Lemma history_toggleDownload i m :
  history (toggleDownload i m)
  = List.map (fun item =>
      if String.eqb (id item) i
      then with_isDownloaded (js_not (isDownloaded item)) item
      else item) (history m).
Proof.
  unfold toggleDownload.
  destruct (result m) as [r|]; [destruct (String.eqb (id r) i)|]; reflexivity.
Qed.

Lemma with_isBookmarked_flipped item :
  bookmark_flipped item (with_isBookmarked (js_not (isBookmarked item)) item).
Proof.
  unfold bookmark_flipped. simpl.
  destruct (isBookmarked item) as [[|]|]; simpl; repeat split; congruence.
Qed.

Lemma with_isDownloaded_flipped item :
  download_flipped item (with_isDownloaded (js_not (isDownloaded item)) item).
Proof.
  unfold download_flipped. simpl.
  destruct (isDownloaded item) as [[|]|]; simpl; repeat split; congruence.
Qed.

(** C10. [toggleBookmark] and [toggleDownload] keep the length and the
    order of the journal; an entry whose id differs is unchanged, and an
    entry whose id matches has its flag flipped (true becomes false,
    false or absent becomes true) and every other field unchanged. *)
Theorem toggles_frame (m : Model) (i : string) :
  (length (history (toggleBookmark i m)) = length (history m)
   /\ forall k item, history m !! k = Some item ->
      exists item', history (toggleBookmark i m) !! k = Some item'
        /\ ((id item <> i /\ item' = item)
            \/ (id item = i /\ bookmark_flipped item item')))
  /\ (length (history (toggleDownload i m)) = length (history m)
   /\ forall k item, history m !! k = Some item ->
      exists item', history (toggleDownload i m) !! k = Some item'
        /\ ((id item <> i /\ item' = item)
            \/ (id item = i /\ download_flipped item item'))).
Proof.
  split.
  - rewrite history_toggleBookmark.
    split; [apply length_map|].
    intros k item Hk. rewrite map_lookup_std, Hk. simpl.
    eexists; split; [reflexivity|].
    destruct (String.eqb_spec (id item) i) as [Heq|Hne]; [right|left; done].
    split; [done|]. apply with_isBookmarked_flipped.
  - rewrite history_toggleDownload.
    split; [apply length_map|].
    intros k item Hk. rewrite map_lookup_std, Hk. simpl.
    eexists; split; [reflexivity|].
    destruct (String.eqb_spec (id item) i) as [Heq|Hne]; [right|left; done].
    split; [done|]. apply with_isDownloaded_flipped.
Qed.

Lemma toggles_frame_witness :
  exists item',
    history (toggleBookmark "a"
               (toggleBookmark "a" (saveToHistory (sample "a") empty))) !! 0
    = Some item'
    /\ isBookmarked item' = Some false /\ isDownloaded item' = None
    /\ id item' = "a"%string.
Proof.
  destruct (toggles_frame (toggleBookmark "a" (saveToHistory (sample "a") empty)) "a")
    as [[_ Hframe] _].
  destruct (Hframe 0 (with_isBookmarked true (sample "a")))
    as (item' & Hk & [[Hne _]|[_ Hflip]]).
  - reflexivity.
  - exfalso. apply Hne. reflexivity.
  - exists item'. split; [exact Hk|].
    destruct Hflip as (Hb & _ & Hi & _ & _ & _ & _ & _ & _ & _ & Hd).
    split; [apply Hb; reflexivity|]. split; [exact Hd | exact Hi].
Defined.
End JournalFacts.

(** ** Discovery flow *)

Module DiscoveryFacts.
Import App Ledger.

(** [processLandmark] either completes the whole result or throws
    having changed nothing but the screen state. *)
Lemma processLandmark_all_or_nothing w info image m :
  match promise_all (related_settles_first w)
          (getLandmarkHistory w (name info))
          (getRelatedLandmarks w (name info) (or_empty (location info))) with
  | Resolved both =>
      let r := newResult w info image (fst both) (snd both) in
      processLandmark w info image m
        = (Resolved tt, setState RESULT (saveToHistory r (setResult (Some r) (setState SEARCHING m))))
  | Rejected e =>
      processLandmark w info image m = (Rejected e, setState SEARCHING m)
  end.
Proof.
  unfold processLandmark, bind, await, update.
  destruct (promise_all _ _ _) as [both|e]; reflexivity.
Qed.

Lemma promise_all_resolved {A B} first (p : outcome A) (q : outcome B) both :
  promise_all first p q = Resolved both <->
  p = Resolved (fst both) /\ q = Resolved (snd both).
Proof.
  destruct both as [a b]. destruct p, q; simpl; split;
    try intros [? ?]; try intros ?; try split; congruence.
Qed.

Lemma promise_all_rejected {A B} first (p : outcome A) (q : outcome B) :
  (exists e, p = Rejected e) \/ (exists e, q = Rejected e) ->
  exists e, promise_all first p q = Rejected e
    /\ (p = Rejected e \/ q = Rejected e).
Proof.
  intros [[e ->]|[e ->]].
  - destruct q as [b|e']; simpl; [eauto|].
    destruct first; eauto.
  - destruct p as [a|e']; simpl; [eauto|].
    destruct first; eauto.
Qed.

(** C8. The history call and the related-landmarks call are joined:
    when both succeed one result holding both answers is shown and
    saved; when either fails no result is shown, the journal and its
    stored copy are untouched, and one error message, that of a failed
    call, is shown. *)
Theorem joined_fetch_all_or_nothing (w : World) (image : string)
    (info : LandmarkInfo) (m : Model) :
  isOffline m = false ->
  identifyLandmark w image = Resolved info ->
  let h := getLandmarkHistory w (name info) in
  let rel := getRelatedLandmarks w (name info) (or_empty (location info)) in
  let m' := snd (handleCapture w image m) in
  fst (handleCapture w image m) = Resolved tt
  /\ (forall hd rd, h = Resolved hd -> rel = Resolved rd ->
      let r := newResult w info image hd rd in
      history_text r = text hd /\ sources r = data_sources hd
      /\ relatedLandmarks r = Some rd
      /\ result m' = Some r /\ history m' = upsert r (history m)
      /\ stored m' = Some (history m') /\ state m' = RESULT /\ error m' = None)
  /\ ((exists e, h = Rejected e) \/ (exists e, rel = Rejected e) ->
      result m' = result m /\ history m' = history m /\ stored m' = stored m
      /\ state m' = ERROR
      /\ exists e, (h = Rejected e \/ rel = Rejected e)
           /\ error m' = Some (surfaced e))
  /\ ((result m' <> result m \/ history m' <> history m \/ stored m' <> stored m) ->
      exists hd rd, h = Resolved hd /\ rel = Resolved rd).
Proof.
  intros Honline Hident h rel m'.
  pose proof (processLandmark_all_or_nothing w info image
    (setError None (setState IDENTIFYING (setCapturedImage (Some image) m)))) as Hproc.
  fold h rel in Hproc.
  assert (Hrun : handleCapture w image m =
    match promise_all (related_settles_first w) h rel with
    | Resolved both =>
        let r := newResult w info image (fst both) (snd both) in
        (Resolved tt, setState RESULT (saveToHistory r (setResult (Some r) (setState SEARCHING
          (setError None (setState IDENTIFYING (setCapturedImage (Some image) m)))))))
    | Rejected e =>
        (Resolved tt, setState ERROR (setError (Some (surfaced e)) (setState SEARCHING
          (setError None (setState IDENTIFYING (setCapturedImage (Some image) m))))))
    end).
  { unfold handleCapture. rewrite Honline.
    unfold bind at 1 2 3, update at 1 2 3, try_catch. 
    unfold bind at 1, await at 1. rewrite Hident.
    destruct (promise_all _ h rel) as [both|e]; rewrite Hproc; reflexivity. }
  assert (Hfail : (exists e, h = Rejected e) \/ (exists e, rel = Rejected e) ->
      result m' = result m /\ history m' = history m /\ stored m' = stored m
      /\ state m' = ERROR
      /\ exists e, (h = Rejected e \/ rel = Rejected e)
           /\ error m' = Some (surfaced e)).
  { intros Hrej.
    destruct (promise_all_rejected (related_settles_first w) h rel Hrej) as (e & He & Hwho).
    subst m'. rewrite Hrun, He. simpl. repeat split; eauto. }
  split; [|split; [|split]].
  - rewrite Hrun. by destruct (promise_all _ h rel).
  - intros hd rd Hh Hrel r. subst m'. rewrite Hrun, Hh, Hrel. simpl.
    repeat split; reflexivity.
  - exact Hfail.
  - intros Hchanged.
    destruct h as [hd|e] eqn:Hh; [destruct rel as [rd|e] eqn:Hrel|]; [eauto| |].
    + destruct Hfail as (? & ? & ? & _); [right; eauto|]. exfalso. intuition congruence.
    + destruct Hfail as (? & ? & ? & _); [left; eauto|]. exfalso. intuition congruence.
Qed.

Lemma joined_fetch_all_or_nothing_witness :
  history (snd (handleCapture history_down "img" empty)) = []
  /\ result (snd (handleCapture all_up "img" empty))
     = Some (newResult all_up sample_info "img"
               {| text := "## Origins"; data_sources := [] |} []).
Proof.
  split.
  - apply (joined_fetch_all_or_nothing history_down "img" sample_info empty);
      [reflexivity | reflexivity |].
    left. exists "503"%string. reflexivity.
  - apply (joined_fetch_all_or_nothing all_up "img" sample_info empty);
      reflexivity.
Defined.
End DiscoveryFacts.

(** ** Audio timing engine *)

Module EngineFacts.
Import Engine.
Local Open Scope Q_scope.

Lemma rate_positive speed : 0 < rate speed.
Proof. destruct speed; reflexivity. Qed.


Lemma clamp_range t d : 0 <= d -> 0 <= clamp t d /\ clamp t d <= d.
Proof.
  intros Hd. unfold clamp. split.
  - apply Q.le_max_l.
  - apply Q.max_lub; [done|]. apply Q.le_min_r.
Qed.

Lemma clamp_inside t d : 0 <= t -> t <= d -> clamp t d == t.
Proof.
  intros H0 Hd. unfold clamp.
  rewrite (Q.min_l t d) by done. by apply Q.max_r.
Qed.

Lemma Qle_bool_false a b : Qle_bool a b = false <-> b < a.
Proof.
  split.
  - intros H. apply Qnot_le_lt. intros Hle. apply Qle_bool_iff in Hle. congruence.
  - intros H. destruct (Qle_bool a b) eqn:E; [|done].
    apply Qle_bool_iff in E. lra.
Qed.

(** A clip is loaded: both refs are set. *)
Lemma playFromOffset_unloaded offset now p :
  audioBufferRef p = None \/ audioContextRef p = false ->
  playFromOffset offset now p = p.
Proof.
  unfold playFromOffset. intros [->| ->]; simpl; [done|].
  by rewrite orb_true_r.
Qed.


Ltac cases :=
  repeat match goal with
  | |- context [if ?b then _ else _] => destruct b eqn:?
  | |- context [match ?o with Some _ => _ | None => _ end] => destruct o eqn:?
  end; simpl in *.

Lemma playFromOffset_of_unloaded r offset now p :
  audioBufferRef p = None \/ audioContextRef p = false ->
  playFromOffset_of r offset now p = p.
Proof.
  unfold playFromOffset_of. intros [->| ->]; simpl; [done|].
  by rewrite orb_true_r.
Qed.

Lemma stopPlayback_sound p : sound p -> sound (stopPlayback p).
Proof.
  intros (Hplay & Hbuf & Hdur). unfold sound, stopPlayback.
  destruct (sourceNodeRef p); simpl; repeat split; auto; discriminate.
Qed.

Lemma contextCreated_sound p : sound p -> sound (contextCreated p).
Proof.
  intros (Hplay & Hbuf & Hdur). unfold sound, contextCreated.
  destruct (audioContextRef p) eqn:Hctx; simpl; repeat split; auto.
Qed.

Lemma narrationDecoded_sound r d now p :
  0 <= d -> audioContextRef p = true -> sound (narrationDecoded r d now p).
Proof.
  intros Hd Hctx. unfold sound, narrationDecoded, playFromOffset_of, stopPlayback.
  simpl. rewrite Hctx. simpl.
  destruct (sourceNodeRef p); simpl; repeat split; auto.
Qed.

Lemma handle_sound e now p : sound p -> sound (handle e now p).
Proof.
  intros (Hplay & Hbuf & Hdur).
  destruct p as [pl ct d sp ctx buf src st off n]. unfold sound in *. simpl in *.
  destruct e; simpl;
    unfold updateProgress, togglePlayback, skip, handleSeek,
      changePlaybackSpeed, playFromOffset, stopPlayback; simpl;
    cases; repeat split; simpl; intros; try discriminate; try tauto; try lra;
    destruct buf, ctx; simpl in *; try discriminate; auto.
Qed.

Lemma running_sound fetches p : running fetches p -> sound p.
Proof.
  induction 1 as [|fetches p _ IH|fetches p _ _ IH|before r after d now p Hd Hctx _ _
                 |before r after p _ IH|fetches e now p _ IH].
  - unfold sound. simpl. repeat split; discriminate.
  - by apply stopPlayback_sound.
  - by apply contextCreated_sound.
  - by apply narrationDecoded_sound.
  - exact IH.
  - by apply handle_sound.
Qed.

(** Playing implies loaded, and the duration is never negative. *)
Lemma reachable_invariant p :
  reachable p ->
  (isPlaying p = true ->
     is_some (audioBufferRef p) = true /\ audioContextRef p = true)
  /\ 0 <= duration p.
Proof.
  intros [fetches Hrun]. destruct (running_sound fetches p Hrun) as (Hplay & Hbuf & Hdur).
  split; [|done]. intros Hp. split; auto.
Qed.

(** While the first fetch is awaiting the decoder, and after the decoder
    has rejected, the context is there and the buffer is not. *)
Lemma reachable_awaiting :
  reachable (contextCreated mounted)
  /\ audioContextRef (contextCreated mounted) = true
  /\ audioBufferRef (contextCreated mounted) = None.
Proof.
  split; [|split; reflexivity].
  exists []. apply (run_failed [] (render_of mounted) []).
  apply run_context; [discriminate | apply run_mounted].
Qed.

Lemma reachable_loaded d now : 0 <= d -> reachable (loaded d now).
Proof.
  intros Hd. exists []. unfold loaded.
  apply (run_decoded [] (render_of mounted) [] d now); [done|reflexivity|].
  apply run_context; [discriminate | apply run_mounted].
Qed.

Lemma reachable_handle e now p : reachable p -> reachable (handle e now p).
Proof. intros [fetches Hrun]. exists fetches. by apply run_handle. Qed.

Lemma togglePlayback_unloaded now p :
  audioBufferRef p = None \/ audioContextRef p = false ->
  isPlaying p = false -> togglePlayback now p = p.
Proof.
  intros Hno Hidle. unfold togglePlayback. rewrite Hidle.
  destruct (Qle_bool _ _); by apply playFromOffset_unloaded.
Qed.

Lemma reachable_unloaded_idle p :
  reachable p -> audioBufferRef p = None \/ audioContextRef p = false ->
  isPlaying p = false.
Proof.
  intros Hreach Hno. destruct (isPlaying p) eqn:Hp; [|done].
  destruct (reachable_invariant p Hreach) as [Hinv _].
  destruct (Hinv Hp) as [Hbuf Hctx].
  destruct Hno as [Hno|Hno]; [rewrite Hno in Hbuf|]; simpl in *; congruence.
Qed.

(** C9. As long as no clip has been decoded (buffer ref or context ref
    empty; also while the decoder is awaited or after it has rejected,
    when only the buffer is missing), [playFromOffset], of the current
    render or of the render of an effect, changes nothing, and neither
    does [togglePlayback] when the engine is not playing: no source is
    created, [isPlaying] stays false and the position stays where it
    was.  In every state the component can reach without a clip the
    engine is not playing, so there play can never reach the branch that
    starts playback. *)
Theorem play_before_load_is_noop (p : Player) (offset now : Q) :
  audioBufferRef p = None \/ audioContextRef p = false ->
  playFromOffset offset now p = p
  /\ (forall r, playFromOffset_of r offset now p = p)
  /\ (isPlaying p = false ->
      togglePlayback now p = p
      /\ created (togglePlayback now p) = created p
      /\ sourceNodeRef (togglePlayback now p) = sourceNodeRef p
      /\ isPlaying (togglePlayback now p) = false
      /\ currentTime (togglePlayback now p) = currentTime p)
  /\ (reachable p ->
      isPlaying p = false
      /\ togglePlayback now p = p
      /\ created (togglePlayback now p) = created p
      /\ isPlaying (togglePlayback now p) = false
      /\ currentTime (togglePlayback now p) = currentTime p).
Proof.
  intros Hno.
  split; [by apply playFromOffset_unloaded|].
  split; [intros r; by apply playFromOffset_of_unloaded|].
  split.
  - intros Hidle. rewrite (togglePlayback_unloaded now p Hno Hidle).
    repeat split; done.
  - intros Hreach. pose proof (reachable_unloaded_idle p Hreach Hno) as Hidle.
    rewrite (togglePlayback_unloaded now p Hno Hidle). repeat split; done.
Qed.

Lemma play_before_load_is_noop_witness :
  isPlaying (contextCreated mounted) = false
  /\ togglePlayback 7 (contextCreated mounted) = contextCreated mounted.
Proof.
  destruct (play_before_load_is_noop (contextCreated mounted) 0 7)
    as (_ & _ & _ & Hreach).
  - left. reflexivity.
  - destruct Hreach as (Hidle & Htoggle & _).
    + apply reachable_awaiting.
    + split; [exact Hidle | exact Htoggle].
Defined.

Lemma handleSeek_paused newTime now p :
  isPlaying p = false ->
  handleSeek newTime now p = set_offsetRef newTime (setCurrentTime newTime p).
Proof. unfold handleSeek. by intros ->. Qed.

Lemma playFromOffset_loaded offset now p :
  is_some (audioBufferRef p) = true -> audioContextRef p = true ->
  playFromOffset offset now p =
    {| isPlaying := true; currentTime := clamp offset (duration p);
       duration := duration p; playbackSpeed := playbackSpeed p;
       audioContextRef := true; audioBufferRef := audioBufferRef p;
       sourceNodeRef := Some {| playbackRate := rate (playbackSpeed p);
                                startedAt := clamp offset (duration p) |};
       startTimeRef := now; offsetRef := clamp offset (duration p);
       created := S (created p) |}.
Proof.
  intros Hbuf Hctx. unfold playFromOffset. rewrite Hbuf, Hctx. simpl.
  destruct p as [pl ct d sp ctx buf src st off n]. simpl in *. subst ctx.
  unfold stopPlayback. simpl. by destruct src.
Qed.

Lemma handleSeek_playing newTime now p :
  isPlaying p = true ->
  is_some (audioBufferRef p) = true -> audioContextRef p = true ->
  offsetRef (handleSeek newTime now p) = clamp newTime (duration p)
  /\ currentTime (handleSeek newTime now p) = clamp newTime (duration p).
Proof.
  intros Hp Hbuf Hctx. unfold handleSeek. rewrite Hp.
  rewrite playFromOffset_loaded by done. by split.
Qed.

(** C4. Where the claim fails: on a freshly mounted player (paused, no
    clip yet, duration 0; the slider runs from 0 to 100 then) a seek to
    50 stores 50 as offset and as position, where the target clamped to
    [0, duration] is 0.  In the same state [skip] clamps, and on a
    playing 30-second clip the same seek is clamped to 30. *)
Theorem handleSeek_paused_not_clamped :
  reachable mounted /\ isPlaying mounted = false /\ duration mounted == 0
  /\ offsetRef (handleSeek 50 0 mounted) == 50
  /\ currentTime (handleSeek 50 0 mounted) == 50
  /\ clamp 50 (duration mounted) == 0
  /\ ~ (offsetRef (handleSeek 50 0 mounted) == clamp 50 (duration mounted))
  /\ offsetRef (skip 60 0 mounted) == 0
  /\ currentTime (skip 60 0 mounted) == 0
  /\ isPlaying (loaded 30 0) = true
  /\ offsetRef (handleSeek 50 5 (loaded 30 0)) == 30.
Proof.
  split; [exists [render_of mounted]; apply run_mounted|].
  repeat (split; [vm_compute; reflexivity|]).
  split; [vm_compute; discriminate|].
  repeat split; vm_compute; reflexivity.
Qed.

(** The position the engine computes for the clock reading [now]. *)
Lemma updateProgress_playing now p :
  isPlaying p = true -> audioContextRef p = true ->
  let current := (now - startTimeRef p) * rate (playbackSpeed p) + offsetRef p in
  updateProgress now p =
    if Qle_bool (duration p) current
    then setCurrentTime (duration p) (setIsPlaying false (setCurrentTime current p))
    else setCurrentTime current p.
Proof. intros Hp Hctx. unfold updateProgress. by rewrite Hp, Hctx. Qed.

Lemma updateProgress_idle now p :
  isPlaying p = false -> updateProgress now p = p.
Proof. intros Hp. unfold updateProgress. by rewrite Hp. Qed.

Lemma scaled_le a b r : 0 < r -> a <= b -> a * r <= b * r.
Proof. intros Hr Hab. apply Qmult_le_compat_r; [done|]. by apply Qlt_le_weak. Qed.

(** Two frames in a row. *)
Lemma two_frames now1 now2 p :
  now1 <= now2 ->
  currentTime (updateProgress now1 p)
    <= currentTime (updateProgress now2 (updateProgress now1 p)).
Proof.
  intros Hclock.
  destruct (isPlaying p && audioContextRef p) eqn:Hrun.
  - apply andb_true_iff in Hrun as [Hp Hctx].
    rewrite (updateProgress_playing now1 p Hp Hctx). simpl.
    destruct (Qle_bool _ _) eqn:Hend1.
    + rewrite updateProgress_idle by done. apply Qle_refl.
    + rewrite updateProgress_playing by done. simpl.
      apply Qle_bool_false in Hend1.
      destruct (Qle_bool _ _) eqn:Hend2; simpl.
      * by apply Qlt_le_weak.
      * pose proof (scaled_le (now1 - startTimeRef p) (now2 - startTimeRef p)
          (rate (playbackSpeed p)) (rate_positive _)) as Hle.
        lapply Hle; [lra|lra].
  - unfold updateProgress. rewrite Hrun. simpl. rewrite Hrun. apply Qle_refl.
Qed.

Lemma positions_ascending clock p :
  ascending clock -> ascending (positions clock p).
Proof.
  revert p. induction clock as [|now1 clock IH]; intros p Hasc; [done|].
  destruct clock as [|now2 clock]; [done|].
  destruct Hasc as [Hle Hasc].
  change (currentTime (updateProgress now1 p)
            <= currentTime (updateProgress now2 (updateProgress now1 p))
          /\ ascending (positions (now2 :: clock) (updateProgress now1 p))).
  split; [by apply two_frames | by apply IH].
Qed.

(** C6. The positions produced by successive animation frames at
    non-decreasing clock readings are non-decreasing (every playback
    speed is positive); and the frame at which the computed position
    reaches the duration stops playback and shows exactly the duration. *)
Theorem frames_monotone_and_end (p : Player) :
  (forall speed, 0 <= rate speed)
  /\ (forall clock, ascending clock -> ascending (positions clock p))
  /\ (forall now, isPlaying p = true -> audioContextRef p = true ->
        let current := (now - startTimeRef p) * rate (playbackSpeed p) + offsetRef p in
        (duration p <= current ->
           isPlaying (updateProgress now p) = false
           /\ currentTime (updateProgress now p) = duration p)
        /\ (current < duration p ->
           isPlaying (updateProgress now p) = true
           /\ currentTime (updateProgress now p) = current)).
Proof.
  split; [intros speed; apply Qlt_le_weak, rate_positive|].
  split; [intros clock; apply positions_ascending|].
  - intros now Hp Hctx. simpl. rewrite updateProgress_playing by done. simpl.
    split; intros Hcmp.
    + apply Qle_bool_iff in Hcmp. by rewrite Hcmp.
    + apply Qle_bool_false in Hcmp. by rewrite Hcmp.
Qed.

Lemma frames_monotone_and_end_witness :
  ascending (positions [1; 2; 2; 40] (loaded 30 0))
  /\ isPlaying (updateProgress 40 (loaded 30 0)) = false
  /\ currentTime (updateProgress 40 (loaded 30 0)) = 30.
Proof.
  destruct (frames_monotone_and_end (loaded 30 0))
    as (_ & Hmono & Hend).
  split.
  - apply Hmono. vm_compute. repeat split; discriminate.
  - apply (Hend 40); [reflexivity | reflexivity |]. vm_compute. discriminate.
Defined.

Lemma changePlaybackSpeed_position speed now p :
  currentTime (changePlaybackSpeed speed now p) = currentTime p.
Proof.
  unfold changePlaybackSpeed. destruct (speed_eqb _ _); [done|].
  simpl. destruct (sourceNodeRef p); [destruct (isPlaying p)|]; reflexivity.
Qed.

(** What a speed change leaves behind when a context exists. *)
Lemma changePlaybackSpeed_anchor speed now p :
  speed_eqb (playbackSpeed p) speed = false -> audioContextRef p = true ->
  let p' := changePlaybackSpeed speed now p in
  startTimeRef p' = now /\ offsetRef p' = currentTime p
  /\ playbackSpeed p' = speed /\ isPlaying p' = isPlaying p
  /\ audioContextRef p' = true /\ duration p' = duration p.
Proof.
  intros Hne Hctx. unfold changePlaybackSpeed. rewrite Hne, Hctx. simpl.
  destruct (sourceNodeRef p); [destruct (isPlaying p) eqn:Hp|]; simpl;
    repeat split; auto.
Qed.

Lemma Qle_bool_proper a b b' : b == b' -> Qle_bool a b = Qle_bool a b'.
Proof.
  intros Heq. destruct (Qle_bool a b') eqn:E.
  - apply Qle_bool_iff. apply Qle_bool_iff in E. lra.
  - apply Qle_bool_false. apply Qle_bool_false in E. lra.
Qed.

(** A frame right after a speed change, at a clock reading [later] not
    before the change. *)
Lemma frame_after_speed_change speed now later p :
  speed_eqb (playbackSpeed p) speed = false ->
  isPlaying p = true -> audioContextRef p = true ->
  currentTime p < duration p -> now <= later ->
  let p' := updateProgress later (changePlaybackSpeed speed now p) in
  currentTime p <= currentTime p'
  /\ (later == now -> currentTime p' == currentTime p).
Proof.
  intros Hne Hp Hctx Hlt Hlater.
  destruct (changePlaybackSpeed_anchor speed now p Hne Hctx)
    as (Hst & Hoff & Hsp & Hpl & Hctx' & Hd).
  simpl. rewrite updateProgress_playing by congruence. simpl.
  rewrite Hst, Hoff, Hsp, Hd.
  pose proof (scaled_le 0 (later - now) (rate speed) (rate_positive _)) as Hle.
  destruct (Qle_bool _ _) eqn:Hend; simpl.
  - split; [lra|]. intros Heq.
    apply Qle_bool_iff in Hend. rewrite Heq in Hend. lra.
  - split; [lapply Hle; lra|]. intros Heq. rewrite Heq. lra.
Qed.

Lemma changePlaybackSpeed_running speed now p :
  isPlaying (changePlaybackSpeed speed now p) = isPlaying p
  /\ audioContextRef (changePlaybackSpeed speed now p) = audioContextRef p.
Proof.
  unfold changePlaybackSpeed. destruct (speed_eqb _ _); [done|].
  simpl. destruct (sourceNodeRef p); [destruct (isPlaying p) eqn:Hp|]; simpl; auto.
Qed.

(** A player that is still running after a frame has not reached the
    end of the clip. *)
Lemma running_after_frame now p :
  isPlaying (updateProgress now p) = true ->
  audioContextRef (updateProgress now p) = true ->
  currentTime (updateProgress now p) < duration (updateProgress now p).
Proof.
  unfold updateProgress.
  destruct (isPlaying p && audioContextRef p) eqn:Hrun.
  - destruct (Qle_bool _ _) eqn:Hend; simpl; [discriminate|].
    intros _ _. by apply Qle_bool_false.
  - intros Hp Hctx. rewrite Hp, Hctx in Hrun. discriminate.
Qed.

Lemma frame_twice now p :
  currentTime (updateProgress now (updateProgress now p))
    = currentTime (updateProgress now p).
Proof.
  destruct (isPlaying p && audioContextRef p) eqn:Hrun.
  - apply andb_true_iff in Hrun as [Hp Hctx].
    rewrite (updateProgress_playing now p Hp Hctx). simpl.
    destruct (Qle_bool _ _) eqn:Hend.
    + by rewrite updateProgress_idle.
    + rewrite updateProgress_playing by done. simpl. by rewrite Hend.
  - unfold updateProgress. rewrite Hrun. simpl. by rewrite Hrun.
Qed.

Lemma frame_after_change now later speed p :
  now <= later ->
  let q := updateProgress now p in
  let q' := updateProgress later (changePlaybackSpeed speed now q) in
  currentTime q <= currentTime q'
  /\ (later == now -> currentTime q' == currentTime q).
Proof.
  intros Hlater q q'. subst q'.
  destruct (changePlaybackSpeed_running speed now q) as [Hpl Hcx].
  destruct (isPlaying q && audioContextRef q) eqn:Hrun.
  - apply andb_true_iff in Hrun as [Hp Hctx].
    destruct (speed_eqb (playbackSpeed q) speed) eqn:Hsame.
    + unfold changePlaybackSpeed. rewrite Hsame. split.
      * by apply two_frames.
      * intros Heq. unfold q in *.
        pose proof (frame_twice now p) as Htw.
        rewrite (updateProgress_playing later) by done.
        rewrite (updateProgress_playing now (updateProgress now p)) in Htw by done.
        simpl in *.
        rewrite (Qle_bool_proper _ _
          ((now - startTimeRef (updateProgress now p))
             * rate (playbackSpeed (updateProgress now p))
           + offsetRef (updateProgress now p))) by (rewrite Heq; reflexivity).
        destruct (Qle_bool _ _); simpl in *; [by rewrite Htw|].
        rewrite <- Htw. rewrite Heq. reflexivity.
    + apply frame_after_speed_change; try done.
      by apply running_after_frame.
  - unfold updateProgress at 1 2. rewrite Hpl, Hcx, Hrun.
    rewrite changePlaybackSpeed_position. split; [apply Qle_refl|reflexivity].
Qed.


(** The position a frame computes while the clip has not ended. *)
Lemma frame_shows now p :
  isPlaying p = true -> audioContextRef p = true ->
  (now - startTimeRef p) * rate (playbackSpeed p) + offsetRef p < duration p ->
  currentTime (updateProgress now p)
  = (now - startTimeRef p) * rate (playbackSpeed p) + offsetRef p.
Proof.
  intros Hp Hctx Hlt. rewrite updateProgress_playing by done. cbv zeta.
  apply Qle_bool_false in Hlt. by rewrite Hlt.
Qed.






End EngineFacts.

(** ** Splitting on header markers *)

Module SplitFacts.
Import Js Prose.
Local Open Scope string_scope.

Section Generic.
Variable sep : string -> nat.

Lemma split_from_nonempty k s : split_from sep k s <> [].
Proof.
  revert k. induction s as [|c s IH]; intros k; simpl; [done|].
  destruct k; [|apply IH].
  destruct (sep _); [|done].
  specialize (IH 0). by destruct (split_from sep 0 s).
Qed.

Lemma split_from_length k s :
  length (split_from sep k s) = S (length (seps_from sep k s)).
Proof.
  revert k. induction s as [|c s IH]; intros k; simpl; [done|].
  destruct k; [|apply IH].
  destruct (sep _); simpl; [|by rewrite IH].
  rewrite <- IH. pose proof (split_from_nonempty 0 s).
  by destruct (split_from sep 0 s).
Qed.

Lemma take_drop n s : (take n s ++ drop n s)%string = s.
Proof.
  revert n. induction s as [|c s IH]; intros [|n]; try reflexivity.
  change (String c (take n s ++ drop n s)%string = String c s).
  by rewrite IH.
Qed.

Lemma interleave_extend c ps ms :
  ps <> [] -> interleave (extend c ps) ms = String c (interleave ps ms).
Proof. destruct ps as [|p ps]; [done|]. intros _. by destruct ms. Qed.

(** The pieces and the separators between them give the text back. *)
Lemma split_from_interleave k s :
  interleave (split_from sep k s) (seps_from sep k s) = drop k s.
Proof.
  revert k. induction s as [|c s IH]; intros k; simpl.
  - by destruct k.
  - destruct k; [|apply IH].
    destruct (sep (String c s)) as [|k] eqn:Hsep.
    + rewrite interleave_extend by apply split_from_nonempty.
      by rewrite IH.
    + cbn [interleave]. rewrite IH. apply (take_drop (S k) (String c s)).
Qed.
End Generic.

Lemma space_not_hash c : is_space c = true -> Ascii.eqb "#" c = false.
Proof.
  intros Hsp. destruct (Ascii.eqb_spec "#"%char c) as [<-|]; [|done].
  discriminate.
Qed.

Lemma header_sep_marker s :
  header_sep s = if marker_at s then 2 + spaces (drop 2 s) else 0.
Proof.
  unfold header_sep, marker_at. destruct (starts_with "##" s); [|reflexivity].
  cbn [andb]. destruct (drop 2 s) as [|c t]; [reflexivity|]. cbn [spaces].
  destruct (is_space c); reflexivity.
Qed.

Lemma marker_at_spaces s : marker_at s = true -> 0 < spaces (drop 2 s).
Proof.
  unfold marker_at. intros [_ H]%andb_true_iff.
  destruct (drop 2 s) as [|c t]; [done|]. simpl. rewrite H. lia.
Qed.

Lemma spaces_prefix j r :
  j < spaces r -> exists c t, drop j r = String c t /\ is_space c = true.
Proof.
  revert j. induction r as [|c r IH]; intros j; cbn [spaces]; [lia|].
  destruct (is_space c) eqn:Hc; [|lia].
  destruct j as [|j]; cbn [drop]; [eauto|]. intros Hj. apply IH. lia.
Qed.

Lemma marker_at_starts c t :
  is_space c = true -> marker_at (String c t) = false.
Proof.
  intros Hsp. unfold marker_at. cbn [starts_with].
  by rewrite (space_not_hash c Hsp).
Qed.

Lemma marker_at_second c1 c2 t :
  is_space c2 = true -> marker_at (String c1 (String c2 t)) = false.
Proof.
  intros Hsp. unfold marker_at. cbn [starts_with].
  rewrite (space_not_hash c2 Hsp). by rewrite andb_false_r.
Qed.

(** Inside a header marker no other marker starts. *)
Lemma no_marker_inside c t j :
  marker_at (String c t) = true ->
  j < 1 + spaces (drop 2 (String c t)) ->
  marker_at (drop j t) = false.
Proof.
  intros Hm Hj. pose proof (marker_at_spaces _ Hm) as Hpos.
  destruct t as [|c2 r]; [by destruct j|].
  cbn [drop] in Hj, Hpos.
  destruct j as [|j]; cbn [drop].
  - destruct (spaces_prefix 0 r Hpos) as (c3 & t3 & Hr & Hsp).
    cbn [drop] in Hr. subst r. by apply marker_at_second.
  - destruct (spaces_prefix j r) as (c3 & t3 & Hr & Hsp); [lia|].
    rewrite Hr. by apply marker_at_starts.
Qed.

Lemma separators_count_from k s :
  (forall j, j < k -> marker_at (drop j s) = false) ->
  length (seps_from header_sep k s) = count_markers s.
Proof.
  revert k. induction s as [|c s IH]; intros k Hfree; [done|].
  cbn [seps_from count_markers].
  destruct k as [|k].
  - rewrite header_sep_marker. destruct (marker_at (String c s)) eqn:Hm.
    + cbn [Nat.add length]. f_equal. apply IH. intros j Hj.
      apply (no_marker_inside c s j Hm). lia.
    + apply (IH 0). intros j Hj. lia.
  - pose proof (Hfree 0 ltac:(lia)) as H0. cbn [drop] in H0. rewrite H0.
    apply IH. intros j Hj. apply (Hfree (S j)). lia.
Qed.

(** [split] finds as many separators as there are header markers. *)
Lemma separators_count s :
  length (separators header_sep s) = count_markers s.
Proof. apply separators_count_from. intros j Hj. lia. Qed.

Lemma split_head_leading s :
  head (split header_sep s) = Some (leading_text s).
Proof.
  unfold split. induction s as [|c s IH]; [done|].
  cbn [split_from leading_text]. rewrite header_sep_marker.
  destruct (marker_at (String c s)); [done|].
  pose proof (split_from_nonempty header_sep 0 s).
  destruct (split_from header_sep 0 s); [done|].
  simpl in *. congruence.
Qed.

Lemma spaces_take r : spaces (take (spaces r) r) = spaces r.
Proof.
  induction r as [|c r IH]; [done|]. cbn [spaces].
  destruct (is_space c) eqn:Hc; [|done].
  cbn [take spaces]. by rewrite Hc, IH.
Qed.

Lemma length_take_spaces r : String.length (take (spaces r) r) = spaces r.
Proof.
  induction r as [|c r IH]; [done|]. cbn [spaces].
  destruct (is_space c); [|done]. cbn [take String.length]. by rewrite IH.
Qed.

Lemma marker_taken s :
  marker_at s = true -> is_marker (take (2 + spaces (drop 2 s)) s).
Proof.
  intros Hm. pose proof (marker_at_spaces s Hm) as Hpos.
  unfold marker_at in Hm. apply andb_true_iff in Hm as [Hhash _].
  destruct s as [|c1 [|c2 r]]; [cbn in Hpos; lia .. |].
  cbn [drop] in *. cbn [Nat.add take]. unfold is_marker. cbn [drop].
  rewrite spaces_take. cbn [String.length]. rewrite length_take_spaces.
  split; [|split; [done|lia]].
  cbn [starts_with] in *. exact Hhash.
Qed.

Lemma seps_are_markers k s : Forall is_marker (seps_from header_sep k s).
Proof.
  revert k. induction s as [|c s IH]; intros k; cbn [seps_from]; [constructor|].
  destruct k; [|apply IH].
  destruct (header_sep (String c s)) as [|n] eqn:Hsep; [apply IH|].
  constructor; [|apply IH].
  rewrite header_sep_marker in Hsep.
  destruct (marker_at (String c s)) eqn:Hm; [|discriminate].
  rewrite <- Hsep. by apply marker_taken.
Qed.
End SplitFacts.

Module ParserFacts.
Import Js Prose Narrative SplitFacts.

Lemma header_section_total chunk : is_Some (header_section chunk).
Proof.
  unfold header_section, elem0, split_lines, split.
  pose proof (split_from_nonempty newline_sep 0 chunk).
  destruct (split_from newline_sep 0 chunk); [done|]. simpl. eauto.
Qed.

Lemma intro_sections_total raw0 :
  exists intro, intro_sections raw0 = Some intro
    /\ length intro = if truthy (trim raw0) then 1 else 0.
Proof.
  unfold intro_sections, elem0, split_lines, split.
  destruct (truthy (trim raw0)); [|by eexists].
  pose proof (split_from_nonempty newline_sep 0 (trim raw0)).
  destruct (split_from newline_sep 0 (trim raw0)); [done|]. simpl. by eexists.
Qed.

(** C7, amended. The parser never fails.  For a text with [n] header
    markers it returns [n] sections, plus one when the text before the
    first marker has a non-whitespace character; the sections come in
    source order: the text is the leading text followed by marker and
    chunk in turn, an optional introduction is made from the leading
    text and the k-th further section from the k-th chunk.  The result
    is a function of the text, and the empty text has no section. *)
Theorem sections_count_and_order (history : string) :
  exists secs intro rest chunks markers,
    sections history = Some secs
    /\ length secs
       = count_markers history
         + (if truthy (trim (leading_text history)) then 1 else 0)
    /\ length chunks = count_markers history
    /\ length markers = count_markers history
    /\ Forall is_marker markers
    /\ interleave (leading_text history :: chunks) markers = history
    /\ secs = intro ++ rest
    /\ intro_sections (leading_text history) = Some intro
    /\ Forall2 (fun chunk sec => header_section chunk = Some sec) chunks rest
    /\ (forall secs', sections history = Some secs' -> secs' = secs)
    /\ sections ""%string = Some [].
Proof.
  pose proof (split_head_leading history) as Hhead.
  pose proof (split_from_length header_sep 0 history) as Hlen.
  pose proof (split_from_interleave header_sep 0 history) as Hsrc.
  pose proof (seps_are_markers 0 history) as Hmark.
  pose proof (separators_count history) as Hcount.
  unfold split, separators in *.
  destruct (split_from header_sep 0 history) as [|raw0 chunks] eqn:Hraw;
    [discriminate|].
  injection Hhead as ->.
  destruct (intro_sections_total (leading_text history)) as (intro & Hintro & Hil).
  destruct (mapM_is_Some_2 header_section chunks) as [rest Hrest].
  { apply Forall_forall. intros chunk _. apply header_section_total. }
  assert (Hsec : sections history = Some (intro ++ rest)).
  { unfold sections, split. rewrite Hraw. simpl. rewrite Hintro. simpl.
    by rewrite Hrest. }
  exists (intro ++ rest), intro, rest, chunks, (seps_from header_sep 0 history).
  apply mapM_Some_1 in Hrest as Hall.
  simpl in Hlen.
  repeat split; try done.
  - rewrite length_app, Hil, <- (Forall2_length _ _ _ Hall). lia.
  - lia.
  - intros secs'. rewrite Hsec. congruence.
Qed.

(** C7 as stated fails: a text whose leading text is a single space is
    not empty before its first marker, yet gets no introduction. *)
Lemma blank_leading_text_gets_no_section :
  let history := " ## A"%string in
  leading_text history <> ""%string
  /\ count_markers history = 1
  /\ exists secs, sections history = Some secs /\ length secs <> 1 + 1.
Proof.
  split; [vm_compute; discriminate|]. split; [reflexivity|].
  eexists. split; [vm_compute; reflexivity|]. simpl. lia.
Qed.
End ParserFacts.

(** ** Fact extractor *)

Module ExtractorFacts.
Import Js Prose Narrative.

Lemma take4_four c1 c2 c3 c4 rest :
  take 4 (String c1 (String c2 (String c3 (String c4 rest))))
  = String c1 (String c2 (String c3 (String c4 ""))).
Proof. reflexivity. Qed.

Lemma digit_code c : is_digit c = true -> 48 <= code c <= 57.
Proof.
  unfold is_digit. intros [H1 H2]%andb_true_iff.
  apply Nat.leb_le in H1, H2. lia.
Qed.

(** What the year pattern accepts. *)
Lemma year_here_token s :
  year_here s = true ->
  is_year (take 4 s) /\ 1000 <= parseInt (take 4 s) <= 2099.
Proof.
  destruct s as [|c1 [|c2 [|c3 [|c4 rest]]]]; try discriminate.
  rewrite take4_four. unfold year_here.
  intros [Hpat _]%andb_true_iff.
  assert (Hd : is_digit c1 = true /\ is_digit c2 = true
               /\ is_digit c3 = true /\ is_digit c4 = true
               /\ (code c1 = 49 \/ code c1 = 50 /\ code c2 = 48)).
  { apply orb_true_iff in Hpat as [H|H];
      repeat (apply andb_true_iff in H as [H ?]);
      apply Ascii.eqb_eq in H; subst c1.
    - repeat split; auto.
    - match goal with E : Ascii.eqb c2 _ = true |- _ => apply Ascii.eqb_eq in E; subst c2 end.
      repeat split; auto. }
  destruct Hd as (H1 & H2 & H3 & H4 & Hrange).
  split.
  - split; [reflexivity|]. unfold match_year. cbn [year_from negb andb].
    unfold year_here. rewrite Hpat. reflexivity.
  - unfold parseInt. cbn [digits_value]. rewrite H1, H2, H3, H4.
    apply digit_code in H1, H2, H3, H4. lia.
Qed.

Lemma year_from_token prev s m :
  year_from prev s = Some m ->
  is_year m /\ 1000 <= parseInt m <= 2099.
Proof.
  revert prev. induction s as [|c s IH]; intros prev; [discriminate|].
  cbn [year_from].
  destruct (negb prev && year_here (String c s)) eqn:Hhere.
  - intros Heq. clear IH. apply andb_true_iff in Hhere as [_ Hhere].
    assert (m = take 4 (String c s)) as -> by congruence.
    exact (year_here_token (String c s) Hhere).
  - apply IH.
Qed.

(** An invariant of the state is kept by [forEach] when every call of
    the callback, on an element of the array at its index, keeps it. *)
Lemma forEach_from_invariant {A St} (P : St -> Prop)
    (f : A -> nat -> St -> St) (all : list A) l i st :
  (forall j a st, all !! j = Some a -> P st -> P (f a j st)) ->
  (forall j a, l !! j = Some a -> all !! (i + j) = Some a) ->
  P st -> P (forEach_from f i l st).
Proof.
  intros Hstep. revert i st. induction l as [|a l IH]; intros i st Hidx Hst; [done|].
  cbn [forEach_from]. apply IH.
  - intros j b Hj. replace (S i + j) with (i + S j) by lia. by apply Hidx.
  - apply Hstep; [|done]. rewrite <- (Nat.add_0_r i). by apply Hidx.
Qed.

Lemma forEach_invariant {A St} (P : St -> Prop)
    (f : A -> nat -> St -> St) l st :
  (forall j a st, l !! j = Some a -> P st -> P (f a j st)) ->
  P st -> P (forEach f l st).
Proof.
  intros Hstep Hst. unfold forEach.
  by apply (forEach_from_invariant P f l l 0 st).
Qed.

(** Two runs of [forEach] whose callbacks keep a relation between their
    states end in related states. *)
Lemma forEach_from_related {A S1 S2} (R : S1 -> S2 -> Prop)
    (f : A -> nat -> S1 -> S1) (g : A -> nat -> S2 -> S2) l i s1 s2 :
  (forall a j s1 s2, R s1 s2 -> R (f a j s1) (g a j s2)) ->
  R s1 s2 -> R (forEach_from f i l s1) (forEach_from g i l s2).
Proof.
  intros Hstep. revert i s1 s2.
  induction l as [|a l IH]; intros i s1 s2 Hrel; [done|].
  cbn [forEach_from]. apply IH. by apply Hstep.
Qed.

Section Runs.
Variable random : nat -> Q.
Variable sections : list HistorySection.

Lemma visit_sentence_kept sIdx section s idx st :
  sections !! sIdx = Some section ->
  In s (split sentence_sep (content section)) ->
  kept sections st -> kept sections (visit_sentence random sIdx s idx st).
Proof.
  intros Hsec Hin [Hlen Hall]. destruct st as [nodes k].
  unfold visit_sentence. cbn [fst] in *.
  destruct (match_year s) as [m0|] eqn:Hyear; [|by split].
  destruct (length nodes <? 8) eqn:Hroom; [|by split].
  apply Nat.ltb_lt in Hroom. split; cbn [fst].
  - rewrite length_app. simpl. lia.
  - apply Forall_app. split; [done|]. apply Forall_singleton.
    destruct (year_from_token false s m0 Hyear) as [Hy Hrange].
    split; [done|]. split; [done|].
    exists section, s. by repeat split.
Qed.

Lemma visit_section_kept section sIdx st :
  sections !! sIdx = Some section ->
  kept sections st -> kept sections (visit_section random section sIdx st).
Proof.
  intros Hsec Hst. unfold visit_section.
  apply forEach_invariant; [|done].
  intros idx s st' Hidx Hst'. apply visit_sentence_kept with section; try done.
  apply list_elem_of_In. by eapply list_elem_of_lookup_2.
Qed.

Lemma arFactNodes_kept :
  length (arFactNodes random sections) <= 8
  /\ Forall (extracted_from sections) (arFactNodes random sections).
Proof.
  unfold arFactNodes.
  apply (forEach_invariant (kept sections) (visit_section random) sections ([], 0)).
  - intros sIdx section st Hsec Hst. by apply visit_section_kept.
  - split; [simpl; lia|constructor].
Qed.
End Runs.

(** The accumulators of two runs hold the same facts. *)
Lemma visit_sentence_same_facts r1 r2 sIdx s idx (st1 st2 : acc) :
  List.map facts (fst st1) = List.map facts (fst st2) ->
  List.map facts (fst (visit_sentence r1 sIdx s idx st1))
  = List.map facts (fst (visit_sentence r2 sIdx s idx st2)).
Proof.
  destruct st1 as [n1 k1], st2 as [n2 k2]. cbn [fst]. intros Heq.
  assert (Hlen : length n1 = length n2).
  { by rewrite <- (length_map facts n1), Heq, length_map. }
  unfold visit_sentence. rewrite Hlen.
  destruct (match_year s); [|done].
  destruct (length n2 <? 8); [|done].
  cbn [fst]. rewrite !map_app, Heq. reflexivity.
Qed.

Lemma arFactNodes_same_facts r1 r2 sections :
  List.map facts (arFactNodes r1 sections)
  = List.map facts (arFactNodes r2 sections).
Proof.
  unfold arFactNodes, forEach.
  apply (forEach_from_related
    (fun st1 st2 : acc => List.map facts (fst st1) = List.map facts (fst st2)));
    [|done].
  intros section sIdx st1 st2 Hrel. unfold visit_section, forEach.
  apply (forEach_from_related
    (fun st1 st2 : acc => List.map facts (fst st1) = List.map facts (fst st2)));
    [|done].
  intros s idx st1' st2' Hrel'. by apply visit_sentence_same_facts.
Qed.

(** The four assignments amount to: the last rule that fires wins. *)
Lemma classify_last_rule s : classify s = classify_last_wins s.
Proof.
  unfold classify, classify_last_wins, first_match, fires.
  generalize (toLowerCase s). intros l.
  cbn [List.find existsb fst snd royal_era modernization conflict architecture general].
  repeat match goal with
  | |- context [includes l ?k] => destruct (includes l k); cbn [orb]
  end; reflexivity.
Qed.

(** C2, amended. The extractor returns at most 8 nodes; the year of each
    is a whole match of the year pattern, a token in 1000..2099; the
    theme of each is computed from its sentence alone and the facts of
    the nodes do not depend on the random coordinates; the theme is
    chosen by keyword presence, the last rule that fires in the order
    architecture, conflict, modernization, royal era winning, and
    General History when none fires. *)
Theorem arFactNodes_bounded_and_themed (random : nat -> Q)
    (sections : list HistorySection) :
  length (arFactNodes random sections) <= 8
  /\ Forall (extracted_from sections) (arFactNodes random sections)
  /\ (forall random',
      List.map facts (arFactNodes random' sections)
      = List.map facts (arFactNodes random sections))
  /\ (forall sentence, classify sentence = classify_last_wins sentence).
Proof.
  destruct (arFactNodes_kept random sections) as [Hlen Hall].
  repeat split; try done.
  - intros random'. apply arFactNodes_same_facts.
  - apply classify_last_rule.
Qed.

(** C2 as stated fails: for a sentence that names a king and an
    architect first-match-wins in the stated order gives Architecture,
    the extractor gives Royal Era. *)
Lemma later_rule_overrides_earlier :
  (forall random,
     List.map (fun n => (year n, theme n)) (arFactNodes random [two_rules])
     = [("1500", "Royal Era")]%string)
  /\ classify_as_specified (content two_rules) = "Architecture"%string
  /\ classify (content two_rules) <> classify_as_specified (content two_rules).
Proof.
  split; [intros random; vm_compute; reflexivity|].
  split; [vm_compute; reflexivity|]. vm_compute. discriminate.
Qed.

(** C1, amended. For the scenario text the parser returns the sections
    titled "Intro text.", "Origins" and "Modern Day", in this order, and
    the extractor returns two nodes: year 1191 with theme Royal Era and
    year 2005 with theme General History. *)
Theorem scenario_sections_and_nodes :
  exists secs,
    Narrative.sections scenario_text = Some secs
    /\ List.map title secs = ["Intro text."; "Origins"; "Modern Day"]%string
    /\ List.map content secs
       = ["Intro text."; "Built in 1191 by King X."; "Renovated in 2005."]%string
    /\ forall random,
         List.map (fun n => (year n, theme n)) (arFactNodes random secs)
         = [("1191", "Royal Era"); ("2005", "General History")]%string.
Proof.
  eexists. split; [vm_compute; reflexivity|].
  split; [reflexivity|]. split; [reflexivity|].
  intros random. vm_compute. reflexivity.
Qed.

(** C1 as stated fails: the first title is the short first line, not
    "Introduction", and the sentence of 2005 has no keyword of the
    Modernization rule. *)
Lemma scenario_not_as_stated :
  exists secs,
    Narrative.sections scenario_text = Some secs
    /\ List.map title secs <> ["Introduction"; "Origins"; "Modern Day"]%string
    /\ forall random,
         List.map (fun n => (year n, theme n)) (arFactNodes random secs)
         <> [("1191", "Royal Era"); ("2005", "Modernization")]%string.
Proof.
  eexists. split; [vm_compute; reflexivity|].
  split; [discriminate|]. intros random. vm_compute. discriminate.
Qed.
End ExtractorFacts.

Module EngineMore.
Import Engine EngineFacts.
Local Open Scope Q_scope.

Lemma clamp_idempotent t d : 0 <= d -> clamp (clamp t d) d == clamp t d.
Proof.
  intros Hd. destruct (clamp_range t d Hd) as [H0 H1].
  by apply clamp_inside.
Qed.

(** X1. [skip] lands inside the clip whether the engine is playing or
    paused: the new position is the old one plus the step, clamped to
    [0, duration], and the stored offset agrees with it; a paused skip
    starts nothing. *)
Theorem skip_stays_inside (p : Player) (seconds now : Q) :
  reachable p ->
  let p' := skip seconds now p in
  currentTime p' == clamp (currentTime p + seconds) (duration p)
  /\ 0 <= currentTime p' <= duration p
  /\ offsetRef p' = currentTime p'
  /\ isPlaying p' = isPlaying p
  /\ (isPlaying p = false ->
      sourceNodeRef p' = sourceNodeRef p /\ created p' = created p
      /\ startTimeRef p' = startTimeRef p)
  /\ (isPlaying p = true ->
      startTimeRef p' = now /\ created p' = S (created p)).
Proof.
  intros Hreach. destruct (reachable_invariant p Hreach) as [Hinv Hdur].
  pose proof (clamp_range (currentTime p + seconds) (duration p) Hdur) as Hin.
  cbv zeta. unfold skip. destruct (isPlaying p) eqn:Hp.
  - destruct (Hinv eq_refl) as [Hbuf Hctx].
    rewrite playFromOffset_loaded by done. cbn [currentTime offsetRef isPlaying
      sourceNodeRef created startTimeRef].
    pose proof (clamp_idempotent (currentTime p + seconds) (duration p) Hdur) as Hid.
    repeat split; try done; try (rewrite Hid; tauto).
  - cbn. repeat split; try done; try reflexivity; tauto.
Qed.

Lemma skip_stays_inside_witness :
  0 <= currentTime (skip 10 28 (loaded 30 0)) <= duration (loaded 30 0)
  /\ 0 <= currentTime (skip (-10) 5 (contextCreated mounted))
       <= duration (contextCreated mounted).
Proof.
  split.
  - destruct (skip_stays_inside (loaded 30 0) 10 28) as (_ & Hin & _); [|exact Hin].
    apply reachable_loaded. discriminate.
  - destruct (skip_stays_inside (contextCreated mounted) (-10) 5)
      as (_ & Hin & _); [|exact Hin].
    apply reachable_awaiting.
Defined.


Lemma stopPlayback_fields q :
  isPlaying (stopPlayback q) = false /\ sourceNodeRef (stopPlayback q) = None
  /\ currentTime (stopPlayback q) = currentTime q
  /\ offsetRef (stopPlayback q) = offsetRef q
  /\ duration (stopPlayback q) = duration q
  /\ playbackSpeed (stopPlayback q) = playbackSpeed q
  /\ audioBufferRef (stopPlayback q) = audioBufferRef q
  /\ audioContextRef (stopPlayback q) = audioContextRef q
  /\ startTimeRef (stopPlayback q) = startTimeRef q
  /\ created (stopPlayback q) = created q.
Proof.
  destruct q as [pl ct d sp ctx buf [src|] st off n]; cbn; repeat split.
Qed.

Lemma togglePlayback_pauses now p :
  isPlaying p = true ->
  togglePlayback now p = stopPlayback (set_offsetRef (currentTime p) p).
Proof. unfold togglePlayback. by intros ->. Qed.

(** X2. Pausing keeps the position, stores it as the offset, releases the
    source and makes frames no-ops; resuming starts a new source from that
    position with a fresh clock anchor. *)
Theorem pause_then_resume (p : Player) (now1 now2 : Q) :
  reachable p -> isPlaying p = true ->
  0 <= currentTime p -> currentTime p < duration p ->
  let paused := togglePlayback now1 p in
  let resumed := togglePlayback now2 paused in
  isPlaying paused = false /\ sourceNodeRef paused = None
  /\ currentTime paused = currentTime p /\ offsetRef paused = currentTime p
  /\ (forall later, updateProgress later paused = paused)
  /\ isPlaying resumed = true /\ currentTime resumed == currentTime p
  /\ offsetRef resumed == currentTime p /\ startTimeRef resumed = now2
  /\ sourceNodeRef resumed
     = Some {| playbackRate := rate (playbackSpeed p);
               startedAt := offsetRef resumed |}
  /\ created resumed = S (created p).
Proof.
  intros Hreach Hp H0 Hlt. destruct (reachable_invariant p Hreach) as [Hinv Hdur].
  destruct (Hinv Hp) as [Hbuf Hctx]. cbv zeta.
  rewrite (togglePlayback_pauses now1 p Hp).
  set (paused := stopPlayback (set_offsetRef (currentTime p) p)).
  assert (Hpaused : isPlaying paused = false /\ sourceNodeRef paused = None
            /\ currentTime paused = currentTime p /\ offsetRef paused = currentTime p
            /\ duration paused = duration p /\ playbackSpeed paused = playbackSpeed p
            /\ audioBufferRef paused = audioBufferRef p
            /\ audioContextRef paused = audioContextRef p
            /\ created paused = created p).
  { destruct (stopPlayback_fields (set_offsetRef (currentTime p) p))
      as (? & ? & ? & ? & ? & ? & ? & ? & ? & ?).
    repeat split; assumption. }
  destruct Hpaused as (Hpl & Hsrc & Hct & Hoff & Hd & Hsp & Hb & Hc & Hn).
  do 4 (split; [done|]).
  split; [intros later; by apply updateProgress_idle|].
  unfold togglePlayback. rewrite Hpl, Hct, Hd.
  assert (Qle_bool (duration p) (currentTime p) = false) as ->
    by by apply Qle_bool_false.
  rewrite playFromOffset_loaded by congruence.
  cbn [isPlaying currentTime offsetRef startTimeRef sourceNodeRef created].
  rewrite Hd, Hsp, Hn.
  pose proof (clamp_inside (currentTime p) (duration p) H0 (Qlt_le_weak _ _ Hlt)).
  repeat split; done.
Qed.

Lemma pause_then_resume_witness :
  currentTime (togglePlayback 100 (togglePlayback 12 (handle Frame 12 (loaded 30 0))))
  == currentTime (handle Frame 12 (loaded 30 0)).
Proof.
  destruct (pause_then_resume (handle Frame 12 (loaded 30 0)) 12 100)
    as (_ & _ & _ & _ & _ & _ & Hpos & _).
  - apply reachable_handle, reachable_loaded. discriminate.
  - vm_compute. reflexivity.
  - vm_compute. discriminate.
  - vm_compute. reflexivity.
  - exact Hpos.
Defined.


(** X3. When a frame has brought a playing clip to its end, the next
    press of the play button starts the clip again from 0. *)
Theorem replay_after_end (p : Player) (now later : Q) :
  reachable p -> isPlaying p = true ->
  duration p <= (now - startTimeRef p) * rate (playbackSpeed p) + offsetRef p ->
  let ended := updateProgress now p in
  let again := togglePlayback later ended in
  isPlaying ended = false /\ currentTime ended = duration p
  /\ isPlaying again = true /\ currentTime again == 0
  /\ offsetRef again == 0 /\ startTimeRef again = later
  /\ created again = S (created p).
Proof.
  intros Hreach Hp Hend. destruct (reachable_invariant p Hreach) as [Hinv Hdur].
  destruct (Hinv Hp) as [Hbuf Hctx]. cbv zeta.
  rewrite updateProgress_playing by done. cbv zeta.
  apply Qle_bool_iff in Hend. rewrite Hend.
  unfold togglePlayback.
  cbn [isPlaying currentTime duration setCurrentTime setIsPlaying].
  assert (Qle_bool (duration p) (duration p) = true) as ->
    by (apply Qle_bool_iff, Qle_refl).
  rewrite playFromOffset_loaded by done.
  cbn [isPlaying currentTime offsetRef startTimeRef created duration
       setCurrentTime setIsPlaying].
  assert (clamp 0 (duration p) == 0) by (apply clamp_inside; [apply Qle_refl|done]).
  repeat split; done.
Qed.

Lemma replay_after_end_witness :
  currentTime (togglePlayback 50 (updateProgress 31 (loaded 30 0))) == 0.
Proof.
  destruct (replay_after_end (loaded 30 0) 31 50) as (_ & _ & _ & Hpos & _).
  - apply reachable_loaded. discriminate.
  - vm_compute. reflexivity.
  - vm_compute. discriminate.
  - exact Hpos.
Defined.


(** X4. A seek to a target within the clip lands on it, playing or
    paused: a frame at the clock reading of the seek shows the target;
    while playing a target outside the clip is clamped to
    [0, duration], and a paused seek starts nothing. *)
Theorem seek_then_frame (p : Player) (newTime now : Q) :
  reachable p ->
  (isPlaying p = true ->
     currentTime (updateProgress now (handleSeek newTime now p))
       == clamp newTime (duration p)
     /\ offsetRef (handleSeek newTime now p) = clamp newTime (duration p)
     /\ startTimeRef (handleSeek newTime now p) = now)
  /\ (isPlaying p = false -> 0 <= newTime -> newTime <= duration p ->
     currentTime (updateProgress now (handleSeek newTime now p))
       == clamp newTime (duration p)
     /\ offsetRef (handleSeek newTime now p) == clamp newTime (duration p)
     /\ isPlaying (handleSeek newTime now p) = false
     /\ created (handleSeek newTime now p) = created p).
Proof.
  intros Hreach. destruct (reachable_invariant p Hreach) as [Hinv Hdur].
  split.
  - intros Hp. destruct (Hinv Hp) as [Hbuf Hctx]. unfold handleSeek. rewrite Hp.
    rewrite playFromOffset_loaded by done.
    rewrite updateProgress_playing by reflexivity.
    cbn [startTimeRef playbackSpeed offsetRef duration setCurrentTime].
    destruct (clamp_range newTime (duration p) Hdur) as [H0 H1].
    split; [|by split].
    destruct (Qle_bool _ _) eqn:Hend; cbn [currentTime setCurrentTime setIsPlaying].
    + apply Qle_bool_iff in Hend. lra.
    + lra.
  - intros Hp H0 H1. rewrite handleSeek_paused by done.
    rewrite updateProgress_idle by done.
    pose proof (clamp_inside newTime (duration p) H0 H1) as Hin.
    cbn [currentTime offsetRef isPlaying created set_offsetRef setCurrentTime].
    repeat split; try done; by symmetry.
Qed.

Lemma seek_then_frame_witness :
  currentTime (updateProgress 7 (handleSeek 45 7 (loaded 30 0)))
  == clamp 45 (duration (loaded 30 0))
  /\ currentTime
       (updateProgress 9 (handleSeek 20 9 (handle Toggle 8 (loaded 30 0))))
     == clamp 20 (duration (handle Toggle 8 (loaded 30 0))).
Proof.
  split.
  - destruct (seek_then_frame (loaded 30 0) 45 7) as [Hplay _].
    + apply reachable_loaded. discriminate.
    + destruct Hplay as [H _]; [vm_compute; reflexivity | exact H].
  - destruct (seek_then_frame (handle Toggle 8 (loaded 30 0)) 20 9) as [_ Hpaused].
    + apply reachable_handle, reachable_loaded. discriminate.
    + destruct Hpaused as [H _].
      * vm_compute. reflexivity.
      * vm_compute. discriminate.
      * vm_compute. discriminate.
      * exact H.
Defined.

(** Playing implies a source, a source implies a clip, a clip implies a
    context. *)
Lemma attached_stopPlayback p : attached p -> attached (stopPlayback p).
Proof.
  intros (Hplay & Hsrc). destruct p as [pl ct d sp ctx buf [src|] st off n];
    unfold attached; simpl; split; intros H; discriminate H.
Qed.

Lemma attached_contextCreated p : attached p -> attached (contextCreated p).
Proof.
  intros (Hplay & Hsrc). unfold attached, contextCreated.
  destruct (audioContextRef p); simpl; split; auto.
Qed.

Lemma attached_narrationDecoded r d now p :
  audioContextRef p = true -> attached (narrationDecoded r d now p).
Proof.
  intros Hctx. unfold attached, narrationDecoded, playFromOffset_of, stopPlayback.
  simpl. rewrite Hctx. simpl.
  destruct (sourceNodeRef p); simpl; split; auto.
Qed.

Lemma attached_handle e now p : sound p -> attached p -> attached (handle e now p).
Proof.
  intros (Hplay & Hbuf & Hdur) (Hsrc & Hclip).
  destruct p as [pl ct d sp ctx buf src st off n]. unfold attached in *. simpl in *.
  destruct e; simpl;
    unfold updateProgress, togglePlayback, skip, handleSeek,
      changePlaybackSpeed, playFromOffset, stopPlayback; simpl;
    cases; split; simpl; intros; try discriminate; try tauto;
    destruct buf, ctx, src; simpl in *; try discriminate; auto.
Qed.

Lemma running_attached fetches p : running fetches p -> attached p.
Proof.
  induction 1 as [|fetches p _ IH|fetches p _ _ IH|before r after d now p Hd Hctx _ _
                 |before r after p _ IH|fetches e now p Hrun IH].
  - unfold attached. simpl. split; discriminate.
  - by apply attached_stopPlayback.
  - by apply attached_contextCreated.
  - by apply attached_narrationDecoded.
  - exact IH.
  - apply attached_handle; [by eapply running_sound|done].
Qed.

(** X5. In every state the component can reach: while the engine reports
    playing, a clip is loaded and a source node is attached; a source node
    is attached only once a clip is loaded; a clip is loaded only once
    there is a context; the duration is not negative. *)
Theorem engine_invariant (p : Player) :
  reachable p ->
  (isPlaying p = true ->
     is_some (audioBufferRef p) = true /\ audioContextRef p = true
     /\ is_some (sourceNodeRef p) = true)
  /\ (is_some (sourceNodeRef p) = true ->
     is_some (audioBufferRef p) = true /\ audioContextRef p = true)
  /\ (is_some (audioBufferRef p) = true -> audioContextRef p = true)
  /\ 0 <= duration p.
Proof.
  intros [fetches Hrun].
  destruct (running_sound fetches p Hrun) as (Hplay & Hbuf & Hdur).
  destruct (running_attached fetches p Hrun) as (Hsrc & Hclip).
  repeat split; auto.
Qed.

Lemma engine_invariant_witness :
  is_some (sourceNodeRef (loaded 30 0)) = true.
Proof.
  destruct (engine_invariant (loaded 30 0)) as (Hplay & _ & _).
  - apply reachable_loaded. discriminate.
  - destruct Hplay as (_ & _ & Hsrc); [vm_compute; reflexivity | exact Hsrc].
Defined.

(** X6. A clip that arrives starts playing from 0 with the clock anchor
    taken anew, whatever the engine was doing; its source runs at the
    speed of the render that started the fetch, while the speed shown,
    by which frames advance the position, is the current one. *)
Theorem narrationDecoded_starts_clip (r : Render) (d now : Q) (p : Player) :
  audioContextRef p = true ->
  isPlaying (narrationDecoded r d now p) = true
  /\ duration (narrationDecoded r d now p) = d
  /\ audioBufferRef (narrationDecoded r d now p) = Some d
  /\ currentTime (narrationDecoded r d now p) == 0
  /\ offsetRef (narrationDecoded r d now p) == 0
  /\ startTimeRef (narrationDecoded r d now p) = now
  /\ playbackSpeed (narrationDecoded r d now p) = playbackSpeed p
  /\ (exists src, sourceNodeRef (narrationDecoded r d now p) = Some src
        /\ playbackRate src = rate (seenSpeed r))
  /\ created (narrationDecoded r d now p) = S (created p)
  /\ (forall later, (later - now) * rate (playbackSpeed p) < d ->
        currentTime (updateProgress later (narrationDecoded r d now p))
        == (later - now) * rate (playbackSpeed p)).
Proof.
  intros Hctx.
  assert (Hzero : clamp 0 (seenDuration r) == 0).
  { unfold clamp. apply Qle_antisym; [|apply Q.le_max_l].
    apply Q.max_lub; [apply Qle_refl | apply Q.le_min_l]. }
  assert (Heq : narrationDecoded r d now p
    = {| isPlaying := true; currentTime := clamp 0 (seenDuration r);
         duration := d; playbackSpeed := playbackSpeed p;
         audioContextRef := true; audioBufferRef := Some d;
         sourceNodeRef := Some {| playbackRate := rate (seenSpeed r);
                                  startedAt := clamp 0 (seenDuration r) |};
         startTimeRef := now; offsetRef := clamp 0 (seenDuration r);
         created := S (created p) |}).
  { destruct p as [pl ct d0 sp ctx buf src st off n]. simpl in Hctx. subst ctx.
    unfold narrationDecoded, playFromOffset_of, stopPlayback. simpl.
    by destruct src. }
  rewrite Heq. cbn [isPlaying duration audioBufferRef currentTime offsetRef
    startTimeRef playbackSpeed sourceNodeRef created].
  do 3 (split; [reflexivity|]). do 2 (split; [exact Hzero|]).
  do 2 (split; [reflexivity|]).
  split; [eexists; split; reflexivity|]. split; [reflexivity|].
  intros later Hlater. rewrite frame_shows; cbn [isPlaying audioContextRef
    startTimeRef playbackSpeed offsetRef duration]; try done; lra.
Qed.

Lemma narrationDecoded_starts_clip_witness :
  exists src,
    sourceNodeRef
      (narrationDecoded (render_of mounted) 30 4
         (handle (Speed X2) 2 (contextCreated mounted))) = Some src
    /\ playbackRate src = rate (seenSpeed (render_of mounted)).
Proof.
  destruct (narrationDecoded_starts_clip (render_of mounted) 30 4
              (handle (Speed X2) 2 (contextCreated mounted)))
    as (_ & _ & _ & _ & _ & _ & _ & Hsrc & _).
  - vm_compute. reflexivity.
  - exact Hsrc.
Defined.

End EngineMore.

Module DeskFacts.
Import App Ledger Desk JournalFacts DiscoveryFacts.

(** What a handler may do to the journal and its stored copy: nothing, or
    one [saveToHistory]. *)
Lemma journal_ok_upsert r m m' :
  journal_ok m ->
  history m' = upsert r (history m) -> stored m' = Some (history m') ->
  journal_ok m'.
Proof.
  intros (Hlen & Hnd & _) Hh Hs. unfold journal_ok. rewrite Hh in *.
  split; [|split; [by apply upsert_NoDup | by left]].
  rewrite upsert_unfold, length_take. lia.
Qed.

Lemma journal_ok_same m m' :
  journal_ok m -> history m' = history m -> stored m' = stored m ->
  journal_ok m'.
Proof. unfold journal_ok. intros H -> ->. exact H. Qed.

Lemma ids_map_same (f : LandmarkResult -> LandmarkResult) l :
  (forall item, id (f item) = id item) -> ids (List.map f l) = ids l.
Proof.
  intros Hf. unfold ids. rewrite List.map_map. apply List.map_ext. exact Hf.
Qed.

Lemma journal_ok_map (f : LandmarkResult -> LandmarkResult) m m' :
  (forall item, id (f item) = id item) ->
  journal_ok m ->
  history m' = List.map f (history m) -> stored m' = Some (history m') ->
  journal_ok m'.
Proof.
  intros Hf (Hlen & Hnd & _) Hh Hs. unfold journal_ok. rewrite Hh in *.
  rewrite length_map, (ids_map_same f _ Hf). auto.
Qed.

Lemma processLandmark_journal w info image m :
  untouched_or_saved m (snd (processLandmark w info image m)).
Proof.
  pose proof (processLandmark_all_or_nothing w info image m) as H.
  destruct (promise_all _ _ _) as [both|e]; rewrite H.
  - right. eexists. repeat split; reflexivity.
  - left. repeat split; reflexivity.
Qed.

Lemma untouched_or_saved_ok m m' :
  journal_ok m -> untouched_or_saved m m' -> journal_ok m'.
Proof.
  intros Hok [(Hh & Hs & _)|(r & Hh & Hs & _)].
  - by apply journal_ok_same with m.
  - by apply journal_ok_upsert with r m.
Qed.

Lemma untouched_or_saved_after m m1 m' :
  history m1 = history m -> stored m1 = stored m -> result m1 = result m ->
  untouched_or_saved m1 m' -> untouched_or_saved m m'.
Proof. unfold untouched_or_saved. intros -> -> ->. auto. Qed.

Lemma handleCapture_journal w image m :
  untouched_or_saved m (snd (handleCapture w image m)).
Proof.
  unfold handleCapture. destruct (isOffline m); [left; repeat split; reflexivity|].
  unfold bind at 1 2 3, update at 1 2 3, try_catch.
  unfold bind at 1, await at 1.
  destruct (identifyLandmark w image) as [info|e]; [|left; repeat split; reflexivity].
  set (m1 := setError None (setState IDENTIFYING (setCapturedImage (Some image) m))).
  pose proof (processLandmark_journal w info image m1) as Hj.
  destruct (processLandmark w info image m1) as [[[]|e] m2]; cbn in Hj |- *;
    (apply untouched_or_saved_after with m1; [reflexivity|reflexivity|reflexivity|exact Hj]).
Qed.

(** The part of a search or exploration that follows the guard. *)
Lemma pipeline_journal n q message pg :
  untouched_or_saved (model pg) (model (snd (discovery_block n q message pg))).
Proof.
  unfold discovery_block, task_try, task_bind, task_await, lift, update, setSearchQuery.
  destruct (searchLandmarkByName n q) as [info|e]; [|left; repeat split; reflexivity].
  destruct (generateLandmarkImage n (name info)) as [img|e]; [|left; repeat split; reflexivity].
  cbn [model searchQuery fst snd].
  set (m1 := setCapturedImage (Some img) (model pg)).
  pose proof (processLandmark_journal (world n) info img m1) as Hj.
  destruct (processLandmark (world n) info img m1) as [[[]|e] m2]; cbn in Hj |- *;
    (apply untouched_or_saved_after with m1; [reflexivity|reflexivity|reflexivity|exact Hj]).
Qed.

Lemma handleSearch_journal n pg :
  untouched_or_saved (model pg) (model (snd (handleSearch n pg))).
Proof.
  unfold handleSearch.
  destruct (negb _ || _); [left; repeat split; reflexivity|].
  unfold task_bind at 1 2, lift at 1 2, update at 1 2. cbn [model searchQuery].
  apply untouched_or_saved_after
    with (model {| model := setError None (setState IDENTIFYING (model pg));
                   searchQuery := searchQuery pg |});
    [reflexivity|reflexivity|reflexivity|].
  apply (pipeline_journal n (searchQuery pg)).
Qed.

Lemma exploreRelated_journal n name' pg :
  untouched_or_saved (model pg) (model (snd (exploreRelated n name' pg))).
Proof.
  unfold exploreRelated.
  destruct (isOffline _); [left; repeat split; reflexivity|].
  unfold task_bind at 1 2, lift at 1, update at 1, setSearchQuery at 1.
  cbn [model searchQuery].
  apply untouched_or_saved_after
    with (model {| model := setState IDENTIFYING (model pg);
                   searchQuery := name' |});
    [reflexivity|reflexivity|reflexivity|].
  apply (pipeline_journal n name').
Qed.

Lemma updateAudioCache_journal seen a m :
  untouched_or_saved m (updateAudioCache seen a m).
Proof.
  unfold updateAudioCache. destruct seen as [r|]; [|left; repeat split; reflexivity].
  right. eexists. repeat split; reflexivity.
Qed.

Lemma act_keeps_journal a pg :
  journal_ok (model pg) -> journal_ok (model (act a pg)).
Proof.
  intros Hok. destruct a; cbn [act on_model model].
  - unfold lift. pose proof (handleCapture_journal w base64Image (model pg)) as Hj.
    destruct (handleCapture w base64Image (model pg)) as [o m']. cbn in *.
    by apply untouched_or_saved_ok with (model pg).
  - apply untouched_or_saved_ok with (model pg); [done|apply handleSearch_journal].
  - apply untouched_or_saved_ok with (model pg); [done|apply exploreRelated_journal].
  - done.
  - eapply journal_ok_map; [|exact Hok|apply history_toggleBookmark|].
    + intros item. cbn. by destruct (String.eqb _ _).
    + unfold toggleBookmark.
      destruct (result (model pg)) as [r|]; [destruct (String.eqb (id r) i)|];
        reflexivity.
  - eapply journal_ok_map; [|exact Hok|apply history_toggleDownload|].
    + intros item. cbn. by destruct (String.eqb _ _).
    + unfold toggleDownload.
      destruct (result (model pg)) as [r|]; [destruct (String.eqb (id r) i)|];
        reflexivity.
  - apply untouched_or_saved_ok with (model pg); [done|apply updateAudioCache_journal].
  - by apply journal_ok_same with (model pg).
  - by apply journal_ok_same with (model pg).
Qed.


(** The calls a search makes, in order, joined into one outcome. *)
Lemma search_run n q message pg :
  let after_guard := discovery_block n q message in
  fst (after_guard pg) = Resolved tt
  /\ (forall info img hd rd,
      searchLandmarkByName n q = Resolved info ->
      generateLandmarkImage n (name info) = Resolved img ->
      getLandmarkHistory (world n) (name info) = Resolved hd ->
      getRelatedLandmarks (world n) (name info) (or_empty (location info))
        = Resolved rd ->
      let r := newResult (world n) info img hd rd in
      snd (after_guard pg)
      = {| model := setState RESULT (saveToHistory r (setResult (Some r)
                      (setState SEARCHING (setCapturedImage (Some img) (model pg)))));
           searchQuery := "" |})
  /\ ((exists e, searchLandmarkByName n q = Rejected e)
      \/ (exists info, searchLandmarkByName n q = Resolved info
          /\ ((exists e, generateLandmarkImage n (name info) = Rejected e)
              \/ (exists e, getLandmarkHistory (world n) (name info) = Rejected e)
              \/ (exists e, getRelatedLandmarks (world n) (name info)
                              (or_empty (location info)) = Rejected e))) ->
      let pg' := snd (after_guard pg) in
      history (model pg') = history (model pg)
      /\ stored (model pg') = stored (model pg)
      /\ result (model pg') = result (model pg)
      /\ error (model pg') = Some message
      /\ state (model pg') = ERROR
      /\ searchQuery pg' = searchQuery pg).
Proof.
  cbv zeta. unfold discovery_block, task_try, task_bind, task_await, lift, update,
    setSearchQuery.
  destruct (searchLandmarkByName n q) as [info|e0] eqn:Hs.
  - destruct (generateLandmarkImage n (name info)) as [img|e1] eqn:Hg.
    + cbn [model searchQuery fst snd].
      pose proof (processLandmark_all_or_nothing (world n) info img
                    (setCapturedImage (Some img) (model pg))) as Hproc.
      destruct (getLandmarkHistory (world n) (name info)) as [hd|e2] eqn:Hh;
        destruct (getRelatedLandmarks (world n) (name info) (or_empty (location info)))
          as [rd|e3] eqn:Hr; cbn [promise_all] in Hproc; rewrite Hproc;
        cbn [model searchQuery fst snd];
        (split; [done|]); split;
        try (intros info' img' hd' rd' [= <-] Hg' Hh' Hr';
             rewrite ?Hg, ?Hh, ?Hr in *; simplify_eq; reflexivity);
        try (intros _; repeat split; done).
      intros [[e He]|(info' & [= <-] & [[e He]|[[e He]|[e He]]])]; congruence.
    + cbn. split; [done|]. split.
      * intros info' img' hd' rd' [= <-] Hg'. congruence.
      * intros _. repeat split.
  - cbn. split; [done|]. split; [intros; discriminate|]. intros _. repeat split.
Qed.

Lemma handleSearch_guarded n pg :
  Js.truthy (Js.trim (searchQuery pg)) = true -> isOffline (model pg) = false ->
  handleSearch n pg
  = discovery_block n (searchQuery pg) "Landmark not found or search failed."
      {| model := setError None (setState IDENTIFYING (model pg));
         searchQuery := searchQuery pg |}.
Proof. intros Hq Hon. unfold handleSearch. rewrite Hq, Hon. reflexivity. Qed.

Lemma exploreRelated_guarded n name' pg :
  isOffline (model pg) = false ->
  exploreRelated n name' pg
  = discovery_block n name' "Could not explore related site."
      {| model := setState IDENTIFYING (model pg); searchQuery := name' |}.
Proof. intros Hon. unfold exploreRelated. rewrite Hon. reflexivity. Qed.

(** X8. [handleSearch] does nothing at all when the query is blank or the
    client is offline.  Otherwise it never throws; when the name lookup,
    the image, the history and the related landmarks all arrive, the new
    result carries the generated image, is shown and saved, and the search
    box is cleared; when any of the four calls fails, the journal, its
    stored copy and the shown result are untouched, the fixed message is
    shown and the query stays in the box. *)
Theorem handleSearch_all_or_nothing (n : Network) (pg : Page) :
  (Js.truthy (Js.trim (searchQuery pg)) = false \/ isOffline (model pg) = true ->
   handleSearch n pg = (Resolved tt, pg))
  /\ (Js.truthy (Js.trim (searchQuery pg)) = true -> isOffline (model pg) = false ->
      let q := searchQuery pg in
      let pg' := snd (handleSearch n pg) in
      fst (handleSearch n pg) = Resolved tt
      /\ (forall info img hd rd,
          searchLandmarkByName n q = Resolved info ->
          generateLandmarkImage n (name info) = Resolved img ->
          getLandmarkHistory (world n) (name info) = Resolved hd ->
          getRelatedLandmarks (world n) (name info) (or_empty (location info))
            = Resolved rd ->
          let r := newResult (world n) info img hd rd in
          imageUrl r = img
          /\ result (model pg') = Some r
          /\ history (model pg') = upsert r (history (model pg))
          /\ stored (model pg') = Some (history (model pg'))
          /\ capturedImage (model pg') = Some img
          /\ state (model pg') = RESULT /\ error (model pg') = None
          /\ searchQuery pg' = ""%string)
      /\ ((exists e, searchLandmarkByName n q = Rejected e)
          \/ (exists info, searchLandmarkByName n q = Resolved info
              /\ ((exists e, generateLandmarkImage n (name info) = Rejected e)
                  \/ (exists e, getLandmarkHistory (world n) (name info) = Rejected e)
                  \/ (exists e, getRelatedLandmarks (world n) (name info)
                                  (or_empty (location info)) = Rejected e))) ->
          history (model pg') = history (model pg)
          /\ stored (model pg') = stored (model pg)
          /\ result (model pg') = result (model pg)
          /\ error (model pg') = Some "Landmark not found or search failed."%string
          /\ state (model pg') = ERROR
          /\ searchQuery pg' = searchQuery pg)).
Proof.
  split.
  - intros Hguard. unfold handleSearch.
    destruct Hguard as [-> | ->]; [reflexivity|]. by rewrite orb_true_r.
  - intros Hq Hon. cbv zeta. rewrite (handleSearch_guarded n pg Hq Hon).
    destruct (search_run n (searchQuery pg)
                "Landmark not found or search failed."%string
                {| model := setError None (setState IDENTIFYING (model pg));
                   searchQuery := searchQuery pg |})
      as (Hret & Hyes & Hno).
    split; [exact Hret|]. split.
    + intros info img hd rd Hs Hg Hh Hr.
      rewrite (Hyes info img hd rd Hs Hg Hh Hr). repeat split.
    + intros Hfail. destruct (Hno Hfail) as (H1 & H2 & H3 & H4 & H5 & H6).
      repeat split; assumption.
Qed.

Lemma handleSearch_all_or_nothing_witness :
  let pg := {| model := empty; searchQuery := "Tower"%string |} in
  history (model (snd (handleSearch net_down pg))) = history (model pg)
  /\ searchQuery (snd (handleSearch net_down pg)) = searchQuery pg
  /\ handleSearch net_up {| model := empty; searchQuery := "  "%string |}
     = (Resolved tt, {| model := empty; searchQuery := "  "%string |}).
Proof.
  intros pg.
  destruct (handleSearch_all_or_nothing net_down pg) as [_ Hrun].
  destruct Hrun as (_ & _ & Hfail); [reflexivity | reflexivity |].
  destruct Hfail as (Hh & _ & _ & _ & _ & Hq).
  { left. exists "offline"%string. reflexivity. }
  split; [exact Hh|]. split; [exact Hq|].
  apply (handleSearch_all_or_nothing net_up). left. reflexivity.
Defined.

(** X9. [exploreRelated] does nothing when the client is offline.
    Otherwise it never throws and puts the name into the search box; on
    success the result is shown and saved, the box is cleared and the
    previous error, if any, is left as it was; when a call fails the
    journal and the shown result are untouched, the fixed message is shown
    and the name stays in the box. *)
Theorem exploreRelated_all_or_nothing (n : Network) (name' : string) (pg : Page) :
  (isOffline (model pg) = true -> exploreRelated n name' pg = (Resolved tt, pg))
  /\ (isOffline (model pg) = false ->
      let pg' := snd (exploreRelated n name' pg) in
      fst (exploreRelated n name' pg) = Resolved tt
      /\ (forall info img hd rd,
          searchLandmarkByName n name' = Resolved info ->
          generateLandmarkImage n (name info) = Resolved img ->
          getLandmarkHistory (world n) (name info) = Resolved hd ->
          getRelatedLandmarks (world n) (name info) (or_empty (location info))
            = Resolved rd ->
          let r := newResult (world n) info img hd rd in
          result (model pg') = Some r
          /\ history (model pg') = upsert r (history (model pg))
          /\ stored (model pg') = Some (history (model pg'))
          /\ state (model pg') = RESULT
          /\ error (model pg') = error (model pg)
          /\ searchQuery pg' = ""%string)
      /\ ((exists e, searchLandmarkByName n name' = Rejected e)
          \/ (exists info, searchLandmarkByName n name' = Resolved info
              /\ ((exists e, generateLandmarkImage n (name info) = Rejected e)
                  \/ (exists e, getLandmarkHistory (world n) (name info) = Rejected e)
                  \/ (exists e, getRelatedLandmarks (world n) (name info)
                                  (or_empty (location info)) = Rejected e))) ->
          history (model pg') = history (model pg)
          /\ stored (model pg') = stored (model pg)
          /\ result (model pg') = result (model pg)
          /\ error (model pg') = Some "Could not explore related site."%string
          /\ state (model pg') = ERROR
          /\ searchQuery pg' = name')).
Proof.
  split.
  - intros Hoff. unfold exploreRelated. by rewrite Hoff.
  - intros Hon. cbv zeta. rewrite (exploreRelated_guarded n name' pg Hon).
    destruct (search_run n name' "Could not explore related site."%string
                {| model := setState IDENTIFYING (model pg); searchQuery := name' |})
      as (Hret & Hyes & Hno).
    split; [exact Hret|]. split.
    + intros info img hd rd Hs Hg Hh Hr.
      rewrite (Hyes info img hd rd Hs Hg Hh Hr). repeat split.
    + intros Hfail. destruct (Hno Hfail) as (H1 & H2 & H3 & H4 & H5 & H6).
      repeat split; assumption.
Qed.

Lemma exploreRelated_all_or_nothing_witness :
  searchQuery (snd (exploreRelated net_down "Abbey" fresh)) = "Abbey"%string
  /\ searchQuery (snd (exploreRelated net_up "Abbey" fresh)) = ""%string.
Proof.
  destruct (exploreRelated_all_or_nothing net_down "Abbey" fresh) as [_ Hdown].
  destruct Hdown as (_ & _ & Hfail); [reflexivity|].
  destruct Hfail as (_ & _ & _ & _ & _ & Hq).
  { left. exists "offline"%string. reflexivity. }
  split; [exact Hq|].
  destruct (exploreRelated_all_or_nothing net_up "Abbey" fresh) as [_ Hup].
  destruct Hup as (_ & Hyes & _); [reflexivity|].
  destruct (Hyes sample_info "data:image/png;base64,AAAA"%string
              {| text := "## Origins"; data_sources := [] |} [])
    as (_ & _ & _ & _ & _ & Hq');
    [reflexivity | reflexivity | reflexivity | reflexivity | exact Hq'].
Defined.

(** X10. Offline, [handleCapture] consults no service: whatever the world
    would answer, it shows the connection message in the error state and
    leaves the captured image, the shown result, the journal and its
    stored copy as they were. *)
Theorem handleCapture_offline (w w' : World) (image : string) (m : Model) :
  isOffline m = true ->
  handleCapture w image m = handleCapture w' image m
  /\ fst (handleCapture w image m) = Resolved tt
  /\ let m' := snd (handleCapture w image m) in
     state m' = ERROR
     /\ error m' = Some "Internet connection required for new discoveries."%string
     /\ capturedImage m' = capturedImage m /\ result m' = result m
     /\ history m' = history m /\ stored m' = stored m.
Proof.
  intros Hoff. unfold handleCapture. rewrite Hoff. repeat split.
Qed.

Lemma handleCapture_offline_witness :
  let m := setResult (Some (sample "a")) (with_stored (Some []) empty) in
  let off := {| state := state m; result := result m; error := error m;
                capturedImage := capturedImage m; history := history m;
                isOffline := true; stored := stored m |} in
  handleCapture all_up "img" off = handleCapture history_down "img" off.
Proof.
  intros m off.
  destruct (handleCapture_offline all_up history_down "img" off) as [Heq _];
    [reflexivity | exact Heq].
Defined.

Lemma toggleBookmark_fields i m :
  toggleBookmark i m
  = {| state := state m;
       result := match result m with
                 | Some r => Some (if String.eqb (id r) i
                                   then with_isBookmarked (js_not (isBookmarked r)) r
                                   else r)
                 | None => None
                 end;
       error := error m; capturedImage := capturedImage m;
       history := history (toggleBookmark i m);
       isOffline := isOffline m;
       stored := Some (history (toggleBookmark i m)) |}.
Proof.
  destruct m as [st [r|] er ci h off sto]; unfold toggleBookmark; cbn;
    [destruct (String.eqb (id r) i)|]; reflexivity.
Qed.

Lemma toggleDownload_fields i m :
  toggleDownload i m
  = {| state := state m;
       result := match result m with
                 | Some r => Some (if String.eqb (id r) i
                                   then with_isDownloaded (js_not (isDownloaded r)) r
                                   else r)
                 | None => None
                 end;
       error := error m; capturedImage := capturedImage m;
       history := history (toggleDownload i m);
       isOffline := isOffline m;
       stored := Some (history (toggleDownload i m)) |}.
Proof.
  destruct m as [st [r|] er ci h off sto]; unfold toggleDownload; cbn;
    [destruct (String.eqb (id r) i)|]; reflexivity.
Qed.




Lemma toggleBookmark_model i m :
  toggleBookmark i m
  = {| state := state m; result := bookmark_if i <$> result m;
       error := error m; capturedImage := capturedImage m;
       history := List.map (bookmark_if i) (history m);
       isOffline := isOffline m;
       stored := Some (List.map (bookmark_if i) (history m)) |}.
Proof.
  rewrite toggleBookmark_fields, history_toggleBookmark.
  by destruct (result m).
Qed.

Lemma toggleDownload_model j m :
  toggleDownload j m
  = {| state := state m; result := download_if j <$> result m;
       error := error m; capturedImage := capturedImage m;
       history := List.map (download_if j) (history m);
       isOffline := isOffline m;
       stored := Some (List.map (download_if j) (history m)) |}.
Proof.
  rewrite toggleDownload_fields, history_toggleDownload.
  by destruct (result m).
Qed.



Lemma upsert_entries_of_id r l item :
  In item (upsert r l) -> id item = id r -> item = r.
Proof.
  rewrite upsert_unfold. intros Hin Hid.
  apply list_elem_of_In, (subseteq_take 50), list_elem_of_In in Hin.
  destruct Hin as [<-|Hin]; [done|].
  apply filter_In in Hin as [_ Hne]. unfold other_than in Hne.
  by rewrite Hid, String.eqb_refl in Hne.
Qed.

Lemma untouched_or_saved_step m m' :
  result_in_step m -> untouched_or_saved m m' -> result_in_step m'.
Proof.
  intros Hin [(Hh & _ & Hr)|(r & Hh & _ & Hr)]; unfold result_in_step.
  - rewrite Hh, Hr. exact Hin.
  - rewrite Hh, Hr. intros r' item [= <-] Hitem Hid.
    by apply upsert_entries_of_id with (history m).
Qed.

Lemma NoDup_ids_unique l a b :
  NoDup (ids l) -> In a l -> In b l -> id a = id b -> a = b.
Proof.
  induction l as [|c l IH]; [done|]. cbn. intros Hnd.
  apply NoDup_cons in Hnd as [Hnotin Hnd].
  intros [<-|Ha] [<-|Hb] Hid; try done.
  - exfalso. apply Hnotin. rewrite Hid. apply list_elem_of_In. by apply in_map.
  - exfalso. apply Hnotin. rewrite <- Hid. apply list_elem_of_In. by apply in_map.
  - by apply IH.
Qed.

Lemma act_keeps_step a pg :
  match a with
  | View item => In item (history (model pg))
  | _ => True
  end ->
  journal_ok (model pg) -> result_in_step (model pg) ->
  result_in_step (model (act a pg)).
Proof.
  intros Hfit Hok Hin. destruct a; cbn [act on_model model].
  - unfold lift. pose proof (handleCapture_journal w base64Image (model pg)) as Hj.
    destruct (handleCapture w base64Image (model pg)) as [o m']. cbn in *.
    by apply untouched_or_saved_step with (model pg).
  - apply untouched_or_saved_step with (model pg); [done|apply handleSearch_journal].
  - apply untouched_or_saved_step with (model pg); [done|apply exploreRelated_journal].
  - done.
  - rewrite toggleBookmark_model. unfold result_in_step. cbn.
    intros r' item' Hr' Hitem' Hid.
    destruct (result (model pg)) as [r|] eqn:Hr; [|done]. injection Hr' as <-.
    apply in_map_iff in Hitem' as (item & <- & Hitem).
    f_equal. apply (Hin r item); [done|done|].
    unfold bookmark_if in Hid.
    by destruct (String.eqb (id item) i), (String.eqb (id r) i).
  - rewrite toggleDownload_model. unfold result_in_step. cbn.
    intros r' item' Hr' Hitem' Hid.
    destruct (result (model pg)) as [r|] eqn:Hr; [|done]. injection Hr' as <-.
    apply in_map_iff in Hitem' as (item & <- & Hitem).
    f_equal. apply (Hin r item); [done|done|].
    unfold download_if in Hid.
    by destruct (String.eqb (id item) i), (String.eqb (id r) i).
  - apply untouched_or_saved_step with (model pg); [done|apply updateAudioCache_journal].
  - unfold result_in_step, viewHistoryItem. cbn.
    intros r item' [= <-] Hitem' Hid. destruct Hok as (_ & Hnd & _).
    by apply NoDup_ids_unique with (history (model pg)).
  - unfold result_in_step, reset. cbn. discriminate.
Qed.

(** X12. Whatever the user and the network do, starting from an empty
    store and opening only entries of the journal: the shown result is the
    journal's entry of its id whenever the journal has one, so the detail
    view and the journal never disagree about flags, audio or text. *)
Theorem result_always_in_step (l : list action) :
  fitting l fresh ->
  let m := model (acts l fresh) in
  forall r item,
    result m = Some r -> In item (history m) -> id item = id r -> item = r.
Proof.
  intros Hfit. cbv zeta.
  change (result_in_step (model (acts l fresh))).
  assert (Hgen : forall pg, journal_ok (model pg) -> result_in_step (model pg) ->
                   fitting l pg ->
                   result_in_step (model (acts l pg))).
  { clear Hfit. unfold acts. induction l as [|a l IH]; intros pg Hok Hin Hfit; [done|].
    cbn [foldl]. destruct Hfit as [Ha Hfit].
    apply IH; [by apply act_keeps_journal | by apply act_keeps_step | done]. }
  apply Hgen; [|discriminate|done].
  split; [cbn; lia|]. split; [constructor | right; done].
Qed.

Lemma result_always_in_step_witness :
  default (sample "none")
    (head (history (model (acts [Capture all_up "img"; ToggleBookmark "u-2";
                                  CacheAudio
                                    (Some (newResult all_up sample_info "img"
                                       {| text := "## Origins"; data_sources := [] |} []))
                                    "UklGRg=="] fresh))))
  = with_audioBase64 "UklGRg=="
      (newResult all_up sample_info "img"
         {| text := "## Origins"; data_sources := [] |} []).
Proof.
  apply (result_always_in_step
           [Capture all_up "img"; ToggleBookmark "u-2";
            CacheAudio
              (Some (newResult all_up sample_info "img"
                       {| text := "## Origins"; data_sources := [] |} []))
              "UklGRg=="]).
  - repeat split.
  - vm_compute. reflexivity.
  - vm_compute. left. reflexivity.
  - vm_compute. reflexivity.
Defined.




Lemma pressBookmark_stored rid b m :
  stored (pressBookmark rid b m)
  = List.map (fun item => if String.eqb (id item) rid
                          then with_isBookmarked (negb b) item else item)
      <$> stored m.
Proof. unfold pressBookmark. cbn. by destruct (stored m). Qed.

(** X14. The bookmark button of the detail view writes to the store
    only.  Pressed for the shown, not yet bookmarked result, it makes the
    stored entry bookmarked, which the next mount would read; but the
    journal that [App] holds and its list of bookmarks do not change, and
    as soon as the narration of the result is cached, the store is written
    from what [App] holds and no stored entry of that id is bookmarked any
    more. *)
Theorem detail_bookmark_is_overwritten (m : Model) (r : LandmarkResult)
    (a : string) :
  result m = Some r -> In r (history m) -> stored m = Some (history m) ->
  is_true (isBookmarked r) = false ->
  let pressed := pressBookmark (id r) false m in
  fst (detail_handleBookmark (id r) false (stored m)) = true
  /\ history pressed = history m /\ bookmarks pressed = bookmarks m
  /\ result pressed = result m
  /\ In (with_isBookmarked true r) (bookmarks (loadHistory pressed))
  /\ stored (updateAudioCache (Some r) a pressed)
     = stored (updateAudioCache (Some r) a m)
  /\ forall saved item,
       stored (updateAudioCache (Some r) a pressed) = Some saved ->
       In item saved -> id item = id r -> is_true (isBookmarked item) = false.
Proof.
  intros Hr Hin Hs Hflag. cbv zeta.
  split; [reflexivity|]. split; [reflexivity|]. split; [reflexivity|].
  split; [reflexivity|]. split; [|split].
  - unfold loadHistory. rewrite pressBookmark_stored, Hs. cbn.
    unfold bookmarks. cbn. apply filter_In. split; [|reflexivity].
    apply in_map_iff. exists r. by rewrite String.eqb_refl.
  - unfold updateAudioCache. cbn. reflexivity.
  - intros saved item Hsaved Hitem Hid.
    unfold updateAudioCache in Hsaved. cbn in Hsaved. injection Hsaved as <-.
    rewrite (upsert_entries_of_id (with_audioBase64 a r) (history m) item Hitem Hid).
    exact Hflag.
Qed.

Lemma detail_bookmark_is_overwritten_witness :
  let r := sample "a" in
  let m := saveToHistory r (setResult (Some r) empty) in
  stored (updateAudioCache (Some r) "UklGRg==" (pressBookmark "a" false m))
  = stored (updateAudioCache (Some r) "UklGRg==" m).
Proof.
  intros r m.
  destruct (detail_bookmark_is_overwritten m r "UklGRg==")
    as (_ & _ & _ & _ & _ & Hsame & _);
    [reflexivity | left; reflexivity | reflexivity | reflexivity | exact Hsame].
Defined.
End DeskFacts.

Module IdFacts.
Import Js Scene.

Lemma to_uint_nonnil n : Nat.to_uint n <> Decimal.Nil.
Proof.
  rewrite <- (DecimalNat.Unsigned.of_to n) at 1.
  rewrite DecimalNat.Unsigned.to_of. apply DecimalFacts.unorm_nonnil.
Qed.

Lemma of_index_inj a b : of_index a = of_index b -> a = b.
Proof.
  unfold of_index. intros Heq.
  apply DecimalNat.Unsigned.to_uint_inj.
  pose proof (NilZero.usu (Nat.to_uint a) (to_uint_nonnil a)) as Ha.
  pose proof (NilZero.usu (Nat.to_uint b) (to_uint_nonnil b)) as Hb.
  rewrite Heq in Ha. congruence.
Qed.

Lemma digits_dash_free d : dash_free (NilEmpty.string_of_uint d).
Proof. induction d; cbn; auto; split; auto; discriminate. Qed.

Lemma of_index_dash_free n : dash_free (of_index n).
Proof.
  unfold of_index, NilZero.string_of_uint.
  destruct (Nat.to_uint n); try apply digits_dash_free.
  cbn. split; [discriminate|exact I].
Qed.

Lemma split_at_dash x x' y y' :
  dash_free x -> dash_free x' ->
  (x ++ String "-" y)%string = (x' ++ String "-" y')%string ->
  x = x' /\ y = y'.
Proof.
  revert x'. induction x as [|c x IH]; intros [|c' x'] Hx Hx' Heq.
  - by injection Heq.
  - injection Heq as Hc _. destruct Hx' as [Hc' _]. congruence.
  - injection Heq as Hc _. destruct Hx as [Hc' _]. congruence.
  - change (String c (x ++ String "-" y) = String c' (x' ++ String "-" y'))%string in Heq.
    injection Heq as -> Heq. destruct Hx as [_ Hx], Hx' as [_ Hx'].
    destruct (IH x' Hx Hx' Heq) as [-> ->]. done.
Qed.

(** The id of a node names its section and its sentence. *)
Lemma fact_id_inj a b a' b' :
  ("fact-" ++ of_index a ++ "-" ++ of_index b)%string
  = ("fact-" ++ of_index a' ++ "-" ++ of_index b')%string ->
  a = a' /\ b = b'.
Proof.
  intros Heq.
  change (String "f" (String "a" (String "c" (String "t" (String "-"
            (of_index a ++ String "-" (of_index b))))))
          = String "f" (String "a" (String "c" (String "t" (String "-"
            (of_index a' ++ String "-" (of_index b'))))))) %string in Heq.
  injection Heq as Heq.
  apply split_at_dash in Heq as [Ha Hb]; try apply of_index_dash_free.
  split; by apply of_index_inj.
Qed.
End IdFacts.

Module FirstEight.
Import Js Narrative Scene.

Lemma take_full {A} n (F rest extra : list A) :
  n <= length F -> firstn n (F ++ extra ++ rest)%list = firstn n (F ++ rest)%list.
Proof. intros Hlen. by rewrite !take_app_le. Qed.

Lemma facts_of_pushed random sIdx s idx nodes k m0 :
  match_year s = Some m0 -> length nodes < 8 ->
  List.map facts (fst (visit_sentence random sIdx s idx (nodes, k)))
  = (List.map facts nodes ++ [fact_of (sIdx, idx, s)])%list.
Proof.
  intros Hyear Hroom. unfold visit_sentence. rewrite Hyear.
  apply Nat.ltb_lt in Hroom. rewrite Hroom. cbn [fst].
  rewrite map_app. cbn. unfold facts. cbn. by rewrite Hyear.
Qed.

(** The inner loop keeps the first eight. *)
Lemma sentences_first_eight random sIdx sentences i (st : acc) F :
  List.map facts (fst st) = F -> length F <= 8 ->
  let st' := forEach_from (visit_sentence random sIdx) i sentences st in
  List.map facts (fst st')
  = firstn 8 (F ++ List.map fact_of (year_sentences_from sIdx i sentences))%list
  /\ length (List.map facts (fst st')) <= 8.
Proof.
  revert i st F. induction sentences as [|s sentences IH]; intros i st F HF Hlen.
  - cbn. rewrite app_nil_r, take_ge by lia. by rewrite HF.
  - cbv zeta. cbn [forEach_from]. unfold year_sentences_from.
    cbn [length seq zip zip_with List.flat_map fst snd].
    fold (year_sentences_from sIdx (S i) sentences).
    destruct st as [nodes k]. cbn [fst] in HF.
    assert (Hn : length nodes = length F) by by rewrite <- HF, length_map.
    destruct (match_year s) as [m0|] eqn:Hyear.
    + destruct (decide (length nodes < 8)) as [Hroom|Hfull].
      * specialize (IH (S i) (visit_sentence random sIdx s i (nodes, k))
                      (F ++ [fact_of (sIdx, i, s)])%list).
        cbv zeta in IH. rewrite map_app. cbn [List.map app].
        rewrite <- app_assoc in IH. apply IH.
        -- rewrite (facts_of_pushed random sIdx s i nodes k m0 Hyear Hroom).
           by rewrite HF.
        -- rewrite length_app. cbn. lia.
      * assert (Hsame : visit_sentence random sIdx s i (nodes, k) = (nodes, k)).
        { unfold visit_sentence. rewrite Hyear.
          destruct (length nodes <? 8) eqn:E; [|done].
          apply Nat.ltb_lt in E. lia. }
        rewrite Hsame, map_app. cbn [List.map app].
        change (fact_of (sIdx, i, s) :: ?l) with ([fact_of (sIdx, i, s)] ++ l)%list.
        rewrite (take_full 8 F _ [fact_of (sIdx, i, s)]) by lia.
        by apply IH.
    + assert (Hsame : visit_sentence random sIdx s i (nodes, k) = (nodes, k)).
      { unfold visit_sentence. by rewrite Hyear. }
      rewrite Hsame. cbn [app]. by apply IH.
Qed.

(** The outer loop keeps the first eight. *)
Lemma sections_first_eight random sections i (st : acc) F :
  List.map facts (fst st) = F -> length F <= 8 ->
  let st' := forEach_from (visit_section random) i sections st in
  List.map facts (fst st')
  = firstn 8 (F ++ List.map fact_of (year_sentences_at i sections))%list.
Proof.
  revert i st F. induction sections as [|sec sections IH]; intros i st F HF Hlen.
  - cbn. rewrite app_nil_r, take_ge by lia. by rewrite HF.
  - cbv zeta. cbn [forEach_from]. unfold year_sentences_at.
    cbn [length seq zip zip_with List.flat_map fst snd].
    fold (year_sentences_at (S i) sections).
    destruct (sentences_first_eight random i
                (split sentence_sep (content sec)) 0 st F HF Hlen) as [Hin Hle].
    fold (forEach (visit_sentence random i)) in Hin, Hle.
    fold (visit_section random sec i st) in Hin, Hle.
    fold (year_sentences_of i sec) in Hin.
    rewrite (IH (S i) (visit_section random sec i st) _ Hin) by (rewrite <- Hin; exact Hle).
    rewrite map_app, app_assoc.
    set (A := (F ++ List.map fact_of (year_sentences_of i sec))%list).
    set (B := List.map fact_of (year_sentences_at (S i) sections)).
    destruct (decide (8 <= length A)) as [Hfull|Hroom].
    + rewrite (take_app_le A B) by done.
      rewrite take_app_le by (rewrite length_take; lia).
      by rewrite take_take, Nat.min_id.
    + by rewrite (take_ge A) by lia.
Qed.

Lemma arFactNodes_facts random sections :
  List.map facts (arFactNodes random sections)
  = firstn 8 (List.map fact_of (year_sentences sections)).
Proof.
  unfold arFactNodes, forEach, year_sentences.
  apply (sections_first_eight random sections 0 ([], 0) []); [done|cbn; lia].
Qed.

(** X15. The nodes are made from the first eight year-bearing sentences of
    the sections in reading order, one node each; every later
    year-bearing sentence is ignored. *)
Theorem arFactNodes_first_eight random sections :
  List.map facts (arFactNodes random sections)
  = firstn 8 (List.map fact_of (year_sentences sections)).
Proof. apply arFactNodes_facts. Qed.
End FirstEight.

Module NodeIds.
Import Js Narrative Scene IdFacts FirstEight.

Lemma year_sentences_from_place sIdx i l c :
  In c (year_sentences_from sIdx i l) -> fst (fst c) = sIdx /\ i <= snd (fst c).
Proof.
  revert i. induction l as [|s l IH]; intros i; [intros []|].
  unfold year_sentences_from. cbn [length seq zip zip_with List.flat_map fst snd].
  fold (year_sentences_from sIdx (S i) l).
  intros [Hin|Hin]%in_app_or.
  - destruct (match_year s); [|destruct Hin].
    destruct Hin as [<-|[]]. cbn. lia.
  - apply IH in Hin. lia.
Qed.

Lemma year_sentences_from_NoDup sIdx i l :
  NoDup (List.map fst (year_sentences_from sIdx i l)).
Proof.
  revert i. induction l as [|s l IH]; intros i; [constructor|].
  unfold year_sentences_from. cbn [length seq zip zip_with List.flat_map fst snd].
  fold (year_sentences_from sIdx (S i) l).
  destruct (match_year s); [|apply IH].
  cbn [app List.map fst]. constructor; [|apply IH].
  intros Hin%list_elem_of_In. apply in_map_iff in Hin as (c & Hc & Hin).
  apply year_sentences_from_place in Hin. rewrite Hc in Hin. cbn in Hin. lia.
Qed.

Lemma year_sentences_at_place i sections c :
  In c (year_sentences_at i sections) -> i <= fst (fst c).
Proof.
  revert i. induction sections as [|sec sections IH]; intros i; [intros []|].
  unfold year_sentences_at. cbn [length seq zip zip_with List.flat_map fst snd].
  fold (year_sentences_at (S i) sections).
  intros [Hin|Hin]%in_app_or.
  - apply year_sentences_from_place in Hin. lia.
  - apply IH in Hin. lia.
Qed.

Lemma year_sentences_at_NoDup i sections :
  NoDup (List.map fst (year_sentences_at i sections)).
Proof.
  revert i. induction sections as [|sec sections IH]; intros i; [constructor|].
  unfold year_sentences_at. cbn [length seq zip zip_with List.flat_map fst snd].
  fold (year_sentences_at (S i) sections).
  rewrite map_app. apply NoDup_app. split; [apply year_sentences_from_NoDup|].
  split; [|apply IH].
  intros p Hp%list_elem_of_In Hq%list_elem_of_In.
  apply in_map_iff in Hp as (c & Hc & Hp), Hq as (d & Hd & Hq).
  apply year_sentences_from_place in Hp. apply year_sentences_at_place in Hq.
  rewrite Hc in Hp. rewrite Hd in Hq. lia.
Qed.

Lemma NoDup_map_injective {A B} (f : A -> B) l :
  (forall a b, f a = f b -> a = b) -> NoDup l -> NoDup (List.map f l).
Proof.
  intros Hinj. induction 1 as [|a l Hnotin Hnodup IH]; [constructor|].
  cbn [List.map]. constructor; [|done].
  intros Hin%list_elem_of_In. apply in_map_iff in Hin as (b & Hb & Hin).
  apply Hinj in Hb as ->. by apply Hnotin, list_elem_of_In.
Qed.

Lemma node_id_of_facts n : id n = fst (fst (fst (fst (facts n)))).
Proof. reflexivity. Qed.

Lemma arFactNodes_ids_NoDup random sections :
  NoDup (List.map id (arFactNodes random sections)).
Proof.
  assert (Hids : List.map id (arFactNodes random sections)
                 = firstn 8 (List.map (fun p : nat * nat =>
                      ("fact-" ++ of_index (fst p) ++ "-" ++ of_index (snd p))%string)
                      (List.map fst (year_sentences sections)))).
  { rewrite (map_ext id (fun n => fst (fst (fst (fst (facts n)))))) by done.
    rewrite <- (map_map facts (fun f => fst (fst (fst (fst f))))).
    rewrite arFactNodes_facts, <- firstn_map, !map_map.
    f_equal. apply map_ext. by intros [[a b] s]. }
  rewrite Hids. eapply sublist_NoDup; [|apply sublist_take].
  apply NoDup_map_injective; [|apply year_sentences_at_NoDup].
  intros [a b] [a' b'] Heq. cbn [fst snd] in Heq.
  by destruct (fact_id_inj a b a' b' Heq) as [-> ->].
Qed.

(** X16. No two nodes of the scene have the same id. *)
Theorem arFactNodes_ids_distinct random sections :
  NoDup (List.map id (arFactNodes random sections)).
Proof. apply arFactNodes_ids_NoDup. Qed.
End NodeIds.

Module Placement.
Import Js Narrative Scene ExtractorFacts.




End Placement.

Module SceneFacts.
Import Js Narrative Scene ExtractorFacts NodeIds.

Lemma existsb_eqb_In v seen :
  existsb (String.eqb v) seen = true <-> In v seen.
Proof.
  rewrite existsb_exists. split.
  - intros (x & Hin & Heq). apply String.eqb_eq in Heq. by subst.
  - intros Hin. exists v. split; [done|apply String.eqb_refl].
Qed.

Lemma set_add_In seen v x : In x (set_add seen v) <-> In x seen \/ x = v.
Proof.
  unfold set_add. destruct (existsb (String.eqb v) seen) eqn:E.
  - apply existsb_eqb_In in E. split; [tauto|]. intros [H| ->]; done.
  - rewrite in_app_iff. cbn. intuition.
Qed.

Lemma set_add_NoDup seen v : NoDup seen -> NoDup (set_add seen v).
Proof.
  intros Hnd. unfold set_add. destruct (existsb (String.eqb v) seen) eqn:E; [done|].
  apply NoDup_app. split; [done|]. split; [|apply NoDup_singleton].
  intros x Hx Hv%list_elem_of_In. destruct Hv as [<-|[]].
  apply list_elem_of_In, existsb_eqb_In in Hx. congruence.
Qed.

Lemma foldl_set_add_In l seen x :
  In x (foldl set_add seen l) <-> In x seen \/ In x l.
Proof.
  revert seen. induction l as [|v l IH]; intros seen; cbn [foldl].
  - cbn. tauto.
  - rewrite IH, set_add_In. cbn. intuition.
Qed.

Lemma foldl_set_add_NoDup l seen :
  NoDup seen -> NoDup (foldl set_add seen l).
Proof.
  revert seen. induction l as [|v l IH]; intros seen Hnd; cbn [foldl]; [done|].
  by apply IH, set_add_NoDup.
Qed.

Lemma array_from_set_In l x : In x (array_from_set l) <-> In x l.
Proof. unfold array_from_set. rewrite foldl_set_add_In. cbn. tauto. Qed.

Lemma array_from_set_NoDup l : NoDup (array_from_set l).
Proof. apply foldl_set_add_NoDup. constructor. Qed.

Lemma classify_label s : In (classify s) labels.
Proof.
  unfold classify, labels. cbv zeta.
  repeat match goal with |- context [if ?b then _ else _] => destruct b end;
    cbn; tauto.
Qed.

Lemma node_theme_label random sections n :
  In n (arFactNodes random sections) -> In (theme n) labels.
Proof.
  intros Hin. destruct (arFactNodes_kept random sections) as [_ Hall].
  rewrite Forall_forall in Hall. apply list_elem_of_In, Hall in Hin.
  destruct Hin as (_ & _ & sec & s & _ & _ & _ & -> & _). apply classify_label.
Qed.

Lemma NoDup_incl_length_le {A} (l k : list A) :
  NoDup l -> (forall x, In x l -> In x k) -> length l <= length k.
Proof.
  intros Hnd Hincl. apply NoDup_incl_length; [by apply NoDup_ListNoDup|done].
Qed.

(** X18. The theme chips of the scene: the first is All; after it comes
    every theme that some node has, once each; with at most five themes
    there are at most six chips, no two the same. *)
Theorem uniqueThemes_chips random sections :
  let nodes := arFactNodes random sections in
  head (uniqueThemes nodes) = Some "All"%string
  /\ (forall t, In t (tail (uniqueThemes nodes))
               <-> exists n, In n nodes /\ theme n = t)
  /\ NoDup (uniqueThemes nodes)
  /\ length (uniqueThemes nodes) <= 6.
Proof.
  cbv zeta. set (nodes := arFactNodes random sections).
  assert (Hlabels : forall t, In t (array_from_set (List.map theme nodes))
                              -> In t labels).
  { intros t Hin. apply (proj1 (array_from_set_In _ _)) in Hin.
    apply in_map_iff in Hin as (n & <- & Hin).
    by apply node_theme_label in Hin. }
  split; [reflexivity|]. split; [|split].
  - intros t. unfold uniqueThemes. cbn [tail]. rewrite array_from_set_In, in_map_iff.
    split; intros (n & H1 & H2); exists n; done.
  - unfold uniqueThemes. constructor; [|apply array_from_set_NoDup].
    intros Hin%list_elem_of_In%Hlabels. unfold labels in Hin. cbn in Hin.
    intuition discriminate.
  - unfold uniqueThemes. cbn [length].
    pose proof (NoDup_incl_length_le _ labels
                  (array_from_set_NoDup (List.map theme nodes)) Hlabels) as Hle.
    cbn in Hle. lia.
Qed.

(** Chips in general, whatever the nodes. *)
Lemma filter_theme_In t nodes n :
  In n (List.filter (fun n => String.eqb (theme n) t) nodes)
  <-> In n nodes /\ theme n = t.
Proof. rewrite filter_In, String.eqb_eq. tauto. Qed.

Lemma sublist_List_filter {A} (f : A -> bool) l : sublist (List.filter f l) l.
Proof.
  induction l as [|a l IH]; cbn [List.filter]; [constructor|].
  destruct (f a); by constructor.
Qed.

(** X19. A chip other than All shows exactly the nodes of its theme, in
    their order, and at least one; All shows every node. *)
Theorem filteredNodes_chip nodes t :
  In t (uniqueThemes nodes) -> t <> "All"%string ->
  filteredNodes t nodes <> []
  /\ (forall n, In n (filteredNodes t nodes) <-> In n nodes /\ theme n = t)
  /\ sublist (filteredNodes t nodes) nodes
  /\ filteredNodes "All"%string nodes = nodes.
Proof.
  intros Hin Hnot. unfold filteredNodes.
  destruct (String.eqb t "All") eqn:E; [by apply String.eqb_eq in E|].
  destruct Hin as [Hall|Hin]; [congruence|].
  apply (proj1 (array_from_set_In _ _)) in Hin.
  apply in_map_iff in Hin as (n & Hn & Hin).
  split; [|split; [|split]].
  - intros Hempty.
    assert (Hn' : In n (List.filter (fun n => String.eqb (theme n) t) nodes))
      by by apply filter_theme_In.
    rewrite Hempty in Hn'. destruct Hn'.
  - intros m. apply filter_theme_In.
  - apply sublist_List_filter.
  - reflexivity.
Qed.

Lemma filteredNodes_chip_witness :
  filteredNodes "Conflict"%string
    (arFactNodes (fun _ => 1 # 2)
       [ {| title := "Origins"%string;
            content := "Built in 1191. Lost in the war of 1300."%string |} ])
  <> [].
Proof.
  destruct (filteredNodes_chip
              (arFactNodes (fun _ => 1 # 2)
                 [ {| title := "Origins"%string;
                      content := "Built in 1191. Lost in the war of 1300."%string |} ])
              "Conflict"%string) as (H & _).
  - vm_compute. right. right. left. reflexivity.
  - discriminate.
  - exact H.
Defined.
End SceneFacts.

Module TimelineFacts.
Import Js Narrative Scene ExtractorFacts NodeIds.

Lemma by_year_le a b :
  (by_year a b <=? 0)%Z = true <-> parseInt (year a) <= parseInt (year b).
Proof. unfold by_year. rewrite Z.leb_le. lia. Qed.

Lemma by_year_gt a b :
  (by_year a b <=? 0)%Z = false <-> parseInt (year b) < parseInt (year a).
Proof. unfold by_year. rewrite Z.leb_gt. lia. Qed.

Lemma insert_sorted_perm a l :
  Permutation (a :: l) (insert_sorted by_year a l).
Proof.
  induction l as [|b l IH]; cbn [insert_sorted]; [done|].
  destruct (by_year a b <=? 0)%Z; [done|].
  rewrite perm_swap. by constructor.
Qed.

Lemma insert_sorted_ascending a l :
  StronglySorted (fun a b => parseInt (year a) <= parseInt (year b)) l ->
  StronglySorted (fun a b => parseInt (year a) <= parseInt (year b))
    (insert_sorted by_year a l).
Proof.
  induction 1 as [|b l Hsorted IH Hall]; cbn [insert_sorted].
  - repeat constructor.
  - destruct (by_year a b <=? 0)%Z eqn:E.
    + apply by_year_le in E. constructor; [by constructor|].
      constructor; [done|]. eapply Forall_impl; [exact Hall|].
      intros c Hc. cbn in Hc |- *. lia.
    + apply by_year_gt in E. constructor; [done|].
      rewrite <- (insert_sorted_perm a l). constructor; [lia|done].
Qed.

Lemma insert_sorted_stable k a l :
  List.filter (fun n => parseInt (year n) =? k) (insert_sorted by_year a l)
  = List.filter (fun n => parseInt (year n) =? k) (a :: l).
Proof.
  induction l as [|b l IH]; cbn [insert_sorted]; [done|].
  destruct (by_year a b <=? 0)%Z eqn:E; [done|].
  apply by_year_gt in E. cbn [List.filter] in IH |- *. rewrite IH.
  destruct (parseInt (year b) =? k) eqn:Eb, (parseInt (year a) =? k) eqn:Ea;
    try done.
  apply Nat.eqb_eq in Ea, Eb. lia.
Qed.

Lemma sort_by_year_spec nodes :
  Permutation nodes (sort by_year nodes)
  /\ StronglySorted (fun a b => parseInt (year a) <= parseInt (year b))
       (sort by_year nodes)
  /\ forall k,
       List.filter (fun n => parseInt (year n) =? k) (sort by_year nodes)
       = List.filter (fun n => parseInt (year n) =? k) nodes.
Proof.
  induction nodes as [|a nodes (IHp & IHs & IHf)].
  - repeat split; constructor.
  - cbn [sort]. split; [|split].
    + rewrite <- insert_sorted_perm. by constructor.
    + by apply insert_sorted_ascending.
    + intros k. rewrite insert_sorted_stable. cbn [List.filter]. by rewrite IHf.
Qed.

(** X20. The timeline holds the same nodes as the scene, in ascending
    order of year, nodes of one year in the order the scene has them. *)
Theorem sortedNodesByYear_chronological nodes :
  Permutation nodes (sortedNodesByYear nodes)
  /\ StronglySorted (fun a b => parseInt (year a) <= parseInt (year b))
       (sortedNodesByYear nodes)
  /\ forall k,
       List.filter (fun n => parseInt (year n) =? k) (sortedNodesByYear nodes)
       = List.filter (fun n => parseInt (year n) =? k) nodes.
Proof. apply sort_by_year_spec. Qed.

Lemma findIndex_from_unique l i j n :
  NoDup (List.map id l) -> l !! j = Some n ->
  findIndex_from (fun m => String.eqb (id m) (id n)) i l = (i + Z.of_nat j)%Z.
Proof.
  revert i j. induction l as [|a l IH]; intros i j Hnd Hj; [done|].
  cbn [List.map] in Hnd. apply NoDup_cons in Hnd as [Hnotin Hnd].
  cbn [findIndex_from]. destruct j as [|j].
  - cbn in Hj. injection Hj as ->. rewrite String.eqb_refl. lia.
  - cbn in Hj. destruct (String.eqb (id a) (id n)) eqn:E.
    + apply String.eqb_eq in E. exfalso. apply Hnotin. rewrite E.
      apply list_elem_of_In, in_map. apply list_elem_of_In.
      by eapply list_elem_of_lookup_2.
    + rewrite (IH (i + 1)%Z j Hnd Hj). lia.
Qed.

Lemma next_index j len :
  j < len -> S j mod len = if decide (S j = len) then 0 else S j.
Proof.
  intros Hlt. destruct (decide (S j = len)) as [->|Hmid].
  - apply Nat.Div0.mod_same.
  - apply Nat.mod_small. lia.
Qed.

Lemma prev_index j len :
  j < len -> (j + len - 1) mod len = match j with 0 => len - 1 | S j' => j' end.
Proof.
  intros Hlt. destruct j as [|j].
  - apply Nat.mod_small. lia.
  - replace (S j + len - 1) with (j + 1 * len) by lia.
    rewrite Nat.Div0.mod_add. apply Nat.mod_small. lia.
Qed.

Ltac index_cases :=
  repeat match goal with
    | |- context [(?a <? ?b)%Z] => destruct (Z.ltb_spec a b)
    | |- context [(?a <=? ?b)%Z] => destruct (Z.leb_spec a b)
    | H : context [(?a <? ?b)%Z] |- _ => destruct (Z.ltb_spec a b)
    | H : context [(?a <=? ?b)%Z] |- _ => destruct (Z.leb_spec a b)
    end; try lia; try (f_equal; lia).

Lemma navigateFact_next l j n :
  NoDup (List.map id l) -> l !! j = Some n ->
  navigateFact next l (Some n) = l !! (S j mod length l).
Proof.
  intros Hnd Hj. pose proof (lookup_lt_Some _ _ _ Hj) as Hlt.
  unfold navigateFact, findIndex. rewrite (findIndex_from_unique l 0 j n Hnd Hj).
  cbv zeta. unfold at_index. rewrite next_index by done.
  destruct (decide (S j = length l)); index_cases.
Qed.

Lemma navigateFact_prev l j n :
  NoDup (List.map id l) -> l !! j = Some n ->
  navigateFact prev l (Some n) = l !! ((j + length l - 1) mod length l).
Proof.
  intros Hnd Hj. pose proof (lookup_lt_Some _ _ _ Hj) as Hlt.
  unfold navigateFact, findIndex. rewrite (findIndex_from_unique l 0 j n Hnd Hj).
  cbv zeta. unfold at_index. rewrite prev_index by done.
  destruct j; index_cases.
Qed.

Lemma next_prev_index j len :
  j < len -> ((S j mod len) + len - 1) mod len = j.
Proof.
  intros Hlt. rewrite next_index by done.
  destruct (decide (S j = len)); rewrite prev_index by lia; lia.
Qed.

Lemma prev_next_index j len :
  j < len -> S ((j + len - 1) mod len) mod len = j.
Proof.
  intros Hlt. rewrite prev_index by done.
  destruct j as [|j]; rewrite next_index by lia;
    match goal with |- context [decide ?P] => destruct (decide P) end; lia.
Qed.

Lemma navigateFact_round_trip l j n :
  NoDup (List.map id l) -> l !! j = Some n ->
  navigateFact prev l (navigateFact next l (Some n)) = Some n
  /\ navigateFact next l (navigateFact prev l (Some n)) = Some n.
Proof.
  intros Hnd Hj. pose proof (lookup_lt_Some _ _ _ Hj) as Hlt. split.
  - rewrite (navigateFact_next l j n Hnd Hj).
    assert (Hlt' : S j mod length l < length l) by (apply Nat.mod_upper_bound; lia).
    destruct (lookup_lt_is_Some_2 l _ Hlt') as [m Hm]. rewrite Hm.
    rewrite (navigateFact_prev l _ m Hnd Hm), next_prev_index; done.
  - rewrite (navigateFact_prev l j n Hnd Hj).
    assert (Hlt' : (j + length l - 1) mod length l < length l)
      by (apply Nat.mod_upper_bound; lia).
    destruct (lookup_lt_is_Some_2 l _ Hlt') as [m Hm]. rewrite Hm.
    rewrite (navigateFact_next l _ m Hnd Hm), prev_next_index; done.
Qed.

(** X21. On the timeline of the scene, from the node at place [j], next
    selects the node at the following place and prev the node at the
    preceding place, wrapping around at both ends; next then prev, and
    prev then next, come back to the node. *)
Theorem navigateFact_cycles random sections n :
  let timeline := sortedNodesByYear (arFactNodes random sections) in
  In n (arFactNodes random sections) ->
  exists j,
    timeline !! j = Some n
    /\ navigateFact next timeline (Some n)
       = timeline !! (S j mod length timeline)
    /\ navigateFact prev timeline (Some n)
       = timeline !! ((j + length timeline - 1) mod length timeline)
    /\ navigateFact prev timeline (navigateFact next timeline (Some n)) = Some n
    /\ navigateFact next timeline (navigateFact prev timeline (Some n)) = Some n.
Proof.
  cbv zeta. intros Hin.
  destruct (sort_by_year_spec (arFactNodes random sections)) as (Hperm & _ & _).
  fold (sortedNodesByYear (arFactNodes random sections)) in Hperm.
  assert (Hnd : NoDup (List.map id (sortedNodesByYear (arFactNodes random sections)))).
  { apply NoDup_ListNoDup.
    eapply Permutation_NoDup; [apply Permutation_map, Hperm|].
    apply NoDup_ListNoDup, arFactNodes_ids_NoDup. }
  assert (Hin' : In n (sortedNodesByYear (arFactNodes random sections)))
    by by eapply Permutation_in.
  apply list_elem_of_In, list_elem_of_lookup_1 in Hin' as [j Hj].
  exists j. split; [done|].
  split; [by apply navigateFact_next|].
  split; [by apply navigateFact_prev|].
  by apply navigateFact_round_trip with j.
Qed.

Lemma navigateFact_cycles_witness :
  navigateFact prev
    (sortedNodesByYear
       (arFactNodes (fun _ => 1 # 2)
          [ {| title := "Origins"%string;
               content := "Sold in 1300. Built in 1191."%string |} ]))
    (navigateFact next
       (sortedNodesByYear
          (arFactNodes (fun _ => 1 # 2)
             [ {| title := "Origins"%string;
                  content := "Sold in 1300. Built in 1191."%string |} ]))
       (Some {| id := "fact-0-1"%string; year := "1191"%string;
                text := "Built in 1191."%string;
                theme := "General History"%string; sectionIdx := 0;
                x := ((1 # 2) - (1 # 2)) * 50;
                y := ((1 # 2) - (1 # 2)) * 35;
                z := (1 # 2) * -120 - 80 |}))
  = Some {| id := "fact-0-1"%string; year := "1191"%string;
            text := "Built in 1191."%string;
            theme := "General History"%string; sectionIdx := 0;
            x := ((1 # 2) - (1 # 2)) * 50;
            y := ((1 # 2) - (1 # 2)) * 35;
            z := (1 # 2) * -120 - 80 |}.
Proof.
  destruct (navigateFact_cycles (fun _ => 1 # 2)
              [ {| title := "Origins"%string;
                   content := "Sold in 1300. Built in 1191."%string |} ]
              {| id := "fact-0-1"%string; year := "1191"%string;
                 text := "Built in 1191."%string;
                 theme := "General History"%string; sectionIdx := 0;
                 x := ((1 # 2) - (1 # 2)) * 50;
                 y := ((1 # 2) - (1 # 2)) * 35;
                 z := (1 # 2) * -120 - 80 |})
    as (j & _ & _ & _ & H & _).
  - vm_compute. right. left. reflexivity.
  - exact H.
Defined.
End TimelineFacts.

Module ConfidenceFacts.
Import Scene.
Local Open Scope Q_scope.

Lemma fluctuate_range r c : 50 <= fluctuate r c /\ fluctuate r c <= 100.
Proof.
  unfold fluctuate. cbv zeta. split.
  - apply Q.le_max_l.
  - apply Q.max_lub; [lra|]. apply Q.le_min_l.
Qed.

Lemma fluctuate_step r c :
  0 <= r -> r < 1 -> 50 <= c -> c <= 100 ->
  c - 2 <= fluctuate r c /\ fluctuate r c <= c + 2.
Proof.
  intros Hr0 Hr1 Hc0 Hc1. unfold fluctuate. cbv zeta.
  pose proof (Q.max_spec 50 (Qmin 100 (c + (r - (1 # 2)) * 4))) as Hmax.
  pose proof (Q.min_spec 100 (c + (r - (1 # 2)) * 4)) as Hmin.
  set (lo := Qmin 100 (c + (r - (1 # 2)) * 4)) in *.
  set (hi := Qmax 50 lo) in *. clearbody lo hi.
  destruct Hmax as [[? ?]|[? ?]], Hmin as [[? ?]|[? ?]]; lra.
Qed.

Lemma trackingConfidence_snoc rs r :
  trackingConfidence (rs ++ [r]) = fluctuate r (trackingConfidence rs).
Proof. unfold trackingConfidence. by rewrite foldl_app. Qed.

Lemma trackingConfidence_range rs :
  50 <= trackingConfidence rs /\ trackingConfidence rs <= 100.
Proof.
  destruct rs as [|r rs _] using rev_ind.
  - unfold trackingConfidence. cbn. lra.
  - rewrite trackingConfidence_snoc. apply fluctuate_range.
Qed.

(** X22. The tracking confidence never leaves 50..100, whatever the
    random values; when they are in [0, 1), one tick of the timer moves
    it by at most 2. *)
Theorem trackingConfidence_bounded rs r :
  0 <= r -> r < 1 ->
  50 <= trackingConfidence rs /\ trackingConfidence rs <= 100
  /\ trackingConfidence rs - 2 <= trackingConfidence (rs ++ [r])
  /\ trackingConfidence (rs ++ [r]) <= trackingConfidence rs + 2.
Proof.
  intros Hr0 Hr1. destruct (trackingConfidence_range rs) as [H0 H1].
  rewrite trackingConfidence_snoc.
  destruct (fluctuate_step r (trackingConfidence rs) Hr0 Hr1 H0 H1).
  tauto.
Qed.

Lemma trackingConfidence_bounded_witness :
  trackingConfidence [9 # 10; 1 # 10] - 2
  <= trackingConfidence ([9 # 10; 1 # 10] ++ [0]).
Proof.
  destruct (trackingConfidence_bounded [9 # 10; 1 # 10] 0) as (_ & _ & H & _).
  - discriminate.
  - reflexivity.
  - exact H.
Defined.
End ConfidenceFacts.

Module PanelFacts.
Import Panel.

Lemma feedback_key_inj rid rid' :
  feedback_key rid = feedback_key rid' -> rid = rid'.
Proof. unfold feedback_key. cbn. intros H. by simplify_eq. Qed.

Lemma feedback_key_not_ar rid rid' : feedback_key rid <> ar_key rid'.
Proof. unfold feedback_key, ar_key. cbn. discriminate. Qed.

Lemma feedback_key_not_journal rid : feedback_key rid <> STORAGE_KEY.
Proof. unfold feedback_key, STORAGE_KEY. cbn. discriminate. Qed.

Lemma ar_key_not_journal rid : ar_key rid <> STORAGE_KEY.
Proof. unfold ar_key, STORAGE_KEY. cbn. discriminate. Qed.

Lemma handleFeedback_store rid type feedback st k :
  k <> feedback_key rid ->
  getItem k (snd (handleFeedback rid type feedback st)) = getItem k st.
Proof.
  intros Hk. unfold handleFeedback, getItem, setItem, removeItem. cbn.
  destruct (is_vote feedback type); cbn.
  - by rewrite lookup_delete_ne.
  - by rewrite lookup_insert_ne.
Qed.

Lemma is_vote_true feedback type :
  is_vote feedback type = true <-> feedback = Some type.
Proof.
  destruct feedback as [[]|], type; cbn; split; intros H; try done;
    by simplify_eq.
Qed.

(** X23. A vote is kept in the store under the key of its result, so
    that the view shows it again when it is opened anew; pressing the
    button of the current vote withdraws it and removes the key.
    Nothing else in the store changes: not the journal, not an AR flag,
    not the vote on another result. *)
Theorem handleFeedback_persists (rid : string) (type : Vote)
    (feedback : option Vote) (st : gmap string string) :
  let feedback' := fst (handleFeedback rid type feedback st) in
  let st' := snd (handleFeedback rid type feedback st) in
  loadFeedback rid st' None = feedback'
  /\ (feedback = Some type ->
      feedback' = None /\ getItem (feedback_key rid) st' = None)
  /\ (feedback <> Some type ->
      feedback' = Some type
      /\ getItem (feedback_key rid) st' = Some (vote_text type))
  /\ (forall k, k <> feedback_key rid -> getItem k st' = getItem k st)
  /\ getItem STORAGE_KEY st' = getItem STORAGE_KEY st
  /\ (forall rid', getItem (ar_key rid') st' = getItem (ar_key rid') st)
  /\ (forall rid', rid' <> rid ->
      loadFeedback rid' st' None = loadFeedback rid' st None).
Proof.
  cbv zeta. split; [|split; [|split; [|split; [|split; [|split]]]]].
  - unfold handleFeedback, loadFeedback, getItem, setItem, removeItem. cbn.
    destruct (is_vote feedback type); cbn.
    + by rewrite lookup_delete_eq.
    + rewrite lookup_insert_eq. by destruct type.
  - intros Hsame%is_vote_true.
    unfold handleFeedback, getItem, removeItem. rewrite Hsame. cbn.
    by rewrite lookup_delete_eq.
  - intros Hother.
    assert (Hno : is_vote feedback type = false).
    { destruct (is_vote feedback type) eqn:E; [|done].
      by apply is_vote_true in E. }
    unfold handleFeedback, getItem, setItem. rewrite Hno. cbn.
    by rewrite lookup_insert_eq.
  - intros k Hk. by apply handleFeedback_store.
  - apply handleFeedback_store. intros H. by apply (feedback_key_not_journal rid).
  - intros rid'. apply handleFeedback_store. intros H.
    by apply (feedback_key_not_ar rid rid').
  - intros rid' Hne. unfold loadFeedback.
    rewrite handleFeedback_store; [done|].
    intros H%feedback_key_inj. done.
Qed.

Lemma toggleAR_store rid granted l k :
  k <> ar_key rid -> getItem k (store (toggleAR rid granted l)) = getItem k (store l).
Proof.
  intros Hk. unfold toggleAR, getItem, setItem, removeItem.
  destruct (isARMode l), granted; cbn;
    rewrite ?lookup_delete_ne, ?lookup_insert_ne; done.
Qed.


(** X25. AR mode does not survive a reopening of the view: when the
    stored flag says true, the effect of the first render toggles AR mode
    off and stores false, without asking for the camera; otherwise the
    store is left as it is.  Either way the view is opened with AR mode
    off and no stream. *)
Theorem mount_turns_ar_off (rid : string) (granted : bool) (st : gmap string string) :
  isARMode (mount rid granted st) = false
  /\ stream (mount rid granted st) = false
  /\ (getItem (ar_key rid) st = Some "true"%string ->
      isARMode (opened rid st) = true
      /\ getItem (ar_key rid) (store (mount rid granted st)) = Some "false"%string)
  /\ (getItem (ar_key rid) st <> Some "true"%string ->
      store (mount rid granted st) = st)
  /\ (forall k, k <> ar_key rid ->
      getItem k (store (mount rid granted st)) = getItem k st)
  /\ (forall granted',
      isARMode (mount rid granted'
                  (store (toggleAR rid true (mount rid granted st)))) = false).
Proof.
  assert (Hoff : forall g s, isARMode (mount rid g s) = false).
  { intros g s. unfold mount, afterMount, opened, toggleAR. cbn.
    destruct (getItem (ar_key rid) s) as [saved|]; [|done]. cbn.
    by destruct (String.eqb saved "true") eqn:E. }
  split; [apply Hoff|]. split; [|split; [|split; [|split]]].
  - unfold mount, afterMount, opened, toggleAR. cbn.
    destruct (getItem (ar_key rid) st) as [saved|]; [|done]. cbn.
    by destruct (String.eqb saved "true").
  - intros Hflag. unfold mount, afterMount, opened, toggleAR. rewrite Hflag. cbn.
    split; [done|]. unfold getItem, setItem. by rewrite lookup_insert_eq.
  - intros Hflag. unfold mount, afterMount, opened.
    destruct (getItem (ar_key rid) st) as [saved|] eqn:Hsaved; [|done]. cbn.
    destruct (String.eqb_spec saved "true") as [->|Hne]; [done|]. done.
  - intros k Hk. unfold mount, afterMount.
    destruct (isARMode (opened rid st) && negb (stream (opened rid st))); [|done].
    by rewrite toggleAR_store.
  - intros granted'. apply Hoff.
Qed.

Lemma shown_insert idx b e j :
  shown j (<[idx := b]> e) = if decide (idx = j) then b else shown j e.
Proof.
  unfold shown. destruct (decide (idx = j)) as [->|Hne].
  - by rewrite lookup_insert_eq.
  - by rewrite lookup_insert_ne.
Qed.

(** X26. At first only section 0 is expanded.  [toggleSection] flips
    the section it is given and no other, and twice in a row shows every
    section as before; [jumpToChronicleSection] expands its section, leaves
    the others, and a second jump changes nothing. *)
Theorem sections_expand_and_collapse (idx : nat) (e : gmap nat bool) :
  (forall j, shown j initially = bool_decide (j = 0))
  /\ shown idx (toggleSection idx e) = negb (shown idx e)
  /\ (forall j, j <> idx -> shown j (toggleSection idx e) = shown j e)
  /\ (forall j, shown j (toggleSection idx (toggleSection idx e)) = shown j e)
  /\ shown idx (jumpToChronicleSection idx e) = true
  /\ (forall j, j <> idx -> shown j (jumpToChronicleSection idx e) = shown j e)
  /\ jumpToChronicleSection idx (jumpToChronicleSection idx e)
     = jumpToChronicleSection idx e
  /\ shown idx (toggleSection idx (jumpToChronicleSection idx e)) = false.
Proof.
  unfold toggleSection, jumpToChronicleSection.
  split; [|split; [|split; [|split; [|split; [|split; [|split]]]]]].
  - intros j. unfold initially, shown. destruct (decide (j = 0)) as [->|Hne].
    + by rewrite lookup_singleton_eq.
    + rewrite lookup_singleton_ne by done. by rewrite bool_decide_eq_false_2.
  - rewrite shown_insert. by rewrite decide_True.
  - intros j Hj. rewrite shown_insert. by rewrite decide_False.
  - intros j. rewrite !shown_insert.
    destruct (decide (idx = j)) as [->|Hne]; [|done].
    rewrite decide_True by done. by rewrite negb_involutive.
  - rewrite shown_insert. by rewrite decide_True.
  - intros j Hj. rewrite shown_insert. by rewrite decide_False.
  - by rewrite insert_insert_eq.
  - rewrite !shown_insert. by rewrite !decide_True.
Qed.
End PanelFacts.

Module GeminiFacts.
Import App Gemini JournalFacts.



End GeminiFacts.
